(** * Flash-anzan kids: the game session of [src/App.tsx]

    A shallow embedding of the React component [App]: its nine [useState]
    cells, the [flashTimerRef] ref, the FLASHING [useEffect] with its
    cleanup, the browser timers ([setInterval], [setTimeout]) the effect
    schedules, and the delayed tones [sounds.correct] and [sounds.wrong]
    schedule.

    Modelling conventions.
    - A JavaScript [number] that holds an integer is a [Z].  Sums, the score
      and the streak are integers far below 2^53, where JavaScript
      arithmetic on integers is exact.
    - [Math.random()] is a draw from a random source and yields a double in
      [0, 1), given by its mantissa and its binary scale.  The products and
      the quotient the page computes on doubles, [Math.random() * n] and
      [(currentIndex + 1) / numbers.length * 100], are the doubles nearest
      to the exact results, ties to even, as IEEE 754 arithmetic computes
      them; [Math.floor] is taken of the rounded product.
    - [Array.from({ length })] throws [RangeError] when the length is 2^32
      or more; a handler that throws leaves the state as it was when the
      throw happened.
    - A JavaScript string is a [string] (its UTF-8 bytes); the strings the
      program measures and parses hold ASCII digits only, for which the
      byte length is the JavaScript length.
    - React batches the state updates of one event or timer callback into
      one render, runs the effect after that render, and renders once more
      when the effect has set state.
    - What a tone sounds like ([playTone]) is no part of the state and is
      left out; which member of [sounds] an event calls is listed apart
      ([step_sounds]), and the timers [sounds] schedules are in the state
      ([toneTimers]).  Layout is left out. *)

From Stdlib Require Import ZArith List String Ascii Bool QArith Qround Lia.
Import ListNotations.

Local Open Scope string_scope.
Local Open Scope list_scope.
Local Open Scope Z_scope.

(** ** Data model *)

Inductive GameState : Type :=
| START
| READY
| FLASHING
| ANSWERING
| RESULT.

Definition GameState_eqb (a b : GameState) : bool :=
  match a, b with
  | START, START | READY, READY | FLASHING, FLASHING
  | ANSWERING, ANSWERING | RESULT, RESULT => true
  | _, _ => false
  end.

Record GameConfig : Type := mkConfig {
  name : string;
  count : Z;
  interval : Z;
  maxValue : Z;
  color : string;
  icon : string;
  message : string
}.

Definition DIFFICULTY_LEVELS : list GameConfig :=
  [ mkConfig "たまご級" 2 1200 5 "bg-yellow-400" "🥚" "まずは 2つから！";
    mkConfig "ひよこ級" 3 1000 9 "bg-green-400" "🐤" "3つに ちょうせん！";
    mkConfig "うさぎ級" 5 800 9 "bg-pink-400" "🐰" "どんどん いくよ！";
    mkConfig "くま級" 7 600 9 "bg-orange-400" "🐻" "キミなら できる！";
    mkConfig "らいおん級" 10 400 15 "bg-red-500" "🦁" "あんざんマスター！" ].

Definition PRAISE_MESSAGES : list string :=
  [ "すごすぎる！"; "てんさい！"; "かんぺき！"; "そのちょうし！"; "きらきら！"; "かっこいい！" ].

(** The message of the wrong branch of [checkAnswer]. *)
Definition CONSOLATION : string := "おしかったね！".

(** ** Exceptions

    What a call gives: the value it returns, or the exception it throws. *)

Inductive Exception : Type :=
| RangeError.

Inductive Outcome (A : Type) : Type :=
| Returned (a : A)
| Thrown (e : Exception).

Arguments Returned {A} a.
Arguments Thrown {A} e.

(** ** Doubles

    A double is given as [mantissa * 2^(-scale)], by an integer [mantissa]
    and an integer [scale >= 0]; the pair need not be normalised.
    [Math.random()] returns a double [d] with [0 <= d < 1].  Such a double
    is [mantissa * 2^(-scale)] for [0 <= mantissa < 2^53] and
    [53 <= scale <= 1074], and every such pair is one: with [mantissa]
    from 2^52 on it is a normal double of exponent [-scale], below that a
    subnormal one or one of a smaller exponent. *)

Record Double : Type := mkDouble {
  mantissa : Z;
  scale : Z
}.

Definition is_unit_double (r : Double) : Prop :=
  (0 <= mantissa r < 2 ^ 53) /\ (53 <= scale r <= 1074).

(** The rational a double stands for. *)
Definition value_of (r : Double) : Q :=
  (inject_Z (mantissa r) / inject_Z (2 ^ scale r))%Q.

(** The non-negative integer [p] rounded to 53 significant bits, to
    nearest, ties to the even mantissa.  Below 2^53 every integer has at
    most 53 bits.  From there on, with [s] the number of bits in excess,
    [p] lies between the multiples [q * 2^s] and [(q + 1) * 2^s] of [2^s],
    whose mantissas [q] and [q + 1] have 53 bits, and the nearer one is
    taken. *)
Definition round53_nonneg (p : Z) : Z :=
  if p <? 2 ^ 53 then p
  else
    let s := Z.log2 p - 52 in
    let q := p / 2 ^ s in
    let rest := p mod 2 ^ s in
    let half := 2 ^ (s - 1) in
    if rest <? half then q * 2 ^ s
    else if half <? rest then (q + 1) * 2 ^ s
    else if Z.even q then q * 2 ^ s
    else (q + 1) * 2 ^ s.

(** Rounding is symmetric about zero. *)
Definition round53 (p : Z) : Z := Z.sgn p * round53_nonneg (Z.abs p).

(** [x * n] for a double [x] and an integer [n]: the exact product is
    [mantissa * n * 2^(-scale)], and the double nearest to it is its
    mantissa rounded to 53 bits, at the same scale.  This is the product
    of IEEE 754 where that double is normal or the product is exact, as it
    is for every product the page computes: one factor is below 1 or is
    100, and a product of fewer than 53 bits, the only kind that can be
    subnormal, is exact. *)
Definition times (x : Double) (n : Z) : Double :=
  mkDouble (round53 (mantissa x * n)) (scale x).

(** [Math.floor(x)]: the quotient of the integer division. *)
Definition Math_floor (x : Double) : Z := mantissa x / 2 ^ scale x.

(** [Math.floor(r * n)] *)
Definition floor_of_product (r : Double) (n : Z) : Z :=
  Math_floor (times r n).

(** The quotient [n / d] of integers rounded to the nearest integer, ties
    to the even one. *)
Definition round_half_even (n d : Z) : Z :=
  let q := n / d in
  let r := n mod d in
  if 2 * r <? d then q
  else if d <? 2 * r then q + 1
  else if Z.even q then q
  else q + 1.

(** [a / b] for integers [1 <= a < 2^53] and [1 <= b < 2^53]: the double
    nearest to the quotient.  Its scale [k] is the one for which
    [2^52 <= (a / b) * 2^k < 2^53]; [52 + log2 b - log2 a] is that scale or
    one less.  Its mantissa is [(a / b) * 2^k] rounded to an integer. *)
Definition quotient_scale (a b : Z) : Z :=
  let k := 52 + Z.log2 b - Z.log2 a in
  if a * 2 ^ k <? b * 2 ^ 52 then k + 1 else k.

Definition divide (a b : Z) : Double :=
  let k := quotient_scale a b in
  mkDouble (round_half_even (a * 2 ^ k) b) k.

(** ** Browser timers

    A pending timer holds the callback it will run together with the
    variables that callback closes over.  The effect of [App] creates two
    kinds of callback:
    - [FlashTick idx nums ivl], the arrow function given to [setInterval];
      [idx] is its mutable local counter, [nums] and [ivl] are the [numbers]
      and [config.interval] of the render that ran the effect;
    - [ToAnswering], the arrow function given to [setTimeout]. *)

Inductive Callback : Type :=
| FlashTick (idx : Z) (nums : list Z) (ivl : Z)
| ToAnswering.

Record Timer : Type := mkTimer {
  tid : positive;
  due : Z;
  period : option Z;
  callback : Callback
}.

(** The timers of [sounds.correct] and [sounds.wrong]: one-shot timers
    whose callback plays a tone, [() => playTone(...)], and touches nothing
    of the state. *)
Record Tone : Type := mkTone {
  tone_id : positive;
  tone_due : Z
}.

(** ** The state of the page

    The nine [useState] cells of [App], the ref, what React remembers about
    the effect (the dependency values of its last run, and whether that run
    returned a cleanup function), and the environment: the pending timers
    of the effect ([timers]) and of the sounds ([toneTimers]), the next
    timer handle, the clock in milliseconds and the number of calls to
    [Math.random] so far.  [numbersId] is the identity of the array held in
    [numbers]: React compares the dependency [numbers] by reference. *)

Record World : Type := mkWorld {
  gameState : GameState;
  config : GameConfig;
  numbers : list Z;
  numbersId : nat;
  currentIndex : Z;
  userAnswer : string;
  score : Z;
  correctAnswer : Z;
  streak : Z;
  praise : option string;
  flashTimerRef : option positive;
  effectDeps : GameState * nat * Z;
  effectCleanup : bool;
  timers : list Timer;
  toneTimers : list Tone;
  nextTimerId : positive;
  clock : Z;
  randomCalls : nat
}.

Definition setGameState (v : GameState) (w : World) : World :=
  mkWorld v (config w) (numbers w) (numbersId w) (currentIndex w)
    (userAnswer w) (score w) (correctAnswer w) (streak w) (praise w)
    (flashTimerRef w) (effectDeps w) (effectCleanup w) (timers w) (toneTimers w)
    (nextTimerId w) (clock w) (randomCalls w).

Definition setConfig (v : GameConfig) (w : World) : World :=
  mkWorld (gameState w) v (numbers w) (numbersId w) (currentIndex w)
    (userAnswer w) (score w) (correctAnswer w) (streak w) (praise w)
    (flashTimerRef w) (effectDeps w) (effectCleanup w) (timers w) (toneTimers w)
    (nextTimerId w) (clock w) (randomCalls w).

(** [setNumbers] is always called with a freshly built array. *)
Definition setNumbers (v : list Z) (w : World) : World :=
  mkWorld (gameState w) (config w) v (S (numbersId w)) (currentIndex w)
    (userAnswer w) (score w) (correctAnswer w) (streak w) (praise w)
    (flashTimerRef w) (effectDeps w) (effectCleanup w) (timers w) (toneTimers w)
    (nextTimerId w) (clock w) (randomCalls w).

Definition setCurrentIndex (v : Z) (w : World) : World :=
  mkWorld (gameState w) (config w) (numbers w) (numbersId w) v
    (userAnswer w) (score w) (correctAnswer w) (streak w) (praise w)
    (flashTimerRef w) (effectDeps w) (effectCleanup w) (timers w) (toneTimers w)
    (nextTimerId w) (clock w) (randomCalls w).

Definition setUserAnswer (v : string) (w : World) : World :=
  mkWorld (gameState w) (config w) (numbers w) (numbersId w) (currentIndex w)
    v (score w) (correctAnswer w) (streak w) (praise w)
    (flashTimerRef w) (effectDeps w) (effectCleanup w) (timers w) (toneTimers w)
    (nextTimerId w) (clock w) (randomCalls w).

Definition setScore (v : Z) (w : World) : World :=
  mkWorld (gameState w) (config w) (numbers w) (numbersId w) (currentIndex w)
    (userAnswer w) v (correctAnswer w) (streak w) (praise w)
    (flashTimerRef w) (effectDeps w) (effectCleanup w) (timers w) (toneTimers w)
    (nextTimerId w) (clock w) (randomCalls w).

Definition setCorrectAnswer (v : Z) (w : World) : World :=
  mkWorld (gameState w) (config w) (numbers w) (numbersId w) (currentIndex w)
    (userAnswer w) (score w) v (streak w) (praise w)
    (flashTimerRef w) (effectDeps w) (effectCleanup w) (timers w) (toneTimers w)
    (nextTimerId w) (clock w) (randomCalls w).

Definition setStreak (v : Z) (w : World) : World :=
  mkWorld (gameState w) (config w) (numbers w) (numbersId w) (currentIndex w)
    (userAnswer w) (score w) (correctAnswer w) v (praise w)
    (flashTimerRef w) (effectDeps w) (effectCleanup w) (timers w) (toneTimers w)
    (nextTimerId w) (clock w) (randomCalls w).

Definition setPraise (v : option string) (w : World) : World :=
  mkWorld (gameState w) (config w) (numbers w) (numbersId w) (currentIndex w)
    (userAnswer w) (score w) (correctAnswer w) (streak w) v
    (flashTimerRef w) (effectDeps w) (effectCleanup w) (timers w) (toneTimers w)
    (nextTimerId w) (clock w) (randomCalls w).

Definition setFlashTimerRef (v : option positive) (w : World) : World :=
  mkWorld (gameState w) (config w) (numbers w) (numbersId w) (currentIndex w)
    (userAnswer w) (score w) (correctAnswer w) (streak w) (praise w)
    v (effectDeps w) (effectCleanup w) (timers w) (toneTimers w)
    (nextTimerId w) (clock w) (randomCalls w).

Definition setEffect (deps : GameState * nat * Z) (cleanup : bool)
    (w : World) : World :=
  mkWorld (gameState w) (config w) (numbers w) (numbersId w) (currentIndex w)
    (userAnswer w) (score w) (correctAnswer w) (streak w) (praise w)
    (flashTimerRef w) deps cleanup (timers w) (toneTimers w)
    (nextTimerId w) (clock w) (randomCalls w).

Definition setTimers (v : list Timer) (w : World) : World :=
  mkWorld (gameState w) (config w) (numbers w) (numbersId w) (currentIndex w)
    (userAnswer w) (score w) (correctAnswer w) (streak w) (praise w)
    (flashTimerRef w) (effectDeps w) (effectCleanup w) v (toneTimers w)
    (nextTimerId w) (clock w) (randomCalls w).

Definition setToneTimers (v : list Tone) (w : World) : World :=
  mkWorld (gameState w) (config w) (numbers w) (numbersId w) (currentIndex w)
    (userAnswer w) (score w) (correctAnswer w) (streak w) (praise w)
    (flashTimerRef w) (effectDeps w) (effectCleanup w) (timers w) v
    (nextTimerId w) (clock w) (randomCalls w).

Definition setNextTimerId (v : positive) (w : World) : World :=
  mkWorld (gameState w) (config w) (numbers w) (numbersId w) (currentIndex w)
    (userAnswer w) (score w) (correctAnswer w) (streak w) (praise w)
    (flashTimerRef w) (effectDeps w) (effectCleanup w) (timers w) (toneTimers w)
    v (clock w) (randomCalls w).

Definition setClock (v : Z) (w : World) : World :=
  mkWorld (gameState w) (config w) (numbers w) (numbersId w) (currentIndex w)
    (userAnswer w) (score w) (correctAnswer w) (streak w) (praise w)
    (flashTimerRef w) (effectDeps w) (effectCleanup w) (timers w) (toneTimers w)
    (nextTimerId w) v (randomCalls w).

Definition setRandomCalls (v : nat) (w : World) : World :=
  mkWorld (gameState w) (config w) (numbers w) (numbersId w) (currentIndex w)
    (userAnswer w) (score w) (correctAnswer w) (streak w) (praise w)
    (flashTimerRef w) (effectDeps w) (effectCleanup w) (timers w) (toneTimers w)
    (nextTimerId w) (clock w) v.

(** *** [setInterval], [setTimeout], [clearInterval]

    A negative delay counts as zero.  Handles are positive, hence truthy,
    and never reused; [clearInterval] on a handle that is no longer pending
    does nothing.  New timers go to the end of the list, so the list is in
    scheduling order. *)

Definition delay_of (ms : Z) : Z := Z.max 0 ms.

Arguments delay_of : simpl never.

Definition setInterval (cb : Callback) (ms : Z) (w : World)
    : positive * World :=
  let id := nextTimerId w in
  (id,
   setNextTimerId (Pos.succ id)
     (setTimers
        (timers w ++ [mkTimer id (clock w + delay_of ms) (Some (delay_of ms)) cb])
        w)).

Definition setTimeout (cb : Callback) (ms : Z) (w : World)
    : positive * World :=
  let id := nextTimerId w in
  (id,
   setNextTimerId (Pos.succ id)
     (setTimers (timers w ++ [mkTimer id (clock w + delay_of ms) None cb]) w)).

Definition remove_timer (id : positive) (ts : list Timer) : list Timer :=
  filter (fun t => negb (Pos.eqb (tid t) id)) ts.

Definition has_timer (id : positive) (ts : list Timer) : bool :=
  existsb (fun t => Pos.eqb (tid t) id) ts.

(** [clearInterval] is called with the handle held by [flashTimerRef] only,
    which is the handle of an interval of the effect; handles are never
    reused, so it names no delayed tone. *)
Definition clearInterval (id : positive) (w : World) : World :=
  setTimers (remove_timer id (timers w)) w.

(** [if (flashTimerRef.current) clearInterval(flashTimerRef.current)] *)
Definition clear_flash_timer (w : World) : World :=
  match flashTimerRef w with
  | Some id => clearInterval id w
  | None => w
  end.

(** The timer of the effect the browser runs next: the earliest due; among
    equals the one scheduled first. *)
Fixpoint next_timer (ts : list Timer) : option Timer :=
  match ts with
  | [] => None
  | t :: rest =>
      match next_timer rest with
      | Some u => if due u <? due t then Some u else Some t
      | None => Some t
      end
  end.

(** *** The delayed tones of [sounds]

    [setTimeout(() => playTone(...), ms)]: the handle it returns is
    dropped. *)
Definition setToneTimeout (ms : Z) (w : World) : World :=
  let id := nextTimerId w in
  setNextTimerId (Pos.succ id)
    (setToneTimers (toneTimers w ++ [mkTone id (clock w + delay_of ms)]) w).

(** [sounds.correct]: one tone at once, three more after 100, 200 and
    300 ms. *)
Definition sounds_correct (w : World) : World :=
  setToneTimeout 300 (setToneTimeout 200 (setToneTimeout 100 w)).

(** [sounds.wrong]: one tone at once, one more after 150 ms. *)
Definition sounds_wrong (w : World) : World :=
  setToneTimeout 150 w.

(** The tone the browser plays next: the earliest due; among equals the one
    scheduled first. *)
Fixpoint next_tone (ts : list Tone) : option Tone :=
  match ts with
  | [] => None
  | t :: rest =>
      match next_tone rest with
      | Some u => if tone_due u <? tone_due t then Some u else Some t
      | None => Some t
      end
  end.

(** The browser runs the next delayed tone: the timer is gone and the tone
    is played; no state is set. *)
Definition fire_tone (w : World) : World :=
  match next_tone (toneTimers w) with
  | Some t =>
      setToneTimers
        (filter (fun u => negb (Pos.eqb (tone_id u) (tone_id t))) (toneTimers w))
        (setClock (Z.max (clock w) (tone_due t)) w)
  | None => w
  end.

(** ** [parseInt]

    [parseInt(s)] with no radix: leading white space is skipped, one sign is
    read, a prefix [0x] or [0X] selects radix 16, and the longest run of
    digits of the radix is converted.  When there is no digit the result is
    [NaN], here [None]; [NaN === n] is false for every [n].  Of the white
    space characters only the ASCII ones are recognised. *)

Definition is_white_space (c : ascii) : bool :=
  let n := nat_of_ascii c in
  (Nat.eqb n 9 || Nat.eqb n 10 || Nat.eqb n 11 || Nat.eqb n 12
   || Nat.eqb n 13 || Nat.eqb n 32)%bool.

Fixpoint trim_start (s : string) : string :=
  match s with
  | String c rest => if is_white_space c then trim_start rest else s
  | EmptyString => s
  end.

Definition digit_value (radix : Z) (c : ascii) : option Z :=
  let n := Z.of_nat (nat_of_ascii c) in
  let v :=
    if (48 <=? n) && (n <=? 57) then Some (n - 48)
    else if (97 <=? n) && (n <=? 122) then Some (n - 87)
    else if (65 <=? n) && (n <=? 90) then Some (n - 55)
    else None in
  match v with
  | Some d => if d <? radix then Some d else None
  | None => None
  end.

Fixpoint parse_digits (radix : Z) (acc : option Z) (s : string) : option Z :=
  match s with
  | String c rest =>
      match digit_value radix c with
      | Some d =>
          parse_digits radix
            (Some (match acc with Some a => a * radix + d | None => d end))
            rest
      | None => acc
      end
  | EmptyString => acc
  end.

Definition parseInt (s : string) : option Z :=
  let s1 := trim_start s in
  let '(sign, s2) :=
    match s1 with
    | String "-" rest => (-1, rest)
    | String "+" rest => (1, rest)
    | _ => (1, s1)
    end in
  let '(radix, s3) :=
    match s2 with
    | String "0" (String "x" rest) => (16, rest)
    | String "0" (String "X" rest) => (16, rest)
    | _ => (10, s2)
    end in
  option_map (Z.mul sign) (parse_digits radix None s3).

(** [parseInt(s) === n] *)
Definition parseInt_equals (s : string) (n : Z) : bool :=
  match parseInt s with
  | Some v => v =? n
  | None => false
  end.

(** [!s] for a string [s]: the empty string is the only falsy one. *)
Definition is_empty (s : string) : bool :=
  match s with
  | EmptyString => true
  | String _ _ => false
  end.

(** The labels of the [NumberButton]s of the ANSWERING screen, in order. *)
Definition NUM_BUTTONS : list string :=
  [ "1"; "2"; "3"; "4"; "5"; "6"; "7"; "8"; "9"; "C"; "0" ].

(** ** The component *)

Section App.

(** The random source: [rng k] is what the [k]-th call of [Math.random]
    returns. *)
Variable rng : nat -> Double.

Definition valid_source : Prop := forall k, is_unit_double (rng k).

(** [Math.floor(Math.random() * n)], as the value and the advanced state. *)
Definition random_below (n : Z) (w : World) : Z * World :=
  (floor_of_product (rng (randomCalls w)) n,
   setRandomCalls (S (randomCalls w)) w).

(** The elements of [Array.from({ length }, f)]: [f] is called once per
    index, in order. *)
Fixpoint Array_fill (len : nat) (f : World -> Z * World) (w : World)
    : list Z * World :=
  match len with
  | O => ([], w)
  | S len' =>
      let '(v, w1) := f w in
      let '(vs, w2) := Array_fill len' f w1 in
      (v :: vs, w2)
  end.

(** [Array.from({ length }, f)].  The length of the array-like is [length]
    when that is positive and 0 otherwise.  The array is created first, by
    [new Array(len)], which throws [RangeError] unless [len < 2^32]; then
    it is filled. *)
Definition Array_from (len : Z) (f : World -> Z * World) (w : World)
    : Outcome (list Z * World) :=
  if 2 ^ 32 <=? len then Thrown RangeError
  else Returned (Array_fill (Z.to_nat len) f w).

(** [xs.reduce((a, b) => a + b, 0)] *)
Definition reduce_add (xs : list Z) : Z := fold_left Z.add xs 0.

(** [xs[i]], [undefined] out of range. *)
Definition index_at (xs : list string) (i : Z) : option string :=
  if i <? 0 then None else nth_error xs (Z.to_nat i).

(** [startGame] *)
Definition startGame (w : World) : Outcome World :=
  match
    Array_from (count (config w))
      (fun s => let '(v, s') := random_below (maxValue (config w)) s in
                (v + 1, s'))
      w
  with
  | Thrown e => Thrown e
  | Returned (newNumbers, w1) =>
      Returned
        (setUserAnswer ""
           (setGameState READY
              (setCorrectAnswer (reduce_add newNumbers)
                 (setNumbers newNumbers w1))))
  end.

(** The click on a button whose handler is [h].  When [h] throws, the
    event ends there; [startGame], the one handler that can throw, has set
    no state by then. *)
Definition on_click (h : World -> Outcome World) (w : World) : World :=
  match h w with
  | Returned w' => w'
  | Thrown _ => w
  end.

(** [handleNumClick] *)
Definition handleNumClick (val : string) (w : World) : World :=
  if String.eqb val "C" then setUserAnswer "" w
  else if (Z.of_nat (String.length (userAnswer w)) <? 3)
       then setUserAnswer (String.append (userAnswer w) val) w
       else w.

(** [checkAnswer] *)
Definition checkAnswer (w : World) : World :=
  let isCorrect := parseInt_equals (userAnswer w) (correctAnswer w) in
  let w1 :=
    if isCorrect then
      let w0 := sounds_correct w in
      let w2 := setScore (score w + count (config w) * 10 + streak w * 5) w0 in
      let w3 := setStreak (streak w + 1) w2 in
      let '(i, w4) := random_below (Z.of_nat (List.length PRAISE_MESSAGES)) w3 in
      setPraise (index_at PRAISE_MESSAGES i) w4
    else
      setPraise (Some CONSOLATION) (setStreak 0 (sounds_wrong w)) in
  setGameState RESULT w1.

(** *** The FLASHING effect

    [useEffect(f, [gameState, numbers, config.interval])]: after a render,
    when one of the dependencies differs from its value at the last run,
    React calls the cleanup the last run returned, if any, and runs [f]
    again.  [f] returns a cleanup only when it ran in FLASHING. *)

Definition effect_deps (w : World) : GameState * nat * Z :=
  (gameState w, numbersId w, interval (config w)).

Definition deps_eqb (a b : GameState * nat * Z) : bool :=
  let '(g1, n1, i1) := a in
  let '(g2, n2, i2) := b in
  GameState_eqb g1 g2 && Nat.eqb n1 n2 && (i1 =? i2).

Definition effect_cleanup (w : World) : World :=
  if effectCleanup w then clear_flash_timer w else w.

Definition flashing_effect (w : World) : World :=
  match gameState w with
  | FLASHING =>
      let w1 := setCurrentIndex 0 w in
      let '(id, w2) :=
        setInterval (FlashTick 0 (numbers w) (interval (config w)))
          (interval (config w)) w1 in
      setEffect (effect_deps w) true (setFlashTimerRef (Some id) w2)
  | _ => setEffect (effect_deps w) false w
  end.

(** What React does after the render that follows the state updates of one
    event. *)
Definition commit (w : World) : World :=
  if deps_eqb (effect_deps w) (effectDeps w) then w
  else flashing_effect (effect_cleanup w).

(** *** Timer callbacks

    Running a callback gives the callback as it is afterwards (the interval
    callback has incremented its [idx]) and the new state. *)

Definition run_callback (cb : Callback) (w : World) : Callback * World :=
  match cb with
  | FlashTick idx nums ivl =>
      let idx' := idx + 1 in
      (FlashTick idx' nums ivl,
       if idx' <? Z.of_nat (List.length nums) then setCurrentIndex idx' w
       else snd (setTimeout ToAnswering ivl (clear_flash_timer w)))
  | ToAnswering =>
      (ToAnswering, setCurrentIndex (-1) (setGameState ANSWERING w))
  end.

(** The browser runs timer [t]: the clock is at its due time; a one-shot
    timer is gone before its callback runs; a repeating timer is scheduled
    again unless its callback cleared it. *)
Definition fire (t : Timer) (w : World) : World :=
  let w0 := setClock (due t) w in
  match period t with
  | None =>
      snd (run_callback (callback t)
             (setTimers (remove_timer (tid t) (timers w0)) w0))
  | Some p =>
      let '(cb', w1) := run_callback (callback t) w0 in
      if has_timer (tid t) (timers w1)
      then setTimers
             (remove_timer (tid t) (timers w1)
              ++ [mkTimer (tid t) (due t + p) (Some p) cb'])
             w1
      else w1
  end.

(** ** Triggers

    What the user and the browser can do.  A click reaches its handler only
    when the button is on the screen of the current [gameState] and is not
    disabled.  [TimerFires] is the next timer of the effect, [ToneFires]
    the next delayed tone; the tones and the timers of the effect do not
    touch each other, and the two are taken in either order. *)

Inductive Trigger : Type :=
| SelectLevel (i : nat)
| ClickStart
| ClickGo
| ClickNum (val : string)
| ClickOk
| ClickRestart
| ClickHome
| TimerFires
| ToneFires.

Definition handle (w : World) (tr : Trigger) : World :=
  match tr, gameState w with
  | SelectLevel i, START =>
      match nth_error DIFFICULTY_LEVELS i with
      | Some level => setConfig level w
      | None => w
      end
  | ClickStart, START => on_click startGame w
  | ClickGo, READY => setGameState FLASHING w
  | ClickNum val, ANSWERING =>
      if existsb (String.eqb val) NUM_BUTTONS then handleNumClick val w else w
  | ClickOk, ANSWERING =>
      if is_empty (userAnswer w) then w else checkAnswer w
  | ClickRestart, RESULT => on_click startGame w
  | ClickHome, RESULT => setGameState START w
  | TimerFires, _ =>
      match next_timer (timers w) with
      | Some t => fire t w
      | None => w
      end
  | ToneFires, _ => fire_tone w
  | _, _ => w
  end.

Definition step (w : World) (tr : Trigger) : World := commit (handle w tr).

Definition run (w : World) (trs : list Trigger) : World :=
  fold_left step trs w.

(** The page after its first render: [DIFFICULTY_LEVELS[0]] is the preset,
    the effect has run once, in START. *)
Definition initial_config : GameConfig :=
  nth 0 DIFFICULTY_LEVELS (mkConfig "" 0 0 0 "" "" "").

Definition initial : World :=
  mkWorld START initial_config [] 0 (-1) "" 0 0 0 (Some "") None
    (START, 0%nat, interval initial_config) false [] [] 1%positive 0 0.

(** The states between two events. *)
Inductive reachable : World -> Prop :=
| reach_initial : reachable initial
| reach_step w tr : reachable w -> reachable (step w tr).

(** The states the page is rendered in: those between two events and,
    after each event, the state its handler leaves, which React renders
    before it runs the effect. *)
Inductive rendered : World -> Prop :=
| render_settled w : reachable w -> rendered w
| render_event w tr : reachable w -> rendered (handle w tr).

(** The value the callback of [Array.from] computes from the [k]-th draw. *)
Definition draw (mv : Z) (k : nat) : Z := floor_of_product (rng k) mv + 1.

Definition round_length (w : World) : nat := Z.to_nat (count (config w)).

(** The values of a round generated in state [w], in closed form. *)
Definition newNumbers (w : World) : list Z :=
  map (draw (maxValue (config w))) (seq (randomCalls w) (round_length w)).

(** The state [startGame] returns, in closed form. *)
Definition started (w : World) : World :=
  setUserAnswer ""
    (setGameState READY
       (setCorrectAnswer (reduce_add (newNumbers w))
          (setNumbers (newNumbers w)
             (setRandomCalls (round_length w + randomCalls w) w)))).

End App.

(** ** Notions used in the statements *)

(** A state is committed when React has run the effect for its current
    dependency values: every state between two events is. *)
Definition committed (w : World) : Prop := effectDeps w = effect_deps w.

(** The arithmetic sum the specification speaks of. *)
Fixpoint sum_of (xs : list Z) : Z :=
  match xs with
  | [] => 0
  | x :: rest => x + sum_of rest
  end.

(** A pending answer is made of decimal digits. *)
Definition is_digit (c : ascii) : bool :=
  let n := nat_of_ascii c in (Nat.leb 48 n && Nat.leb n 57)%bool.

Fixpoint all_digits (s : string) : bool :=
  match s with
  | EmptyString => true
  | String c rest => is_digit c && all_digits rest
  end.

(** The timers of the effect.  Outside FLASHING none is pending.  In
    FLASHING one is: the repeating one, whose handle the ref holds, or else
    the final one-shot delay. *)
Definition flash_timers (w : World) : Prop :=
  match gameState w with
  | FLASHING =>
      (exists id d p idx nums ivl,
          timers w = [mkTimer id d (Some p) (FlashTick idx nums ivl)] /\
          flashTimerRef w = Some id /\ (id < nextTimerId w)%positive)
      \/ (exists id d,
          timers w = [mkTimer id d None ToAnswering] /\
          (id < nextTimerId w)%positive)
  | _ => timers w = []
  end.

(** What holds of the page between two events. *)
Record session_invariant (w : World) : Prop := mkInvariant {
  inv_config : In (config w) DIFFICULTY_LEVELS;
  inv_committed : committed w;
  inv_cleanup : effectCleanup w = GameState_eqb (gameState w) FLASHING;
  inv_digits : all_digits (userAnswer w) = true;
  inv_length : (String.length (userAnswer w) <= 3)%nat;
  inv_round : gameState w <> START -> numbers w <> [];
  inv_result : gameState w = RESULT -> is_empty (userAnswer w) = false;
  inv_timers : flash_timers w
}.

(** [ticks rng k w]: the page after the browser has run [k] callbacks of
    timers of the effect in a row, each followed by React's render. *)
Definition ticks (rng : nat -> Double) (k : nat) (w : World) : World :=
  Nat.iter k (fun s => step rng s TimerFires) w.

(** During the flash sequence that started at time [t0] with period [ivl]:
    index [k] is on the screen, it has been since [t0 + k * ivl], and the
    repeating timer [id] will fire next at [t0 + (k + 1) * ivl]. *)
Definition showing (id : positive) (t0 ivl : Z) (nums : list Z) (k : Z)
    (s : World) : Prop :=
  gameState s = FLASHING /\
  currentIndex s = k /\
  clock s = t0 + k * ivl /\
  timers s = [mkTimer id (t0 + (k + 1) * ivl) (Some ivl) (FlashTick k nums ivl)] /\
  flashTimerRef s = Some id /\
  (id < nextTimerId s)%positive /\
  committed s.

(** The stored round: its sum is the sum of its values, and the values fit
    some preset of the catalog. *)
Definition round_within_catalog (w : World) : Prop :=
  correctAnswer w = sum_of (numbers w) /\
  exists c,
    In c DIFFICULTY_LEVELS /\
    Z.of_nat (List.length (numbers w)) <= count c /\
    Forall (fun v => 1 <= v <= maxValue c) (numbers w).

(** The digit buttons to press, most significant first, to type a number
    below 1000. *)
Definition digit_label (d : Z) : string :=
  String (ascii_of_nat (48 + Z.to_nat d)) "".

Definition decimal_keys (n : Z) : list string :=
  if n <? 10 then [digit_label n]
  else if n <? 100 then [digit_label (n / 10); digit_label (n mod 10)]
  else [digit_label (n / 100); digit_label (n / 10 mod 10);
        digit_label (n mod 10)].

(** What the pressed keys spell. *)
Definition typed_text (keys : list string) : string :=
  fold_right String.append "" keys.

Definition is_digit_button (k : string) : bool :=
  existsb (String.eqb k) NUM_BUTTONS && negb (String.eqb k "C").

(** [decimal_keys n] are at most three digit buttons that spell [n]. *)
Definition keys_spell (n : Z) : bool :=
  forallb is_digit_button (decimal_keys n)
  && Nat.leb (List.length (decimal_keys n)) 3
  && parseInt_equals (typed_text (decimal_keys n)) n.


(** No game has been played yet: the page is as after its first render, up
    to the choice of a level. *)
Definition before_first_game (w : World) : Prop :=
  gameState w = START /\
  numbersId w = 0%nat /\
  randomCalls w = 0%nat /\
  score w = 0 /\
  streak w = 0 /\
  userAnswer w = "".

(** ** What the page shows

    The values the JSX of [App] computes from the state at each render. *)

(** [progress], the width of the progress bar in percent.  With an index
    on display and an empty [numbers] the division is by zero and the
    result is no finite number: [None]. *)
Definition progress (w : World) : option Double :=
  if 0 <=? currentIndex w then
    if Nat.eqb (List.length (numbers w)) 0 then None
    else Some (times (divide (currentIndex w + 1)
                        (Z.of_nat (List.length (numbers w))))
                 100)
  else Some (mkDouble 0 0).

(** The content of the big number of the FLASHING screen,
    [currentIndex >= 0 ? numbers[currentIndex] : ''].  An index outside the
    array gives [undefined]. *)
Inductive Rendered : Type :=
| Blank
| Number (v : Z)
| Undefined.

Definition flash_text (w : World) : Rendered :=
  if 0 <=? currentIndex w then
    match nth_error (numbers w) (Z.to_nat (currentIndex w)) with
    | Some v => Number v
    | None => Undefined
    end
  else Blank.

(** The colour class of the big number, chosen by [currentIndex % 3]; the
    remainder of JavaScript has the sign of the dividend. *)
Definition flash_color (w : World) : string :=
  if Z.rem (currentIndex w) 3 =? 0 then "text-orange-400"
  else if Z.rem (currentIndex w) 3 =? 1 then "text-green-400"
  else "text-blue-400".

(** The level button that carries the ring: [config.name === level.name]. *)
Definition is_selected (w : World) (level : GameConfig) : bool :=
  String.eqb (name (config w)) (name level).

(** The RESULT screen shows the trophy when
    [parseInt(userAnswer) === correctAnswer], and the streak banner when
    [streak > 1] as well. *)
Definition shows_trophy (w : World) : bool :=
  parseInt_equals (userAnswer w) (correctAnswer w).

Definition shows_streak_banner (w : World) : bool :=
  (1 <? streak w) && parseInt_equals (userAnswer w) (correctAnswer w).

(** ** Further notions used in the statements *)

(** The moves between screens. *)
Definition phase_edge (a b : GameState) : bool :=
  match a, b with
  | START, READY | READY, FLASHING | FLASHING, ANSWERING
  | ANSWERING, RESULT | RESULT, READY | RESULT, START => true
  | _, _ => GameState_eqb a b
  end.

(** What holds, besides [session_invariant], of the game itself between two
    events: the ledger, the display, the closure of the repeating timer and
    the stored round. *)
Record play_invariant (rng : nat -> Double) (w : World) : Prop := mkPlay {
  pi_streak : 0 <= streak w;
  pi_score : 0 <= score w;
  pi_input : gameState w = READY \/ gameState w = FLASHING -> userAnswer w = "";
  pi_index_idle : gameState w <> FLASHING -> currentIndex w = -1;
  pi_index :
    gameState w = FLASHING ->
    0 <= currentIndex w < Z.of_nat (List.length (numbers w));
  pi_closure :
    forall id d p idx nums ivl,
      timers w = [mkTimer id d p (FlashTick idx nums ivl)] ->
      idx = currentIndex w /\ nums = numbers w;
  pi_last :
    forall id d,
      timers w = [mkTimer id d None ToAnswering] ->
      currentIndex w + 1 = Z.of_nat (List.length (numbers w));
  pi_round :
    gameState w <> START ->
    Z.of_nat (List.length (numbers w)) = count (config w);
  pi_sum : correctAnswer w = sum_of (numbers w);
  pi_result :
    gameState w = RESULT ->
    (shows_trophy w = true /\ 1 <= streak w)
    \/ (shows_trophy w = false /\ streak w = 0 /\ praise w = Some CONSOLATION);
  pi_range :
    valid_source rng -> gameState w <> START ->
    Forall (fun v => 1 <= v <= maxValue (config w)) (numbers w);
  pi_praise :
    valid_source rng -> gameState w = RESULT -> shows_trophy w = true ->
    exists m, praise w = Some m /\ In m PRAISE_MESSAGES;
  pi_fresh : numbersId w = 0%nat -> before_first_game w /\ numbers w = [];
  pi_played : numbersId w <> 0%nat -> numbers w <> []
}.

(** The number of callbacks of timers of the effect still to run before the
    FLASHING screen is left. *)
Definition remaining_ticks (w : World) : nat :=
  match timers w with
  | [t] =>
      match callback t with
      | FlashTick idx nums _ => Z.to_nat (Z.of_nat (List.length nums) - idx + 1)
      | ToAnswering => 1
      end
  | _ => 0
  end.

(** ** Feedback sounds

    The members of the object [sounds].  What a sound plays is no part of
    the state; what is modelled is which members an event calls, in
    order. *)
Module sounds.

Inductive t : Type :=
| flash
| click
| correct
| wrong
| start.

End sounds.

(** The calls made by the interval callback and by the timeout callback. *)
Definition callback_sounds (cb : Callback) : list sounds.t :=
  match cb with
  | FlashTick idx nums _ =>
      if idx + 1 <? Z.of_nat (List.length nums) then [sounds.flash] else []
  | ToAnswering => []
  end.

(** The calls made by the handler of an event: the [onClick] of the button,
    when the button is on the screen and enabled, or the callback of the
    timer that fires.  The callback of a delayed tone calls [playTone], no
    member of [sounds]. *)
Definition handler_sounds (w : World) (tr : Trigger) : list sounds.t :=
  match tr, gameState w with
  | SelectLevel i, START =>
      match nth_error DIFFICULTY_LEVELS i with
      | Some _ => [sounds.click]
      | None => []
      end
  | ClickStart, START => [sounds.start]
  | ClickGo, READY => [sounds.click]
  | ClickNum val, ANSWERING =>
      if existsb (String.eqb val) NUM_BUTTONS then [sounds.click] else []
  | ClickOk, ANSWERING =>
      if is_empty (userAnswer w) then []
      else sounds.click
           :: (if parseInt_equals (userAnswer w) (correctAnswer w)
               then [sounds.correct] else [sounds.wrong])
  | ClickRestart, RESULT => [sounds.start]
  | ClickHome, RESULT => [sounds.click]
  | TimerFires, _ =>
      match next_timer (timers w) with
      | Some t => callback_sounds (callback t)
      | None => []
      end
  | _, _ => []
  end.

(** The call made by the effect, when React runs it in FLASHING. *)
Definition effect_sounds (h : World) : list sounds.t :=
  if deps_eqb (effect_deps h) (effectDeps h) then []
  else match gameState h with
       | FLASHING => [sounds.flash]
       | _ => []
       end.

Definition step_sounds (rng : nat -> Double) (w : World) (tr : Trigger)
    : list sounds.t :=
  handler_sounds w tr ++ effect_sounds (handle rng w tr).

Fixpoint run_sounds (rng : nat -> Double) (w : World) (trs : list Trigger)
    : list sounds.t :=
  match trs with
  | [] => []
  | tr :: rest => step_sounds rng w tr ++ run_sounds rng (step rng w tr) rest
  end.

(** ** Sample inputs *)

(** A source whose every draw is one half. *)
Definition rng_half : nat -> Double := fun _ => mkDouble (2 ^ 52) 53.

(** The doubles written [0.6], [0.4444444444444444] and
    [0.8333333333333333], and a source whose every draw is the first. *)
Definition double_0_6 : Double := mkDouble 5404319552844595 53.

Definition double_0_44 : Double := mkDouble 4003199668773774 53.

Definition double_0_83 : Double := mkDouble 7505999378950826 53.

Definition rng_0_6 : nat -> Double := fun _ => double_0_6.

(** The first preset, a round of [3; 3], at the READY screen. *)
Definition sample_ready : World := run rng_half initial [ClickStart].

(** The same round with its first value on the screen. *)
Definition sample_flashing : World :=
  run rng_half initial [ClickStart; ClickGo].

(** The same round once its two values have been flashed and the final
    delay is pending. *)
Definition sample_final_delay : World :=
  run rng_half initial [ClickStart; ClickGo; TimerFires; TimerFires].

(** The same round at the ANSWERING screen, nothing typed. *)
Definition sample_answering : World :=
  run rng_half initial [ClickStart; ClickGo; TimerFires; TimerFires; TimerFires].

(** The same round after the answers 6 (right) and 7 (wrong). *)
Definition sample_right : World :=
  run rng_half sample_answering [ClickNum "6"; ClickOk].

Definition sample_wrong : World :=
  run rng_half sample_answering [ClickNum "7"; ClickOk].



(** The sample round with 6, and with 7, typed and not yet submitted. *)
Definition sample_typed_right : World :=
  run rng_half sample_answering [ClickNum "6"].

Definition sample_typed_wrong : World :=
  run rng_half sample_answering [ClickNum "7"].

(** The second preset: rounds of [5; 5; 5].  Two right answers in a row,
    then the third round with its answer 15 typed: the streak is 2. *)
Definition play_right_round : list Trigger :=
  [ClickGo; TimerFires; TimerFires; TimerFires; TimerFires;
   ClickNum "1"; ClickNum "5"; ClickOk].

Definition sample_streak_two : World :=
  run rng_half initial
    ([SelectLevel 1; ClickStart] ++ play_right_round
     ++ [ClickRestart] ++ play_right_round
     ++ [ClickRestart; ClickGo; TimerFires; TimerFires; TimerFires; TimerFires;
         ClickNum "1"; ClickNum "5"]).

(** * Properties *)

(** Reduction of the field accessors over the setters, and nothing else. *)
Ltac fields :=
  cbn [gameState config numbers numbersId currentIndex userAnswer score
       correctAnswer streak praise flashTimerRef effectDeps effectCleanup
       timers toneTimers nextTimerId clock randomCalls
       setGameState setConfig setNumbers setCurrentIndex setUserAnswer
       setScore setCorrectAnswer setStreak setPraise setFlashTimerRef
       setEffect setTimers setToneTimers setNextTimerId setClock setRandomCalls
       app] in *.

(** Splitting of conjunctions only: equations are left to evaluation. *)
Ltac conj_split := match goal with |- _ /\ _ => split end.

(** The case, in the proof of an invariant, of a state in which no round
    has been started yet. *)
Ltac fresh_case :=
  fields; unfold before_first_game in *; fields;
  match goal with
  | H : S _ = 0%nat |- _ => discriminate H
  | F : numbersId ?w = 0%nat -> _, H : numbersId ?w = 0%nat |- _ =>
      let B := fresh "B" in
      destruct (F H) as [B ?]; solve [intuition congruence]
  end.

(** The closing steps shared by the cases of the invariants. *)
Ltac play_solve :=
  simpl; intros; eauto; try congruence; try lia;
  try match goal with H : _ \/ _ |- _ => destruct H; congruence end;
  try fresh_case.

(** ** Rendering and the effect *)

Lemma GameState_eqb_eq (a b : GameState) : GameState_eqb a b = true <-> a = b.
Proof. destruct a, b; simpl; split; intro H; congruence. Qed.

Lemma deps_eqb_eq (a b : GameState * nat * Z) : deps_eqb a b = true <-> a = b.
Proof.
  destruct a as [[g1 n1] i1], b as [[g2 n2] i2]; simpl.
  rewrite !andb_true_iff, GameState_eqb_eq, Nat.eqb_eq, Z.eqb_eq.
  split.
  - intros [[-> ->] ->]; reflexivity.
  - intros H; inversion H; auto.
Qed.

Lemma deps_eqb_refl (a : GameState * nat * Z) : deps_eqb a a = true.
Proof. apply deps_eqb_eq; reflexivity. Qed.


Lemma commit_committed (w : World) : committed (commit w).
Proof.
  unfold commit, committed.
  destruct (deps_eqb (effect_deps w) (effectDeps w)) eqn:E.
  - apply deps_eqb_eq in E; auto.
  - unfold flashing_effect, effect_cleanup, clear_flash_timer.
    destruct (effectCleanup w), (flashTimerRef w), (gameState w) eqn:G;
      unfold effect_deps; simpl; rewrite ?G; simpl; rewrite ?G; reflexivity.
Qed.

Lemma commit_id (w : World) : committed w -> commit w = w.
Proof.
  unfold committed, commit; intros ->; rewrite deps_eqb_refl; reflexivity.
Qed.

(** The effect touches [currentIndex], the ref and the timers only. *)
Lemma commit_frame (w : World) :
  gameState (commit w) = gameState w /\
  config (commit w) = config w /\
  numbers (commit w) = numbers w /\
  numbersId (commit w) = numbersId w /\
  userAnswer (commit w) = userAnswer w /\
  score (commit w) = score w /\
  correctAnswer (commit w) = correctAnswer w /\
  streak (commit w) = streak w /\
  praise (commit w) = praise w /\
  clock (commit w) = clock w /\
  randomCalls (commit w) = randomCalls w.
Proof.
  unfold commit.
  destruct (deps_eqb (effect_deps w) (effectDeps w)); [repeat split|].
  unfold flashing_effect, effect_cleanup, clear_flash_timer.
  destruct (effectCleanup w), (flashTimerRef w), (gameState w) eqn:G;
    simpl; rewrite ?G; simpl; rewrite ?G; repeat split; reflexivity.
Qed.

(** Outside FLASHING the effect and its cleanup leave the session as it is,
    up to the cancellation of the timer the ref names. *)
Lemma commit_not_flashing (w : World) :
  gameState w <> FLASHING ->
  currentIndex (commit w) = currentIndex w /\
  flashTimerRef (commit w) = flashTimerRef w.
Proof.
  intro G. unfold commit.
  destruct (deps_eqb (effect_deps w) (effectDeps w)); [split; reflexivity|].
  unfold flashing_effect, effect_cleanup, clear_flash_timer.
  destruct (effectCleanup w), (flashTimerRef w) eqn:R, (gameState w) eqn:G';
    simpl; rewrite ?G'; simpl; try (split; congruence); congruence.
Qed.

(** ** Doubles *)

Lemma round53_of_nonneg (p : Z) : 0 <= p -> round53 p = round53_nonneg p.
Proof.
  intro Hp. unfold round53.
  destruct (Z.eq_dec p 0) as [->|N].
  - reflexivity.
  - rewrite Z.sgn_pos, Z.abs_eq by lia. lia.
Qed.

(** Rounding to 53 bits moves a number by at most its 2^53-th part. *)
Lemma round53_nonneg_error (p : Z) :
  0 <= p ->
  exists h,
    0 <= h /\ h * 2 ^ 53 <= p /\ p - h <= round53_nonneg p <= p + h.
Proof.
  intro Hp. unfold round53_nonneg.
  destruct (p <? 2 ^ 53) eqn:E.
  - exists 0. lia.
  - apply Z.ltb_ge in E.
    assert (L : 53 <= Z.log2 p) by (apply Z.log2_le_pow2; lia).
    pose proof (Z.log2_spec p ltac:(lia)) as [Lo _].
    remember (Z.log2 p - 52) as s eqn:Es.
    remember (2 ^ (s - 1)) as half eqn:Eh.
    assert (T : 2 ^ s = 2 * half).
    { subst half. rewrite <- Z.pow_succ_r by lia. f_equal. lia. }
    assert (Hh : 0 < half) by (subst half; apply Z.pow_pos_nonneg; lia).
    assert (HK : half * 2 ^ 53 = 2 ^ Z.log2 p).
    { subst half. rewrite <- Z.pow_add_r by lia. f_equal. lia. }
    rewrite T.
    pose proof (Z.div_mod p (2 * half) ltac:(lia)) as D.
    pose proof (Z.mod_pos_bound p (2 * half) ltac:(lia)) as B.
    exists half. split; [lia|]. split; [lia|].
    destruct (p mod (2 * half) <? half) eqn:C1;
      [apply Z.ltb_lt in C1; lia | apply Z.ltb_ge in C1].
    destruct (half <? p mod (2 * half)) eqn:C2;
      [apply Z.ltb_lt in C2; lia | apply Z.ltb_ge in C2].
    destruct (Z.even (p / (2 * half))); lia.
Qed.

(** A double below 1 is at most [1 - 2^(-53)]. *)
Lemma unit_double_below_one (r : Double) :
  is_unit_double r ->
  exists e,
    1 <= e /\ 2 ^ scale r = e * 2 ^ 53 /\ mantissa r <= e * (2 ^ 53 - 1).
Proof.
  intros [[M0 M1] [S0 S1]].
  exists (2 ^ (scale r - 53)).
  assert (He : 1 <= 2 ^ (scale r - 53))
    by (pose proof (Z.pow_pos_nonneg 2 (scale r - 53) ltac:(lia) ltac:(lia));
        lia).
  split; [exact He|]. split.
  - rewrite <- Z.pow_add_r by lia. f_equal. lia.
  - remember (2 ^ (scale r - 53)) as e. remember (2 ^ 53) as K. nia.
Qed.

(** The rounded product of a double below 1 and a positive integer [n]
    stays below [n]: its floor is one of 0, ..., [n - 1]. *)
Lemma floor_of_product_range (r : Double) (n : Z) :
  is_unit_double r -> 1 <= n ->
  0 <= floor_of_product r n < n.
Proof.
  intros V Hn.
  destruct (unit_double_below_one r V) as (e & He & Es & Hm).
  destruct V as [[M0 M1] _].
  unfold floor_of_product, Math_floor, times. cbn [mantissa scale].
  assert (Hp : 0 <= mantissa r * n) by nia.
  rewrite round53_of_nonneg by exact Hp.
  destruct (round53_nonneg_error (mantissa r * n) Hp) as (h & H0 & HK & Lo & Hi).
  rewrite Es.
  assert (K1 : 1 < 2 ^ 53) by (apply Z.pow_gt_1; lia).
  remember (2 ^ 53) as K eqn:EK.
  remember (round53_nonneg (mantissa r * n)) as R.
  assert (Hden : 0 < e * K) by nia.
  split.
  - apply Z.div_pos; [nia | exact Hden].
  - apply Z.div_lt_upper_bound; [exact Hden|].
    assert (Hh : h < e * n) by nia.
    nia.
Qed.

(** Where the exact product has fewer than 53 bits there is no rounding:
    the floor is that of the exact product. *)
Lemma floor_of_product_exact (r : Double) (n : Z) :
  0 <= mantissa r * n < 2 ^ 53 ->
  floor_of_product r n = mantissa r * n / 2 ^ scale r.
Proof.
  intros [H0 H1]. unfold floor_of_product, Math_floor, times.
  cbn [mantissa scale].
  rewrite round53_of_nonneg by exact H0.
  unfold round53_nonneg.
  replace (mantissa r * n <? 2 ^ 53) with true
    by (symmetry; apply Z.ltb_lt; exact H1).
  reflexivity.
Qed.

(** The products the page computes are rounded: [0.6 * 5] is the double 3,
    [0.4444444444444444 * 9] is 4 and [0.8333333333333333 * 6] is 5, where
    the exact products lie just below and have the floors 2, 3 and 4. *)
Lemma rounded_products :
  (floor_of_product double_0_6 5 = 3 /\
   mantissa double_0_6 * 5 / 2 ^ scale double_0_6 = 2) /\
  (floor_of_product double_0_44 9 = 4 /\
   mantissa double_0_44 * 9 / 2 ^ scale double_0_44 = 3) /\
  (floor_of_product double_0_83 6 = 5 /\
   mantissa double_0_83 * 6 / 2 ^ scale double_0_83 = 4) /\
  is_unit_double double_0_6 /\
  is_unit_double double_0_44 /\
  is_unit_double double_0_83.
Proof.
  repeat match goal with |- _ /\ _ => split end;
    try (vm_compute; reflexivity);
    vm_compute; repeat split; discriminate.
Qed.

Lemma floor_of_product_exact_value (r : Double) (n : Z) :
  0 <= scale r ->
  0 <= mantissa r * n < 2 ^ 53 ->
  floor_of_product r n = Qfloor (value_of r * inject_Z n).
Proof.
  intros Hs H. rewrite floor_of_product_exact by exact H.
  unfold value_of.
  pose proof (Z.pow_pos_nonneg 2 (scale r) ltac:(lia) Hs) as P.
  destruct (2 ^ scale r) as [|d|d] eqn:E; try lia.
  unfold Qdiv, Qmult, Qinv, inject_Z, Qfloor. simpl.
  rewrite Z.mul_1_r, Pos.mul_1_r. reflexivity.
Qed.

(** The sample doubles are the doubles nearest to the decimals they are
    written as: they differ from them by at most half a unit in the last
    place, 2^(-54) from one half on and 2^(-55) below. *)
Lemma sample_double_values :
  ((6 # 10) - (1 # 2 ^ 54) <= value_of double_0_6
   <= (6 # 10) + (1 # 2 ^ 54))%Q /\
  ((4444444444444444 # 10 ^ 16) - (1 # 2 ^ 55) <= value_of double_0_44
   <= (4444444444444444 # 10 ^ 16) + (1 # 2 ^ 55))%Q /\
  ((8333333333333333 # 10 ^ 16) - (1 # 2 ^ 54) <= value_of double_0_83
   <= (8333333333333333 # 10 ^ 16) + (1 # 2 ^ 54))%Q /\
  (value_of (rng_half 0%nat) == 1 # 2)%Q.
Proof.
  repeat match goal with |- _ /\ _ => split end;
    vm_compute; congruence.
Qed.

(** *** Quotients and percentages *)

Lemma quotient_scale_spec (a b : Z) :
  1 <= a < 2 ^ 53 -> 1 <= b ->
  let k := quotient_scale a b in
  0 <= k /\ b * 2 ^ 52 <= a * 2 ^ k < b * 2 ^ 53.
Proof.
  intros [Ha Ha'] Hb k. subst k. unfold quotient_scale.
  pose proof (Z.log2_spec a ltac:(lia)) as [La Ua].
  pose proof (Z.log2_spec b ltac:(lia)) as [Lb Ub].
  pose proof (Z.log2_nonneg a) as Na. pose proof (Z.log2_nonneg b) as Nb.
  assert (La52 : Z.log2 a <= 52).
  { assert (Z.log2 a < 53) by (apply Z.log2_lt_pow2; lia). lia. }
  remember (52 + Z.log2 b - Z.log2 a) as k0 eqn:Ek.
  assert (K0 : 0 <= k0) by lia.
  assert (P1 : 2 ^ (Z.log2 a) * 2 ^ k0 = 2 ^ 52 * 2 ^ (Z.log2 b)).
  { rewrite <- !Z.pow_add_r by lia. f_equal. lia. }
  rewrite !Z.pow_succ_r in * by lia.
  assert (Pk : 0 < 2 ^ k0) by (apply Z.pow_pos_nonneg; lia).
  assert (P52 : 0 < 2 ^ 52) by (apply Z.pow_pos_nonneg; lia).
  remember (2 ^ k0) as K. remember (2 ^ 52) as T52.
  remember (2 ^ Z.log2 a) as A. remember (2 ^ Z.log2 b) as B.
  assert (T53 : 2 ^ 53 = 2 * T52) by (subst T52; reflexivity).
  destruct (a * K <? b * T52) eqn:C.
  - apply Z.ltb_lt in C. split; [lia|].
    replace (2 ^ (k0 + 1)) with (2 * K)
      by (subst K; rewrite Z.pow_add_r by lia; lia).
    rewrite T53. split; [|nia].
    (* 2 a K >= 2 A K = 2 T52 B > T52 b *)
    nia.
  - apply Z.ltb_ge in C. split; [lia|]. rewrite T53. split; [lia|].
    (* a K < 2 A K = 2 T52 B <= 2 T52 b *)
    nia.
Qed.

Lemma round_half_even_between (n d lo hi : Z) :
  0 < d -> lo * d <= n <= hi * d ->
  lo <= round_half_even n d <= hi.
Proof.
  intros Hd [Hlo Hhi]. unfold round_half_even.
  pose proof (Z.div_mod n d ltac:(lia)) as D.
  pose proof (Z.mod_pos_bound n d Hd) as B.
  remember (n / d) as q. remember (n mod d) as r.
  assert (Q1 : lo <= q) by nia.
  assert (Q2 : q <= hi) by nia.
  assert (Q3 : 0 < r -> q + 1 <= hi) by (intro; nia).
  destruct (2 * r <? d) eqn:C1; [lia | apply Z.ltb_ge in C1].
  destruct (d <? 2 * r) eqn:C2; [apply Z.ltb_lt in C2; lia | ].
  destruct (Z.even q); lia.
Qed.

Lemma round53_nonneg_le (p j t : Z) :
  0 <= p -> 0 <= j < 2 ^ 53 -> 0 <= t ->
  p <= j * 2 ^ t ->
  round53_nonneg p <= j * 2 ^ t.
Proof.
  intros Hp [Hj Hj'] Ht Hd. unfold round53_nonneg.
  destruct (p <? 2 ^ 53) eqn:E; [exact Hd|].
  apply Z.ltb_ge in E.
  assert (L : 53 <= Z.log2 p) by (apply Z.log2_le_pow2; lia).
  pose proof (Z.log2_spec p ltac:(lia)) as [Lo _].
  remember (Z.log2 p - 52) as s eqn:Es.
  assert (Pt : 0 < 2 ^ t) by (apply Z.pow_pos_nonneg; lia).
  assert (St : s <= t).
  { assert (H : 2 ^ (s - 1) < 2 ^ t).
    { assert (HK : 2 ^ (s - 1) * 2 ^ 53 = 2 ^ Z.log2 p)
        by (rewrite <- Z.pow_add_r by lia; f_equal; lia).
      assert (K1 : 0 < 2 ^ 53) by (apply Z.pow_pos_nonneg; lia).
      remember (2 ^ 53) as K. remember (2 ^ (s - 1)) as h.
      remember (2 ^ t) as Tt. nia. }
    apply Z.pow_lt_mono_r_iff in H; lia. }
  assert (Et : 2 ^ t = 2 ^ (t - s) * 2 ^ s)
    by (rewrite <- Z.pow_add_r by lia; f_equal; lia).
  assert (Pe : 0 < 2 ^ (t - s)) by (apply Z.pow_pos_nonneg; lia).
  assert (Ps : 0 < 2 ^ s) by (apply Z.pow_pos_nonneg; lia).
  assert (Ph : 0 < 2 ^ (s - 1)) by (apply Z.pow_pos_nonneg; lia).
  rewrite Et in *.
  pose proof (Z.div_mod p (2 ^ s) ltac:(lia)) as D.
  pose proof (Z.mod_pos_bound p (2 ^ s) Ps) as B.
  remember (2 ^ s) as T. remember (2 ^ (t - s)) as e.
  remember (p / T) as q. remember (p mod T) as r.
  remember (2 ^ (s - 1)) as half.
  assert (Q : q * T <= j * (e * T)) by nia.
  assert (Q' : 0 < r -> (q + 1) * T <= j * (e * T)).
  { intro Hr. assert (q < j * e) by nia. nia. }
  destruct (r <? half) eqn:C1; [exact Q | apply Z.ltb_ge in C1].
  destruct (half <? r) eqn:C2; [apply Q'; lia|].
  destruct (Z.even q); [exact Q | apply Q'; lia].
Qed.

Lemma value_of_compare (p : Double) (c : Z) :
  0 <= scale p ->
  ((value_of p <= inject_Z c)%Q <-> mantissa p <= c * 2 ^ scale p) /\
  ((inject_Z c <= value_of p)%Q <-> c * 2 ^ scale p <= mantissa p) /\
  ((inject_Z c < value_of p)%Q <-> c * 2 ^ scale p < mantissa p) /\
  ((value_of p < inject_Z c)%Q <-> mantissa p < c * 2 ^ scale p) /\
  ((value_of p == inject_Z c)%Q <-> mantissa p = c * 2 ^ scale p).
Proof.
  intro Hs. unfold value_of.
  pose proof (Z.pow_pos_nonneg 2 (scale p) ltac:(lia) Hs) as P.
  destruct (2 ^ scale p) as [|d|d] eqn:E; try lia.
  unfold Qdiv, Qmult, Qinv, Qle, Qlt, Qeq, inject_Z. simpl.
  rewrite ?Z.mul_1_r, ?Pos.mul_1_l.
  repeat split; intro H; lia.
Qed.

(** The percentage of [a] in [b], as the page computes it: more than 0, at
    most 100, and 100 exactly for [a = b]. *)
Lemma percent_bounds (a b : Z) :
  1 <= a <= b -> b < 2 ^ 53 ->
  let p := times (divide a b) 100 in
  0 <= scale p /\
  0 < mantissa p <= 100 * 2 ^ scale p /\
  (a = b -> mantissa p = 100 * 2 ^ scale p) /\
  (a < b -> mantissa p < 100 * 2 ^ scale p).
Proof.
  intros [Ha Hab] Hb p. subst p. unfold times, divide. cbn [mantissa scale].
  destruct (quotient_scale_spec a b ltac:(lia) ltac:(lia)) as (Hk & Lo & Hi).
  remember (quotient_scale a b) as k eqn:Ek.
  assert (Pk : 0 < 2 ^ k) by (apply Z.pow_pos_nonneg; lia).
  assert (P52 : 0 < 2 ^ 52) by (apply Z.pow_pos_nonneg; lia).
  assert (E53 : 2 ^ 53 = 2 * 2 ^ 52) by reflexivity.
  assert (M1 : 2 ^ 52 <= round_half_even (a * 2 ^ k) b <= 2 ^ k)
    by (apply round_half_even_between; nia).
  assert (M2 : round_half_even (a * 2 ^ k) b <= 2 ^ 53)
    by (apply (round_half_even_between _ _ 0); nia).
  remember (round_half_even (a * 2 ^ k) b) as m eqn:Em.
  assert (Hp : 0 <= m * 100) by lia.
  rewrite round53_of_nonneg by exact Hp.
  destruct (round53_nonneg_error (m * 100) Hp) as (h & H0 & HK & Rlo & Rhi).
  pose proof (round53_nonneg_le (m * 100) 100 k Hp ltac:(split; [lia|reflexivity])
                Hk ltac:(nia)) as Rle.
  split; [exact Hk|]. split; [split; [nia | exact Rle]|]. split.
  - intro E. subst b.
    assert (K52 : k = 52).
    { assert (H1 : 2 ^ 52 <= 2 ^ k) by nia.
      assert (H2 : 2 ^ k < 2 ^ 53) by nia.
      apply Z.pow_le_mono_r_iff in H1; [|lia|lia].
      apply Z.pow_lt_mono_r_iff in H2; lia. }
    assert (Em' : m = 2 ^ 52).
    { rewrite K52 in *. lia. }
    rewrite Em', K52. vm_compute. reflexivity.
  - intro Lt.
    assert (K53 : 53 <= k).
    { assert (H1 : 2 ^ 52 < 2 ^ k) by nia.
      apply Z.pow_lt_mono_r_iff in H1; lia. }
    assert (M3 : m <= 2 ^ k - 1).
    { rewrite Em.
      apply (round_half_even_between _ _ 0); [lia|].
      assert (2 ^ 53 <= 2 ^ k) by (apply Z.pow_le_mono_r; lia).
      nia. }
    destruct (Z.eq_dec k 53) as [K|K].
    + rewrite K in *. nia.
    + assert (H54 : 2 ^ 54 <= 2 ^ k) by (apply Z.pow_le_mono_r; lia).
      assert (E54 : 2 ^ 54 = 4 * 2 ^ 52) by reflexivity.
      nia.
Qed.

(** ** Answer evaluation *)

Section Answering.

Variable rng : nat -> Double.

Lemma parseInt_equals_nonempty (s : string) (n : Z) :
  parseInt_equals s n = true -> is_empty s = false.
Proof. destruct s; [discriminate | reflexivity]. Qed.

Lemma step_ok_checks (w : World) :
  gameState w = ANSWERING -> is_empty (userAnswer w) = false ->
  step rng w ClickOk = commit (checkAnswer rng w).
Proof. intros G E. unfold step, handle. rewrite G, E. reflexivity. Qed.

Lemma praise_drawn_from_set (r : Double) :
  is_unit_double r ->
  exists m,
    index_at PRAISE_MESSAGES
      (floor_of_product r (Z.of_nat (List.length PRAISE_MESSAGES))) = Some m
    /\ In m PRAISE_MESSAGES.
Proof.
  intros V.
  destruct (floor_of_product_range r (Z.of_nat (List.length PRAISE_MESSAGES)) V)
    as [Hlo Hhi]; [simpl; lia|].
  set (i := floor_of_product _ _) in *.
  unfold index_at.
  destruct (i <? 0) eqn:E; [apply Z.ltb_lt in E; lia|].
  destruct (nth_error PRAISE_MESSAGES (Z.to_nat i)) as [m|] eqn:N.
  - exists m; split; [reflexivity | eapply nth_error_In; eassumption].
  - apply nth_error_None in N. lia.
Qed.

Lemma submit_correct_ledger (w : World) :
  gameState w = ANSWERING ->
  parseInt_equals (userAnswer w) (correctAnswer w) = true ->
  let w' := step rng w ClickOk in
  gameState w' = RESULT /\
  score w' = score w + count (config w) * 10 + streak w * 5 /\
  streak w' = streak w + 1 /\
  praise w' =
  index_at PRAISE_MESSAGES
    (floor_of_product (rng (randomCalls w))
       (Z.of_nat (List.length PRAISE_MESSAGES))).
Proof.
  intros G C w'. subst w'.
  rewrite step_ok_checks by eauto using parseInt_equals_nonempty.
  destruct (commit_frame (checkAnswer rng w))
    as (Hg & _ & _ & _ & _ & Hs & _ & Hk & Hp & _).
  rewrite Hg, Hs, Hk, Hp. unfold checkAnswer. rewrite C.
  repeat split; reflexivity.
Qed.

End Answering.

(** ** Round generation *)


Lemma fold_left_add_shift (xs : list Z) (a : Z) :
  fold_left Z.add xs a = a + sum_of xs.
Proof.
  revert a; induction xs as [|x xs IH]; intro a; simpl.
  - lia.
  - rewrite IH. lia.
Qed.

Lemma reduce_add_sum (xs : list Z) : reduce_add xs = sum_of xs.
Proof. unfold reduce_add. rewrite fold_left_add_shift. lia. Qed.

Lemma sum_of_bounds (m : Z) (xs : list Z) :
  Forall (fun v => 1 <= v <= m) xs ->
  Z.of_nat (List.length xs) <= sum_of xs <= Z.of_nat (List.length xs) * m.
Proof.
  induction 1 as [|x xs Hx _ IH]; simpl List.length; simpl sum_of.
  - lia.
  - rewrite Nat2Z.inj_succ. nia.
Qed.

Section RoundGenerator.

Variable rng : nat -> Double.


Lemma Array_fill_draws (mv : Z) (len : nat) (w : World) :
  Array_fill len
    (fun s => let '(v, s') := random_below rng mv s in (v + 1, s')) w
  = (map (draw rng mv) (seq (randomCalls w) len),
     setRandomCalls (len + randomCalls w) w).
Proof.
  revert w; induction len as [|len IH]; intro w.
  - destruct w; reflexivity.
  - cbn [Array_fill random_below]. rewrite IH. cbn [seq map].
    unfold draw at 2. f_equal.
    unfold setRandomCalls; cbn. rewrite Nat.add_succ_r. reflexivity.
Qed.

(** Below the limit on the length of an array [startGame] returns. *)
Lemma startGame_eq (w : World) :
  count (config w) < 2 ^ 32 ->
  startGame rng w = Returned (started rng w).
Proof.
  intro H. unfold startGame, Array_from.
  replace (2 ^ 32 <=? count (config w)) with false
    by (symmetry; apply Z.leb_gt; exact H).
  rewrite Array_fill_draws. reflexivity.
Qed.

(** From the limit on it throws, before any value is drawn. *)
Lemma startGame_throws (w : World) :
  2 ^ 32 <= count (config w) ->
  startGame rng w = Thrown RangeError.
Proof.
  intro H. unfold startGame, Array_from.
  replace (2 ^ 32 <=? count (config w)) with true
    by (symmetry; apply Z.leb_le; exact H).
  reflexivity.
Qed.

Lemma on_click_startGame_cases (w : World) :
  (count (config w) < 2 ^ 32 /\ on_click (startGame rng) w = started rng w)
  \/ (2 ^ 32 <= count (config w) /\ on_click (startGame rng) w = w).
Proof.
  unfold on_click.
  destruct (Z.lt_ge_cases (count (config w)) (2 ^ 32)) as [H|H].
  - left. rewrite startGame_eq by exact H. auto.
  - right. rewrite startGame_throws by exact H. auto.
Qed.

Lemma newNumbers_length (w : World) :
  List.length (newNumbers rng w) = round_length w.
Proof. unfold newNumbers. rewrite length_map, length_seq. reflexivity. Qed.

Lemma newNumbers_range (w : World) :
  valid_source rng -> 1 <= maxValue (config w) ->
  Forall (fun v => 1 <= v <= maxValue (config w)) (newNumbers rng w).
Proof.
  intros V Hm. unfold newNumbers. apply Forall_map, Forall_forall.
  intros k _. unfold draw.
  pose proof (floor_of_product_range (rng k) (maxValue (config w)) (V k) Hm).
  lia.
Qed.

End RoundGenerator.

(** ** The session invariant *)

Lemma setTimers_same (w : World) : setTimers (timers w) w = w.
Proof. destruct w; reflexivity. Qed.

Lemma clear_flash_timer_idle (w : World) :
  timers w = [] -> clear_flash_timer w = w.
Proof.
  intro T. unfold clear_flash_timer, clearInterval.
  destruct (flashTimerRef w); [|reflexivity].
  rewrite T. simpl. rewrite <- T. apply setTimers_same.
Qed.

(** After an event that leaves the page outside FLASHING with no timer
    pending, React at most records the new dependency values. *)
Lemma commit_idle (h : World) :
  gameState h <> FLASHING -> timers h = [] ->
  commit h = h \/ commit h = setEffect (effect_deps h) false h.
Proof.
  intros G T. unfold commit.
  destruct (deps_eqb (effect_deps h) (effectDeps h)); [left; reflexivity|].
  right. unfold effect_cleanup.
  replace (if effectCleanup h then clear_flash_timer h else h) with h
    by (destruct (effectCleanup h); rewrite ?clear_flash_timer_idle; auto).
  unfold flashing_effect. destruct (gameState h); congruence.
Qed.

Lemma invariant_commit_idle (h : World) :
  gameState h <> FLASHING ->
  timers h = [] ->
  In (config h) DIFFICULTY_LEVELS ->
  all_digits (userAnswer h) = true ->
  (String.length (userAnswer h) <= 3)%nat ->
  (gameState h <> START -> numbers h <> []) ->
  (gameState h = RESULT -> is_empty (userAnswer h) = false) ->
  (committed h -> effectCleanup h = false) ->
  session_invariant (commit h).
Proof.
  intros G T C D L R A K.
  pose proof (commit_committed h) as Hc.
  destruct (commit_idle h G T) as [E|E].
  - rewrite E in *. constructor; auto.
    + rewrite (K Hc). destruct (gameState h); simpl; congruence.
    + unfold flash_timers. destruct (gameState h); congruence.
  - rewrite E in *. constructor; simpl; auto.
    + destruct (gameState h); simpl; congruence.
    + unfold flash_timers; simpl. destruct (gameState h); congruence.
Qed.

Lemma all_digits_append (s t : string) :
  all_digits (String.append s t) = all_digits s && all_digits t.
Proof.
  induction s as [|c s IH]; simpl; [reflexivity|].
  rewrite IH, andb_assoc. reflexivity.
Qed.

Lemma length_append (s t : string) :
  String.length (String.append s t) = (String.length s + String.length t)%nat.
Proof. induction s as [|c s IH]; simpl; congruence. Qed.

Lemma num_button_cases (val : string) :
  existsb (String.eqb val) NUM_BUTTONS = true ->
  val = "C" \/ (all_digits val = true /\ String.length val = 1%nat /\
                String.eqb val "C" = false).
Proof.
  intro H. apply existsb_exists in H. destruct H as (b & Hin & Heq).
  apply String.eqb_eq in Heq. subst b. simpl in Hin.
  repeat (destruct Hin as [<-|Hin]; [auto|]); contradiction.
Qed.

Lemma invariant_after_idle (w h : World) :
  session_invariant w ->
  effectDeps h = effectDeps w ->
  effectCleanup h = effectCleanup w ->
  gameState h <> FLASHING ->
  timers h = [] ->
  In (config h) DIFFICULTY_LEVELS ->
  all_digits (userAnswer h) = true ->
  (String.length (userAnswer h) <= 3)%nat ->
  (gameState h <> START -> numbers h <> []) ->
  (gameState h = RESULT -> is_empty (userAnswer h) = false) ->
  session_invariant (commit h).
Proof.
  intros I Ed Ec G T C D L R A.
  apply invariant_commit_idle; auto.
  intro Hc. rewrite Ec, (inv_cleanup w I).
  assert (gameState w = gameState h) as ->.
  { pose proof (inv_committed w I) as Hw. unfold committed in *.
    rewrite Ed, Hw in Hc. unfold effect_deps in Hc. congruence. }
  destruct (gameState h); simpl; congruence.
Qed.

Lemma invariant_initial : session_invariant initial.
Proof.
  constructor; simpl; auto; try reflexivity; try lia; congruence.
Qed.

Lemma catalog_count_positive (c : GameConfig) :
  In c DIFFICULTY_LEVELS -> 2 <= count c <= 10 /\ 5 <= maxValue c <= 15
                            /\ 400 <= interval c.
Proof.
  simpl. intros [<-|[<-|[<-|[<-|[<-|[]]]]]]; simpl; lia.
Qed.

(** The presets of the catalog are far below the limit on the length of an
    array: with one of them [startGame] returns. *)
Lemma on_click_startGame (rng : nat -> Double) (w : World) :
  In (config w) DIFFICULTY_LEVELS ->
  startGame rng w = Returned (started rng w) /\
  on_click (startGame rng) w = started rng w.
Proof.
  intro C. apply catalog_count_positive in C.
  assert (E : startGame rng w = Returned (started rng w)).
  { apply startGame_eq. destruct C as ((_ & C) & _).
    apply Z.le_lt_trans with (m := 10); [exact C | reflexivity]. }
  split; [exact E|]. unfold on_click. rewrite E. reflexivity.
Qed.

(** ** Delayed tones *)

Lemma fire_tone_cases (w : World) :
  fire_tone w = w
  \/ exists ts c, fire_tone w = setToneTimers ts (setClock c w).
Proof.
  unfold fire_tone. destruct (next_tone (toneTimers w)); eauto.
Qed.

Lemma handle_tone_fires (rng : nat -> Double) (w : World) :
  handle rng w ToneFires = fire_tone w.
Proof. unfold handle. destruct (gameState w); reflexivity. Qed.

(** A delayed tone touches the tones and the clock only. *)
Lemma fire_tone_frame (w : World) :
  gameState (fire_tone w) = gameState w /\
  config (fire_tone w) = config w /\
  numbers (fire_tone w) = numbers w /\
  numbersId (fire_tone w) = numbersId w /\
  currentIndex (fire_tone w) = currentIndex w /\
  userAnswer (fire_tone w) = userAnswer w /\
  score (fire_tone w) = score w /\
  correctAnswer (fire_tone w) = correctAnswer w /\
  streak (fire_tone w) = streak w /\
  praise (fire_tone w) = praise w /\
  flashTimerRef (fire_tone w) = flashTimerRef w /\
  effectDeps (fire_tone w) = effectDeps w /\
  effectCleanup (fire_tone w) = effectCleanup w /\
  timers (fire_tone w) = timers w /\
  nextTimerId (fire_tone w) = nextTimerId w /\
  randomCalls (fire_tone w) = randomCalls w.
Proof.
  destruct (fire_tone_cases w) as [E|(ts & c & E)]; rewrite E;
    repeat split; reflexivity.
Qed.

(** ** What the two callbacks do *)

(** The interval callback before the last value: the next index is shown and
    the timer stays armed, one period later. *)
Lemma fire_flash_next (w : World) (id : positive) (d p idx ivl : Z)
    (nums : list Z) :
  timers w = [mkTimer id d (Some p) (FlashTick idx nums ivl)] ->
  (idx + 1 <? Z.of_nat (List.length nums)) = true ->
  fire (mkTimer id d (Some p) (FlashTick idx nums ivl)) w =
  setTimers [mkTimer id (d + p) (Some p) (FlashTick (idx + 1) nums ivl)]
    (setCurrentIndex (idx + 1) (setClock d w)).
Proof.
  intros T E. unfold fire, run_callback. simpl. rewrite E. simpl. rewrite T.
  unfold has_timer, remove_timer. simpl. rewrite Pos.eqb_refl. reflexivity.
Qed.

(** The interval callback once every value has been shown: the repeating
    timer is cleared through the ref and the one-shot delay is scheduled. *)
Lemma fire_flash_last (w : World) (id : positive) (d p idx ivl : Z)
    (nums : list Z) :
  timers w = [mkTimer id d (Some p) (FlashTick idx nums ivl)] ->
  flashTimerRef w = Some id ->
  (id < nextTimerId w)%positive ->
  (idx + 1 <? Z.of_nat (List.length nums)) = false ->
  fire (mkTimer id d (Some p) (FlashTick idx nums ivl)) w =
  setNextTimerId (Pos.succ (nextTimerId w))
    (setTimers [mkTimer (nextTimerId w) (d + delay_of ivl) None ToAnswering]
       (setClock d w)).
Proof.
  intros T R F E. unfold fire, run_callback. simpl. rewrite E.
  unfold clear_flash_timer, clearInterval, setTimeout. simpl. rewrite R.
  simpl. rewrite T. unfold has_timer, remove_timer. simpl.
  rewrite Pos.eqb_refl. simpl.
  replace (nextTimerId w =? id)%positive with false
    by (symmetry; apply Pos.eqb_neq; lia).
  reflexivity.
Qed.

(** The one-shot callback: ANSWERING, nothing displayed. *)
Lemma fire_to_answering (w : World) (id : positive) (d : Z) :
  timers w = [mkTimer id d None ToAnswering] ->
  fire (mkTimer id d None ToAnswering) w =
  setCurrentIndex (-1)
    (setGameState ANSWERING (setTimers [] (setClock d w))).
Proof.
  intros T. unfold fire, run_callback. simpl. rewrite T.
  unfold remove_timer. simpl. rewrite Pos.eqb_refl. reflexivity.
Qed.

Lemma handle_timer_fires (rng : nat -> Double) (w : World) :
  handle rng w TimerFires =
  match next_timer (timers w) with
  | Some t => fire t w
  | None => w
  end.
Proof. unfold handle. destruct (gameState w); reflexivity. Qed.

Section Invariant.

Variable rng : nat -> Double.

Lemma newNumbers_nonempty (w : World) :
  In (config w) DIFFICULTY_LEVELS -> newNumbers rng w <> [].
Proof.
  intros C E. apply (f_equal (@List.length Z)) in E.
  rewrite newNumbers_length in E. unfold round_length in E.
  apply catalog_count_positive in C. simpl in E. lia.
Qed.

Lemma invariant_startGame (w : World) :
  session_invariant w -> timers w = [] ->
  session_invariant (commit (on_click (startGame rng) w)).
Proof.
  intros I T.
  rewrite (proj2 (on_click_startGame rng w (inv_config w I))). unfold started.
  apply (invariant_after_idle w);
    [ exact I | reflexivity | reflexivity | discriminate | exact T
    | exact (inv_config w I) | reflexivity | simpl; lia | | discriminate ].
  intros _. apply newNumbers_nonempty, I.
Qed.


Lemma remove_timer_single (t : Timer) : remove_timer (tid t) [t] = [].
Proof. unfold remove_timer; simpl. rewrite Pos.eqb_refl. reflexivity. Qed.

Lemma has_timer_single (t : Timer) : has_timer (tid t) [t] = true.
Proof. unfold has_timer; simpl. rewrite Pos.eqb_refl. reflexivity. Qed.

Lemma invariant_go (w : World) :
  session_invariant w -> gameState w = READY ->
  session_invariant (commit (setGameState FLASHING w)).
Proof.
  intros I G.
  pose proof (inv_timers w I) as T. unfold flash_timers in T. rewrite G in T.
  pose proof (inv_cleanup w I) as K. rewrite G in K. simpl in K.
  pose proof (inv_committed w I) as Hc. unfold committed in Hc.
  unfold commit.
  replace (deps_eqb (effect_deps (setGameState FLASHING w))
             (effectDeps (setGameState FLASHING w))) with false.
  2:{ simpl. rewrite Hc. unfold effect_deps. rewrite G. reflexivity. }
  unfold effect_cleanup. simpl. rewrite K.
  unfold flashing_effect. simpl. rewrite T.
  constructor; simpl.
  - apply I.
  - reflexivity.
  - reflexivity.
  - apply I.
  - apply I.
  - intros _. apply I. congruence.
  - discriminate.
  - unfold flash_timers; simpl. left.
    exists (nextTimerId w), (clock w + delay_of (interval (config w))),
      (delay_of (interval (config w))), 0, (numbers w), (interval (config w)).
    repeat split. lia.
Qed.

Lemma invariant_fire (w : World) :
  session_invariant w -> gameState w = FLASHING ->
  session_invariant (commit (handle rng w TimerFires)).
Proof.
  intros I G.
  pose proof (inv_timers w I) as T. unfold flash_timers in T. rewrite G in T.
  pose proof (inv_cleanup w I) as K. rewrite G in K. simpl in K.
  pose proof (inv_committed w I) as Hc.
  rewrite handle_timer_fires.
  destruct T as [(id & d & p & idx & nums & ivl & T & R & F) | (id & d & T & F)].
  - rewrite T. cbn [next_timer].
    destruct (idx + 1 <? Z.of_nat (List.length nums)) eqn:E.
    + rewrite (fire_flash_next w id d p idx ivl nums T E).
      rewrite commit_id by exact Hc.
      constructor; simpl; try apply I; try exact Hc;
        try (rewrite K, G; reflexivity); try congruence.
      unfold flash_timers; simpl. rewrite G. left.
      exists id, (d + p), p, (idx + 1), nums, ivl. repeat split; assumption.
    + rewrite (fire_flash_last w id d p idx ivl nums T R F E).
      rewrite commit_id by exact Hc.
      constructor; simpl; try apply I; try exact Hc;
        try (rewrite K, G; reflexivity); try congruence.
      unfold flash_timers; simpl. rewrite G. right.
      exists (nextTimerId w), (d + delay_of ivl). split; [reflexivity | lia].
  - rewrite T. cbn [next_timer]. rewrite (fire_to_answering w id d T).
    apply (invariant_after_idle w);
      [ exact I | reflexivity | reflexivity | discriminate | reflexivity
      | apply I | apply I | apply I | intros _; apply I; congruence
      | discriminate ].
Qed.

Lemma invariant_unchanged (w : World) :
  session_invariant w -> session_invariant (commit w).
Proof. intro I. rewrite commit_id by apply I. exact I. Qed.

Lemma invariant_fire_tone (w : World) :
  session_invariant w -> session_invariant (commit (fire_tone w)).
Proof.
  intro I.
  destruct (fire_tone_cases w) as [E|(ts & c & E)]; rewrite E.
  - apply invariant_unchanged, I.
  - rewrite commit_id by (exact (inv_committed w I)).
    destruct I as [C Hc K D L R A T].
    constructor; try assumption.
Qed.

Lemma invariant_idle_timers (w : World) :
  session_invariant w -> gameState w <> FLASHING -> timers w = [].
Proof.
  intros I G. pose proof (inv_timers w I) as T. unfold flash_timers in T.
  destruct (gameState w); congruence.
Qed.

Lemma invariant_num_click (w : World) (val : string) :
  session_invariant w -> gameState w = ANSWERING ->
  existsb (String.eqb val) NUM_BUTTONS = true ->
  session_invariant (commit (handleNumClick val w)).
Proof.
  intros I G B.
  assert (T : timers w = []) by (apply invariant_idle_timers; congruence).
  unfold handleNumClick.
  destruct (num_button_cases val B) as [->|(D & L & C)].
  - simpl.
    apply (invariant_after_idle w);
      [ exact I | reflexivity | reflexivity | simpl; congruence | exact T
      | apply I | reflexivity | simpl; lia | intros _; apply I; congruence
      | simpl; congruence ].
  - rewrite C.
    destruct (Z.of_nat (String.length (userAnswer w)) <? 3) eqn:E.
    + apply Z.ltb_lt in E.
      apply (invariant_after_idle w);
        [ exact I | reflexivity | reflexivity | simpl; congruence | exact T
        | apply I | | | intros _; apply I; congruence | simpl; congruence ].
      * simpl. rewrite all_digits_append, D, (inv_digits w I). reflexivity.
      * simpl. rewrite length_append, L. lia.
    + apply invariant_unchanged, I.
Qed.

Lemma invariant_checkAnswer (w : World) :
  session_invariant w -> gameState w = ANSWERING ->
  is_empty (userAnswer w) = false ->
  session_invariant (commit (checkAnswer rng w)).
Proof.
  intros I G A.
  assert (T : timers w = []) by (apply invariant_idle_timers; congruence).
  unfold checkAnswer, random_below, sounds_correct, sounds_wrong,
    setToneTimeout.
  destruct (parseInt_equals (userAnswer w) (correctAnswer w));
    (apply (invariant_after_idle w);
      [ exact I | reflexivity | reflexivity | discriminate | exact T
      | apply I | apply I | apply I | intros _; apply I; congruence
      | intros _; exact A ]).
Qed.

Lemma invariant_step (w : World) (tr : Trigger) :
  session_invariant w -> session_invariant (step rng w tr).
Proof.
  intro I. unfold step.
  destruct tr.
  - (* SelectLevel *)
    unfold handle. destruct (gameState w) eqn:G;
      try (apply invariant_unchanged, I).
    destruct (nth_error DIFFICULTY_LEVELS i) as [level|] eqn:N;
      [|apply invariant_unchanged, I].
    apply (invariant_after_idle w);
      [ exact I | reflexivity | reflexivity | simpl; congruence
      | change (timers w = []); apply invariant_idle_timers; [exact I | congruence]
      | eapply nth_error_In; exact N | apply I | apply I
      | simpl; congruence | simpl; congruence ].
  - (* ClickStart *)
    unfold handle. destruct (gameState w) eqn:G;
      try (apply invariant_unchanged, I).
    apply invariant_startGame;
      [exact I | apply invariant_idle_timers; [exact I | congruence]].
  - (* ClickGo *)
    unfold handle. destruct (gameState w) eqn:G;
      try (apply invariant_unchanged, I).
    apply invariant_go; assumption.
  - (* ClickNum *)
    unfold handle. destruct (gameState w) eqn:G;
      try (apply invariant_unchanged, I).
    destruct (existsb (String.eqb val) NUM_BUTTONS) eqn:B;
      [|apply invariant_unchanged, I].
    apply invariant_num_click; assumption.
  - (* ClickOk *)
    unfold handle. destruct (gameState w) eqn:G;
      try (apply invariant_unchanged, I).
    destruct (is_empty (userAnswer w)) eqn:A; [apply invariant_unchanged, I|].
    apply invariant_checkAnswer; assumption.
  - (* ClickRestart *)
    unfold handle. destruct (gameState w) eqn:G;
      try (apply invariant_unchanged, I).
    apply invariant_startGame;
      [exact I | apply invariant_idle_timers; [exact I | congruence]].
  - (* ClickHome *)
    unfold handle. destruct (gameState w) eqn:G;
      try (apply invariant_unchanged, I).
    apply (invariant_after_idle w);
      [ exact I | reflexivity | reflexivity | discriminate
      | change (timers w = []); apply invariant_idle_timers; [exact I | congruence]
      | apply I | apply I | apply I | simpl; congruence | discriminate ].
  - (* TimerFires *)
    destruct (GameState_eqb (gameState w) FLASHING) eqn:G.
    + apply GameState_eqb_eq in G. apply invariant_fire; assumption.
    + rewrite handle_timer_fires, invariant_idle_timers; auto.
      * apply invariant_unchanged, I.
      * intro F. rewrite F in G. discriminate.
  - (* ToneFires *)
    rewrite handle_tone_fires. apply invariant_fire_tone, I.
Qed.

Theorem reachable_invariant (w : World) :
  reachable rng w -> session_invariant w.
Proof.
  induction 1 as [|w tr _ IH].
  - exact invariant_initial.
  - apply invariant_step, IH.
Qed.

End Invariant.

(** ** The flash sequence *)

Lemma delay_of_positive (ms : Z) : 0 < ms -> delay_of ms = ms.
Proof. intro H. unfold delay_of. lia. Qed.

Section FlashSequence.

Variable rng : nat -> Double.

Lemma step_timer_fires (s : World) (t : Timer) :
  timers s = [t] -> step rng s TimerFires = commit (fire t s).
Proof.
  intro T. unfold step. rewrite handle_timer_fires, T. reflexivity.
Qed.

Lemma go_showing (w : World) :
  committed w -> gameState w = READY -> timers w = [] ->
  0 < interval (config w) ->
  showing (nextTimerId w) (clock w) (interval (config w)) (numbers w) 0
    (step rng w ClickGo).
Proof.
  intros Hc G T Hi. unfold step, handle. rewrite G. unfold commit.
  replace (deps_eqb (effect_deps (setGameState FLASHING w))
             (effectDeps (setGameState FLASHING w))) with false.
  2:{ simpl. rewrite Hc. unfold effect_deps. rewrite G. reflexivity. }
  unfold effect_cleanup.
  replace (if effectCleanup (setGameState FLASHING w)
           then clear_flash_timer (setGameState FLASHING w)
           else setGameState FLASHING w)
    with (setGameState FLASHING w)
    by (destruct (effectCleanup (setGameState FLASHING w));
        rewrite ?clear_flash_timer_idle; auto).
  unfold flashing_effect. simpl. rewrite T.
  rewrite (delay_of_positive _ Hi).
  unfold showing, committed, effect_deps. fields.
  repeat split; try reflexivity; try lia.
  f_equal. f_equal. lia.
Qed.

Lemma tick_showing (id : positive) (t0 ivl : Z) (nums : list Z) (k : Z)
    (s : World) :
  showing id t0 ivl nums k s ->
  k + 1 < Z.of_nat (List.length nums) ->
  showing id t0 ivl nums (k + 1) (step rng s TimerFires).
Proof.
  intros (G & Ci & Ck & T & R & F & Hc) Hk.
  rewrite (step_timer_fires s _ T).
  rewrite (fire_flash_next s _ _ _ _ _ _ T) by (apply Z.ltb_lt; exact Hk).
  rewrite commit_id by exact Hc.
  unfold showing; simpl.
  repeat split; try assumption; try reflexivity; try lia.
  f_equal. f_equal. lia.
Qed.

Lemma ticks_showing (id : positive) (t0 ivl : Z) (nums : list Z)
    (s : World) (k : nat) :
  showing id t0 ivl nums 0 s ->
  (k < List.length nums)%nat ->
  showing id t0 ivl nums (Z.of_nat k) (ticks rng k s).
Proof.
  intros H0. induction k as [|k IH]; intro Hk.
  - exact H0.
  - unfold ticks. simpl Nat.iter. fold (ticks rng k s).
    replace (Z.of_nat (S k)) with (Z.of_nat k + 1) by lia.
    apply tick_showing; [apply IH; lia | lia].
Qed.

(** The tick after the last value: the value stays, the repeating timer is
    gone, the one-shot delay is pending. *)
Lemma tick_after_last (id : positive) (t0 ivl : Z) (nums : list Z) (k : Z)
    (s : World) :
  showing id t0 ivl nums k s ->
  0 < ivl ->
  k + 1 = Z.of_nat (List.length nums) ->
  let s' := step rng s TimerFires in
  gameState s' = FLASHING /\
  currentIndex s' = k /\
  clock s' = t0 + (k + 1) * ivl /\
  timers s' = [mkTimer (nextTimerId s) (t0 + (k + 2) * ivl) None ToAnswering] /\
  committed s'.
Proof.
  intros (G & Ci & Ck & T & R & F & Hc) Hi Hk s'. subst s'.
  rewrite (step_timer_fires s _ T).
  rewrite (fire_flash_last s _ _ _ _ _ _ T R F) by (apply Z.ltb_ge; lia).
  rewrite commit_id by exact Hc.
  rewrite (delay_of_positive _ Hi). simpl.
  repeat split; try assumption; try reflexivity.
  f_equal. f_equal. lia.
Qed.

(** The one-shot delay fires: ANSWERING, nothing on the screen, nothing
    pending. *)
Lemma tick_to_answering (id : positive) (d : Z) (s : World) :
  timers s = [mkTimer id d None ToAnswering] ->
  let s' := step rng s TimerFires in
  gameState s' = ANSWERING /\
  currentIndex s' = -1 /\
  clock s' = d /\
  timers s' = [].
Proof.
  intros T s'. subst s'.
  rewrite (step_timer_fires s _ T), (fire_to_answering s id d T).
  set (h := setCurrentIndex (-1) _).
  destruct (commit_idle h) as [E|E]; try (subst h; simpl; congruence);
    rewrite E; subst h; simpl; repeat split; reflexivity.
Qed.

(** Every reachable READY state is one the flash sequence can start from. *)
Lemma reachable_ready_quiescent (w : World) :
  reachable rng w -> gameState w = READY ->
  committed w /\ timers w = [] /\
  (1 <= List.length (numbers w))%nat /\ 0 < interval (config w).
Proof.
  intros R G. pose proof (reachable_invariant rng w R) as I.
  split; [apply I|]. split; [apply invariant_idle_timers; [exact I|congruence]|].
  split.
  - pose proof (inv_round w I ltac:(congruence)) as N.
    destruct (numbers w); [congruence | simpl; lia].
  - pose proof (catalog_count_positive _ (inv_config w I)). lia.
Qed.

End FlashSequence.

(** ** Input handling *)

Section Input.

Variable rng : nat -> Double.

Lemma reachable_run (w : World) (trs : list Trigger) :
  reachable rng w -> reachable rng (run rng w trs).
Proof.
  revert w; induction trs as [|tr trs IH]; intros w R; simpl.
  - exact R.
  - apply IH. constructor. exact R.
Qed.

Lemma step_num_click (w : World) (val : string) :
  committed w -> gameState w = ANSWERING -> In val NUM_BUTTONS ->
  step rng w (ClickNum val) = handleNumClick val w.
Proof.
  intros Hc G B. unfold step, handle. rewrite G.
  replace (existsb (String.eqb val) NUM_BUTTONS) with true.
  2:{ symmetry. apply existsb_exists. exists val. split; [exact B|].
      apply String.eqb_refl. }
  apply commit_id. unfold handleNumClick.
  destruct (String.eqb val "C"); [exact Hc|].
  destruct (Z.of_nat (String.length (userAnswer w)) <? 3); exact Hc.
Qed.

End Input.

(** ** Timers and new rounds *)

Section Cancellation.

Variable rng : nat -> Double.

(** In FLASHING no button is on the screen: clicks reach no handler. *)
Lemma step_ignored_in_flashing (w : World) (tr : Trigger) :
  committed w -> gameState w = FLASHING ->
  tr <> TimerFires -> tr <> ToneFires ->
  step rng w tr = w.
Proof.
  intros Hc G N1 N2. unfold step.
  replace (handle rng w tr) with w; [apply commit_id, Hc|].
  unfold handle. rewrite G. destruct tr; try reflexivity; congruence.
Qed.

Lemma step_tone_fires (w : World) :
  committed w -> step rng w ToneFires = fire_tone w.
Proof.
  intro Hc. unfold step. rewrite handle_tone_fires.
  apply commit_id. unfold committed in *.
  destruct (fire_tone_frame w)
    as (Eg & Ec & _ & En & _ & _ & _ & _ & _ & _ & _ & Ed & _).
  unfold effect_deps. rewrite Ed, Eg, Ec, En. exact Hc.
Qed.


End Cancellation.

(** ** The catalog and the three-character answer *)

Lemma catalog_products :
  Forall (fun c => count c * maxValue c <= 150) DIFFICULTY_LEVELS /\
  Exists (fun c => count c = 10 /\ maxValue c = 15) DIFFICULTY_LEVELS.
Proof.
  split.
  - unfold DIFFICULTY_LEVELS. repeat constructor; simpl; lia.
  - unfold DIFFICULTY_LEVELS. do 4 apply Exists_cons_tl.
    apply Exists_cons_hd. split; reflexivity.
Qed.

Lemma keys_spell_all (n : Z) : 0 <= n <= 999 -> keys_spell n = true.
Proof.
  intro H.
  assert (A : forallb (fun i => keys_spell (Z.of_nat i)) (seq 0 1000) = true)
    by (vm_compute; reflexivity).
  rewrite forallb_forall in A.
  rewrite <- (Z2Nat.id n) by lia. apply A, in_seq. lia.
Qed.

Lemma digit_button_facts (k : string) :
  is_digit_button k = true ->
  In k NUM_BUTTONS /\ String.eqb k "C" = false /\ String.length k = 1%nat.
Proof.
  unfold is_digit_button. rewrite andb_true_iff, negb_true_iff.
  intros [B C].
  destruct (num_button_cases k B) as [->|(_ & L & _)]; [discriminate C|].
  apply existsb_exists in B. destruct B as (b & Hin & Heq).
  apply String.eqb_eq in Heq. subst b. auto.
Qed.

Lemma append_empty_r (s : string) : String.append s "" = s.
Proof. induction s as [|c s IH]; simpl; congruence. Qed.

Lemma append_assoc (s t u : string) :
  String.append (String.append s t) u = String.append s (String.append t u).
Proof. induction s as [|c s IH]; simpl; congruence. Qed.

Lemma setUserAnswer_same (w : World) : setUserAnswer (userAnswer w) w = w.
Proof. destruct w; reflexivity. Qed.

Lemma fire_round_frame (t : Timer) (w : World) :
  numbers (fire t w) = numbers w /\
  correctAnswer (fire t w) = correctAnswer w.
Proof.
  unfold fire, run_callback, clear_flash_timer.
  destruct (period t), (callback t); simpl;
    repeat match goal with
           | |- context [if ?b then _ else _] => destruct b; simpl
           | |- context [match flashTimerRef ?x with _ => _ end] =>
               destruct (flashTimerRef x); simpl
           end;
    split; reflexivity.
Qed.

Section Catalog.

Variable rng : nat -> Double.

Lemma run_digit_keys (keys : list string) (w : World) :
  committed w -> gameState w = ANSWERING ->
  forallb is_digit_button keys = true ->
  (String.length (userAnswer w) + List.length keys <= 3)%nat ->
  run rng w (map ClickNum keys)
  = setUserAnswer (String.append (userAnswer w) (typed_text keys)) w.
Proof.
  revert w; induction keys as [|k keys IH]; intros w Hc G D L.
  - simpl. rewrite append_empty_r, setUserAnswer_same. reflexivity.
  - simpl in D. apply andb_true_iff in D. destruct D as [Dk D].
    destruct (digit_button_facts k Dk) as (B & C & Lk).
    simpl in L. simpl map. simpl run. fold (run rng).
    rewrite (step_num_click rng w k Hc G B). unfold handleNumClick.
    rewrite C.
    replace (Z.of_nat (String.length (userAnswer w)) <? 3) with true
      by (symmetry; apply Z.ltb_lt; lia).
    change (fold_left (step rng) (map ClickNum keys)
              (setUserAnswer (String.append (userAnswer w) k) w))
      with (run rng (setUserAnswer (String.append (userAnswer w) k) w)
              (map ClickNum keys)).
    rewrite IH; try assumption.
    + simpl. rewrite append_assoc. reflexivity.
    + simpl. rewrite length_append, Lk. lia.
Qed.

Lemma handle_round_frame (w : World) (tr : Trigger) :
  (numbers (handle rng w tr) = numbers w /\
   correctAnswer (handle rng w tr) = correctAnswer w)
  \/ handle rng w tr = started rng w.
Proof.
  assert (Hs : (numbers (on_click (startGame rng) w) = numbers w /\
                correctAnswer (on_click (startGame rng) w) = correctAnswer w)
               \/ on_click (startGame rng) w = started rng w).
  { destruct (on_click_startGame_cases rng w) as [[_ E]|[_ E]]; rewrite E;
      [right; reflexivity | left; split; reflexivity]. }
  assert (Ht : numbers (fire_tone w) = numbers w /\
               correctAnswer (fire_tone w) = correctAnswer w).
  { destruct (fire_tone_frame w) as (_ & _ & En & _ & _ & _ & _ & Ec & _).
    split; assumption. }
  destruct tr; unfold handle; destruct (gameState w);
    try (left; split; reflexivity); try exact Hs; try (left; exact Ht).
  - destruct (nth_error DIFFICULTY_LEVELS i); left; split; reflexivity.
  - unfold handleNumClick.
    destruct (existsb (String.eqb val) NUM_BUTTONS), (String.eqb val "C"),
      (Z.of_nat (String.length (userAnswer w)) <? 3);
      left; split; reflexivity.
  - unfold checkAnswer.
    destruct (is_empty (userAnswer w)),
      (parseInt_equals (userAnswer w) (correctAnswer w));
      left; split; reflexivity.
  - left. destruct (next_timer (timers w));
      [apply fire_round_frame | split; reflexivity].
  - left. destruct (next_timer (timers w));
      [apply fire_round_frame | split; reflexivity].
  - left. destruct (next_timer (timers w));
      [apply fire_round_frame | split; reflexivity].
  - left. destruct (next_timer (timers w));
      [apply fire_round_frame | split; reflexivity].
  - left. destruct (next_timer (timers w));
      [apply fire_round_frame | split; reflexivity].
Qed.

Hypothesis valid : valid_source rng.

Lemma startGame_round_within_catalog (w : World) :
  In (config w) DIFFICULTY_LEVELS ->
  round_within_catalog (started rng w).
Proof.
  intro C. pose proof (catalog_count_positive _ C) as (Hc & Hm & _).
  unfold round_within_catalog, started. simpl.
  split; [apply reduce_add_sum|].
  exists (config w). split; [exact C|]. split.
  - rewrite newNumbers_length. unfold round_length. lia.
  - apply newNumbers_range; [exact valid | lia].
Qed.

Lemma reachable_round_within_catalog (w : World) :
  reachable rng w -> round_within_catalog w.
Proof.
  induction 1 as [|w tr R IH].
  - split; [reflexivity|].
    exists initial_config. split; [left; reflexivity|].
    split; [simpl; lia | constructor].
  - unfold step.
    destruct (commit_frame (handle rng w tr))
      as (_ & _ & Hn & _ & _ & _ & Hca & _).
    unfold round_within_catalog. rewrite Hn, Hca.
    destruct (handle_round_frame w tr) as [[En Ec]|E].
    + rewrite En, Ec. exact IH.
    + rewrite E. apply startGame_round_within_catalog.
      apply (inv_config w), reachable_invariant with (rng := rng), R.
Qed.

Lemma round_sum_bounds (w : World) :
  round_within_catalog w -> numbers w <> [] ->
  1 <= correctAnswer w <= 150.
Proof.
  intros (E & c & C & L & F) N.
  pose proof (sum_of_bounds _ _ F) as B.
  pose proof (catalog_count_positive _ C) as (Hc & Hm & _).
  assert (1 <= Z.of_nat (List.length (numbers w)))
    by (destruct (numbers w); [congruence | simpl List.length; lia]).
  rewrite E. nia.
Qed.

End Catalog.




(** ** The invariant of the game *)

Section Play.

Variable rng : nat -> Double.

Lemma play_commit_idle (h : World) :
  gameState h <> FLASHING -> timers h = [] ->
  play_invariant rng h -> play_invariant rng (commit h).
Proof.
  intros G T P. destruct (commit_idle h G T) as [E|E]; rewrite E.
  - exact P.
  - destruct P. constructor; try assumption.
Qed.

Lemma play_initial : play_invariant rng initial.
Proof.
  constructor; simpl; intros; try lia; try reflexivity; try congruence;
    try discriminate.
  unfold before_first_game. simpl. repeat split; reflexivity.
Qed.

Lemma play_setConfig (w : World) (level : GameConfig) :
  gameState w = START -> timers w = [] ->
  play_invariant rng w -> play_invariant rng (setConfig level w).
Proof.
  intros G T P. destruct P.
  constructor; play_solve.
Qed.

Lemma play_startGame (w : World) :
  session_invariant w -> gameState w <> FLASHING ->
  play_invariant rng w -> play_invariant rng (started rng w).
Proof.
  intros I G P. unfold started.
  pose proof (catalog_count_positive _ (inv_config w I)) as (Hc & Hm & _).
  pose proof (invariant_idle_timers w I G) as T.
  destruct P.
  constructor; play_solve.
  - rewrite newNumbers_length. unfold round_length. lia.
  - apply reduce_add_sum.
  - apply newNumbers_range; [assumption | lia].
  - apply newNumbers_nonempty, I.
Qed.

Lemma play_setUserAnswer (w : World) (s : string) :
  gameState w = ANSWERING ->
  play_invariant rng w -> play_invariant rng (setUserAnswer s w).
Proof.
  intros G P. destruct P.
  constructor; play_solve.
Qed.

Lemma play_checkAnswer (w : World) :
  session_invariant w -> gameState w = ANSWERING ->
  play_invariant rng w -> play_invariant rng (checkAnswer rng w).
Proof.
  intros I G P.
  pose proof (catalog_count_positive _ (inv_config w I)) as (Hc & Hm & _).
  assert (T : timers w = []) by (apply invariant_idle_timers; congruence).
  destruct P.
  unfold checkAnswer, random_below, sounds_correct, sounds_wrong,
    setToneTimeout.
  destruct (parseInt_equals (userAnswer w) (correctAnswer w)) eqn:E.
  - constructor; unfold shows_trophy; fields; intros;
      try lia; try congruence; eauto;
      try match goal with H : _ \/ _ |- _ => destruct H; congruence end;
    try fresh_case.
    + apply pi_index_idle0. congruence.
    + apply pi_round0. congruence.
    + left. split; [exact E | lia].
    + apply pi_range0; [assumption | congruence].
    + apply praise_drawn_from_set.
      match goal with V : valid_source _ |- _ => apply V end.
  - constructor; unfold shows_trophy; fields; intros;
      try lia; try congruence; eauto;
      try match goal with H : _ \/ _ |- _ => destruct H; congruence end;
    try fresh_case.
    + apply pi_index_idle0. congruence.
    + apply pi_round0. congruence.
    + apply pi_range0; [assumption | congruence].
Qed.

Lemma play_home (w : World) :
  gameState w = RESULT ->
  play_invariant rng w -> play_invariant rng (setGameState START w).
Proof.
  intros G P. destruct P.
  constructor; fields; intros; try lia; try congruence; eauto;
    try match goal with H : _ \/ _ |- _ => destruct H; congruence end;
    try fresh_case.
  apply pi_index_idle0. congruence.
Qed.

Lemma play_to_answering (w : World) (d : Z) :
  gameState w = FLASHING ->
  play_invariant rng w ->
  play_invariant rng
    (setCurrentIndex (-1)
       (setGameState ANSWERING (setTimers [] (setClock d w)))).
Proof.
  intros G P. destruct P.
  constructor; fields; intros; try lia; try congruence; eauto;
    try match goal with H : _ \/ _ |- _ => destruct H; congruence end;
    try fresh_case.
  - apply pi_round0. congruence.
  - apply pi_range0; [assumption | congruence].
Qed.

(** The state the click on GO leaves. *)
Lemma step_go_eq (w : World) :
  committed w -> gameState w = READY -> timers w = [] ->
  step rng w ClickGo
  = setEffect (FLASHING, numbersId w, interval (config w)) true
      (setFlashTimerRef (Some (nextTimerId w))
         (setNextTimerId (Pos.succ (nextTimerId w))
            (setTimers
               [mkTimer (nextTimerId w)
                  (clock w + delay_of (interval (config w)))
                  (Some (delay_of (interval (config w))))
                  (FlashTick 0 (numbers w) (interval (config w)))]
               (setCurrentIndex 0 (setGameState FLASHING w))))).
Proof.
  intros Hc G T. unfold step, handle. rewrite G. unfold commit.
  replace (deps_eqb (effect_deps (setGameState FLASHING w))
             (effectDeps (setGameState FLASHING w))) with false.
  2:{ simpl. rewrite Hc. unfold effect_deps. rewrite G. reflexivity. }
  unfold effect_cleanup.
  replace (if effectCleanup (setGameState FLASHING w)
           then clear_flash_timer (setGameState FLASHING w)
           else setGameState FLASHING w)
    with (setGameState FLASHING w)
    by (destruct (effectCleanup (setGameState FLASHING w));
        rewrite ?clear_flash_timer_idle; auto).
  unfold flashing_effect. simpl. rewrite T. reflexivity.
Qed.

Lemma play_go (w : World) :
  session_invariant w -> gameState w = READY ->
  play_invariant rng w -> play_invariant rng (step rng w ClickGo).
Proof.
  intros I G P.
  assert (T : timers w = []) by (apply invariant_idle_timers; congruence).
  rewrite (step_go_eq w (inv_committed w I) G T).
  pose proof (inv_round w I ltac:(congruence)) as N.
  destruct P.
  constructor; fields; intros; try lia; try congruence; eauto;
    try match goal with H : _ \/ _ |- _ => destruct H; congruence end;
    try fresh_case.
  - destruct (numbers w); [congruence | simpl List.length; lia].
  - match goal with H : [_] = [_] |- _ => inversion H; subst end. auto.
  - apply pi_round0. congruence.
  - apply pi_range0; [assumption | congruence].
Qed.

Lemma play_fire_next (w : World) (id : positive) (d p idx ivl : Z)
    (nums : list Z) :
  gameState w = FLASHING ->
  timers w = [mkTimer id d (Some p) (FlashTick idx nums ivl)] ->
  (idx + 1 <? Z.of_nat (List.length nums)) = true ->
  play_invariant rng w ->
  play_invariant rng
    (setTimers [mkTimer id (d + p) (Some p) (FlashTick (idx + 1) nums ivl)]
       (setCurrentIndex (idx + 1) (setClock d w))).
Proof.
  intros G T E P. apply Z.ltb_lt in E.
  destruct (pi_closure rng w P _ _ _ _ _ _ T) as [Ei En].
  pose proof (pi_index rng w P G) as B.
  destruct P.
  constructor; fields; intros; try lia; try congruence; eauto;
    try match goal with H : _ \/ _ |- _ => destruct H; congruence end;
    try fresh_case.
  - subst. lia.
  - match goal with H : [_] = [_] |- _ => inversion H; subst end. auto.
Qed.

Lemma play_fire_last (w : World) (id : positive) (d p idx ivl : Z)
    (nums : list Z) :
  gameState w = FLASHING ->
  timers w = [mkTimer id d (Some p) (FlashTick idx nums ivl)] ->
  (idx + 1 <? Z.of_nat (List.length nums)) = false ->
  play_invariant rng w ->
  play_invariant rng
    (setNextTimerId (Pos.succ (nextTimerId w))
       (setTimers [mkTimer (nextTimerId w) (d + delay_of ivl) None ToAnswering]
          (setClock d w))).
Proof.
  intros G T E P. apply Z.ltb_ge in E.
  destruct (pi_closure rng w P _ _ _ _ _ _ T) as [Ei En].
  pose proof (pi_index rng w P G) as B.
  destruct P.
  constructor; fields; intros; try lia; try congruence; eauto;
    try match goal with H : _ \/ _ |- _ => destruct H; congruence end;
    try fresh_case;
    try (subst; lia).
Qed.

Lemma play_unchanged (w : World) :
  session_invariant w -> play_invariant rng w ->
  play_invariant rng (commit w).
Proof. intros I P. rewrite commit_id by apply I. exact P. Qed.

Lemma play_fire (w : World) :
  session_invariant w -> gameState w = FLASHING ->
  play_invariant rng w ->
  play_invariant rng (commit (handle rng w TimerFires)).
Proof.
  intros I G P.
  pose proof (inv_timers w I) as T. unfold flash_timers in T. rewrite G in T.
  pose proof (inv_committed w I) as Hc.
  rewrite handle_timer_fires.
  destruct T as [(id & d & p & idx & nums & ivl & T & R & F) | (id & d & T & F)].
  - rewrite T. cbn [next_timer].
    destruct (idx + 1 <? Z.of_nat (List.length nums)) eqn:E.
    + rewrite (fire_flash_next w id d p idx ivl nums T E).
      rewrite commit_id by exact Hc.
      apply play_fire_next; assumption.
    + rewrite (fire_flash_last w id d p idx ivl nums T R F E).
      rewrite commit_id by exact Hc.
      apply (play_fire_last w id d p idx ivl nums); assumption.
  - rewrite T. cbn [next_timer]. rewrite (fire_to_answering w id d T).
    apply play_commit_idle; [discriminate | reflexivity |].
    apply play_to_answering; assumption.
Qed.

Lemma play_step (w : World) (tr : Trigger) :
  session_invariant w -> play_invariant rng w ->
  play_invariant rng (step rng w tr).
Proof.
  intros I P.
  assert (Idle : gameState w <> FLASHING -> timers w = [])
    by (apply invariant_idle_timers; exact I).
  destruct tr.
  - (* SelectLevel *)
    unfold step, handle. destruct (gameState w) eqn:G;
      try (apply play_unchanged; assumption).
    destruct (nth_error DIFFICULTY_LEVELS i) as [level|];
      [|apply play_unchanged; assumption].
    apply play_commit_idle;
      [ simpl; congruence | apply Idle; congruence
      | apply play_setConfig; [exact G | apply Idle; congruence | exact P] ].
  - (* ClickStart *)
    unfold step, handle. destruct (gameState w) eqn:G;
      try (apply play_unchanged; assumption).
    rewrite (proj2 (on_click_startGame rng w (inv_config w I))).
    apply play_commit_idle;
      [ discriminate
      | change (timers w = []); apply Idle; congruence
      | apply play_startGame; [exact I | congruence | exact P] ].
  - (* ClickGo *)
    destruct (gameState w) eqn:G;
      try (unfold step, handle; rewrite G; apply play_unchanged; assumption).
    apply play_go; assumption.
  - (* ClickNum *)
    unfold step, handle. destruct (gameState w) eqn:G;
      try (apply play_unchanged; assumption).
    destruct (existsb (String.eqb val) NUM_BUTTONS);
      [|apply play_unchanged; assumption].
    unfold handleNumClick.
    destruct (String.eqb val "C").
    + apply play_commit_idle;
        [ simpl; congruence | apply Idle; congruence
        | apply play_setUserAnswer; assumption ].
    + destruct (Z.of_nat (String.length (userAnswer w)) <? 3);
        [|apply play_unchanged; assumption].
      apply play_commit_idle;
        [ simpl; congruence | apply Idle; congruence
        | apply play_setUserAnswer; assumption ].
  - (* ClickOk *)
    unfold step, handle. destruct (gameState w) eqn:G;
      try (apply play_unchanged; assumption).
    destruct (is_empty (userAnswer w)); [apply play_unchanged; assumption|].
    apply play_commit_idle.
    + unfold checkAnswer, random_below.
      destruct (parseInt_equals (userAnswer w) (correctAnswer w)); discriminate.
    + unfold checkAnswer, random_below.
      destruct (parseInt_equals (userAnswer w) (correctAnswer w));
        (change (timers w = []); apply Idle; congruence).
    + apply play_checkAnswer; assumption.
  - (* ClickRestart *)
    unfold step, handle. destruct (gameState w) eqn:G;
      try (apply play_unchanged; assumption).
    rewrite (proj2 (on_click_startGame rng w (inv_config w I))).
    apply play_commit_idle;
      [ discriminate
      | change (timers w = []); apply Idle; congruence
      | apply play_startGame; [exact I | congruence | exact P] ].
  - (* ClickHome *)
    unfold step, handle. destruct (gameState w) eqn:G;
      try (apply play_unchanged; assumption).
    apply play_commit_idle;
      [ discriminate | apply Idle; congruence
      | apply play_home; assumption ].
  - (* TimerFires *)
    unfold step.
    destruct (GameState_eqb (gameState w) FLASHING) eqn:G.
    + apply GameState_eqb_eq in G. apply play_fire; assumption.
    + assert (G' : gameState w <> FLASHING)
        by (intro F; rewrite F in G; discriminate).
      rewrite handle_timer_fires, (Idle G').
      apply play_unchanged; assumption.
  - (* ToneFires *)
    rewrite (step_tone_fires rng w (inv_committed w I)).
    destruct (fire_tone_cases w) as [E|(ts & c & E)]; rewrite E.
    + exact P.
    + destruct P. constructor; assumption.
Qed.

Theorem reachable_play_invariant (w : World) :
  reachable rng w -> play_invariant rng w.
Proof.
  induction 1 as [|w tr R IH].
  - exact play_initial.
  - apply play_step; [apply reachable_invariant with (rng := rng), R | exact IH].
Qed.

End Play.

(** ** Frames *)

Lemma fire_frame (t : Timer) (w : World) :
  config (fire t w) = config w /\
  userAnswer (fire t w) = userAnswer w /\
  score (fire t w) = score w /\
  streak (fire t w) = streak w /\
  praise (fire t w) = praise w /\
  randomCalls (fire t w) = randomCalls w.
Proof.
  unfold fire, run_callback, clear_flash_timer.
  destruct (period t), (callback t); simpl;
    repeat match goal with
           | |- context [if ?b then _ else _] => destruct b; simpl
           | |- context [match flashTimerRef ?x with _ => _ end] =>
               destruct (flashTimerRef x); simpl
           end;
    repeat split; reflexivity.
Qed.

Section LedgerLemmas.

Variable rng : nat -> Double.

(** Every event but an effective submit leaves score and streak alone. *)
Lemma handle_ledger (w : World) (tr : Trigger) :
  (score (handle rng w tr) = score w /\ streak (handle rng w tr) = streak w)
  \/ (tr = ClickOk /\ gameState w = ANSWERING /\
      is_empty (userAnswer w) = false /\
      handle rng w tr = checkAnswer rng w).
Proof.
  assert (Hstart : score (on_click (startGame rng) w) = score w /\
                   streak (on_click (startGame rng) w) = streak w).
  { destruct (on_click_startGame_cases rng w) as [[_ E]|[_ E]]; rewrite E;
      split; reflexivity. }
  assert (Htone : score (fire_tone w) = score w /\
                  streak (fire_tone w) = streak w).
  { destruct (fire_tone_frame w) as (_ & _ & _ & _ & _ & _ & Es & _ & Ek & _).
    split; assumption. }
  destruct tr; unfold handle; destruct (gameState w) eqn:G;
    try (left; split; reflexivity); try (left; exact Hstart);
    try (left; exact Htone).
  - destruct (nth_error DIFFICULTY_LEVELS i); left; split; reflexivity.
  - unfold handleNumClick.
    destruct (existsb (String.eqb val) NUM_BUTTONS), (String.eqb val "C"),
      (Z.of_nat (String.length (userAnswer w)) <? 3);
      left; split; reflexivity.
  - destruct (is_empty (userAnswer w)) eqn:E; [left; split; reflexivity|].
    right. auto.
  - left. destruct (next_timer (timers w)); [|split; reflexivity].
    destruct (fire_frame t w) as (_ & _ & Hs & Hk & _). auto.
  - left. destruct (next_timer (timers w)); [|split; reflexivity].
    destruct (fire_frame t w) as (_ & _ & Hs & Hk & _). auto.
  - left. destruct (next_timer (timers w)); [|split; reflexivity].
    destruct (fire_frame t w) as (_ & _ & Hs & Hk & _). auto.
  - left. destruct (next_timer (timers w)); [|split; reflexivity].
    destruct (fire_frame t w) as (_ & _ & Hs & Hk & _). auto.
  - left. destruct (next_timer (timers w)); [|split; reflexivity].
    destruct (fire_frame t w) as (_ & _ & Hs & Hk & _). auto.
Qed.

Lemma checkAnswer_ledger (w : World) :
  (shows_trophy w = true /\
   score (checkAnswer rng w) = score w + count (config w) * 10 + streak w * 5 /\
   streak (checkAnswer rng w) = streak w + 1)
  \/ (shows_trophy w = false /\
      score (checkAnswer rng w) = score w /\
      streak (checkAnswer rng w) = 0).
Proof.
  unfold checkAnswer, shows_trophy, random_below.
  destruct (parseInt_equals (userAnswer w) (correctAnswer w));
    [left | right]; repeat split; reflexivity.
Qed.

End LedgerLemmas.

(** ** The moves between screens *)

Section Phases.

Variable rng : nat -> Double.

(** What a timer callback does to a reachable FLASHING state: the next
    index, or the last index kept with the final delay pending, or
    ANSWERING. *)
Lemma flashing_tick_cases (w : World) :
  reachable rng w -> gameState w = FLASHING ->
  let w' := step rng w TimerFires in
  userAnswer w' = userAnswer w /\
  ((gameState w' = FLASHING /\
    currentIndex w' = currentIndex w + 1 /\
    remaining_ticks w = S (remaining_ticks w'))
   \/ (gameState w' = FLASHING /\
       currentIndex w' = currentIndex w /\
       remaining_ticks w = 2%nat /\ remaining_ticks w' = 1%nat)
   \/ (gameState w' = ANSWERING /\
       currentIndex w' = -1 /\ timers w' = [] /\
       remaining_ticks w = 1%nat)).
Proof.
  intros R G w'.
  pose proof (reachable_invariant rng w R) as I.
  pose proof (reachable_play_invariant rng w R) as P.
  pose proof (inv_timers w I) as T. unfold flash_timers in T. rewrite G in T.
  pose proof (inv_committed w I) as Hc.
  pose proof (pi_index rng w P G) as B.
  assert (U : userAnswer w' = userAnswer w).
  { subst w'. unfold step.
    destruct (commit_frame (handle rng w TimerFires))
      as (_ & _ & _ & _ & E & _).
    rewrite E, handle_timer_fires.
    destruct (next_timer (timers w)); [|reflexivity].
    apply (fire_frame t w). }
  split; [exact U|].
  destruct T as [(id & d & p & idx & nums & ivl & T & Rf & F) | (id & d & T & F)].
  - destruct (pi_closure rng w P _ _ _ _ _ _ T) as [Ei En].
    subst w'. rewrite (step_timer_fires rng w _ T).
    destruct (idx + 1 <? Z.of_nat (List.length nums)) eqn:E.
    + left. rewrite (fire_flash_next w id d p idx ivl nums T E).
      rewrite commit_id by exact Hc.
      apply Z.ltb_lt in E.
      unfold remaining_ticks. rewrite T. simpl.
      repeat split; try assumption; try congruence. lia.
    + right; left. rewrite (fire_flash_last w id d p idx ivl nums T Rf F E).
      rewrite commit_id by exact Hc.
      apply Z.ltb_ge in E.
      unfold remaining_ticks. rewrite T. simpl.
      repeat split; try assumption; try reflexivity.
      subst. replace (Z.of_nat (List.length (numbers w)) - currentIndex w + 1)
        with 2 by lia. reflexivity.
  - right; right. subst w'.
    destruct (tick_to_answering rng id d w T) as (G' & C' & _ & T').
    unfold remaining_ticks. rewrite T. simpl. auto.
Qed.

Lemma step_phase_edge (w : World) (tr : Trigger) :
  reachable rng w ->
  phase_edge (gameState w) (gameState (step rng w tr)) = true.
Proof.
  intro R. pose proof (reachable_invariant rng w R) as I.
  destruct (GameState_eqb (gameState w) FLASHING) eqn:F.
  - apply GameState_eqb_eq in F.
    destruct tr;
      try (rewrite step_ignored_in_flashing;
           [ rewrite F; reflexivity | apply I | exact F
           | discriminate | discriminate ]).
    + destruct (flashing_tick_cases w R F)
        as (_ & [(G & _)|[(G & _)|(G & _)]]); rewrite F, G; reflexivity.
    + rewrite (step_tone_fires rng w (inv_committed w I)).
      rewrite (proj1 (fire_tone_frame w)), F. reflexivity.
  - assert (F' : gameState w <> FLASHING)
      by (intro E; rewrite E in F; discriminate).
    pose proof (invariant_idle_timers w I F') as T.
    unfold step.
    destruct (commit_frame (handle rng w tr)) as (E & _). rewrite E.
    destruct tr; unfold handle; destruct (gameState w) eqn:G;
      try congruence; try (rewrite ?G; reflexivity);
      try (rewrite (proj2 (on_click_startGame rng w (inv_config w I)));
           reflexivity);
      try (rewrite (proj1 (fire_tone_frame w)), G; reflexivity).
    + destruct (nth_error DIFFICULTY_LEVELS i); simpl; rewrite ?G; reflexivity.
    + unfold handleNumClick.
      destruct (existsb (String.eqb val) NUM_BUTTONS), (String.eqb val "C"),
        (Z.of_nat (String.length (userAnswer w)) <? 3);
        simpl; rewrite ?G; reflexivity.
    + unfold checkAnswer, random_below.
      destruct (is_empty (userAnswer w)),
        (parseInt_equals (userAnswer w) (correctAnswer w));
        simpl; rewrite ?G; reflexivity.
    + rewrite T. simpl. rewrite G. reflexivity.
    + rewrite T. simpl. rewrite G. reflexivity.
    + rewrite T. simpl. rewrite G. reflexivity.
    + rewrite T. simpl. rewrite G. reflexivity.
Qed.

(** The FLASHING screen is left by a timer of the effect only. *)
Lemma flashing_kept (w : World) (tr : Trigger) :
  reachable rng w -> gameState w = FLASHING -> tr <> TimerFires ->
  gameState (step rng w tr) = FLASHING.
Proof.
  intros R F N. pose proof (reachable_invariant rng w R) as I.
  destruct tr; try congruence;
    try (rewrite step_ignored_in_flashing;
         [exact F | apply I | exact F | discriminate | discriminate]).
  rewrite (step_tone_fires rng w (inv_committed w I)).
  rewrite (proj1 (fire_tone_frame w)). exact F.
Qed.

End Phases.
(** ** The render between an event and the effect *)

Lemma commit_tone_frame (w : World) : toneTimers (commit w) = toneTimers w.
Proof.
  unfold commit.
  destruct (deps_eqb (effect_deps w) (effectDeps w)); [reflexivity|].
  unfold flashing_effect, effect_cleanup, clear_flash_timer.
  destruct (effectCleanup w), (flashTimerRef w), (gameState w) eqn:G;
    simpl; rewrite ?G; simpl; rewrite ?G; reflexivity.
Qed.

Lemma fire_effect_frame (t : Timer) (w : World) :
  numbersId (fire t w) = numbersId w /\
  effectDeps (fire t w) = effectDeps w /\
  toneTimers (fire t w) = toneTimers w.
Proof.
  unfold fire, run_callback, clear_flash_timer.
  destruct (period t), (callback t); simpl;
    repeat match goal with
           | |- context [if ?b then _ else _] => destruct b; simpl
           | |- context [match flashTimerRef ?x with _ => _ end] =>
               destruct (flashTimerRef x); simpl
           end;
    repeat split; reflexivity.
Qed.

Section Rendering.

Variable rng : nat -> Double.

(** FLASHING is entered by the click on GO, in READY. *)
Lemma enters_flashing (w : World) (tr : Trigger) :
  reachable rng w ->
  gameState (handle rng w tr) = FLASHING -> gameState w <> FLASHING ->
  gameState w = READY /\ tr = ClickGo /\
  handle rng w tr = setGameState FLASHING w.
Proof.
  intros R G' G. pose proof (reachable_invariant rng w R) as I.
  pose proof (step_phase_edge rng w tr R) as E. unfold step in E.
  destruct (commit_frame (handle rng w tr)) as (Eg & _).
  rewrite Eg, G' in E.
  assert (F : gameState w = READY)
    by (destruct (gameState w); try discriminate; congruence).
  pose proof (invariant_idle_timers w I G) as T.
  split; [exact F|].
  assert (Et : tr = ClickGo).
  { destruct tr; try reflexivity; exfalso;
      rewrite ?handle_timer_fires, ?T, ?handle_tone_fires,
        ?(proj1 (fire_tone_frame w)) in G';
      unfold handle in G'; rewrite ?F in G'; simpl in G'; congruence. }
  split; [exact Et|]. subst tr. unfold handle. rewrite F. reflexivity.
Qed.

(** While FLASHING stays, the effect does not run again: the state an
    event leaves is the state between two events. *)
Lemma handle_in_flashing (w : World) (tr : Trigger) :
  reachable rng w ->
  gameState w = FLASHING -> gameState (handle rng w tr) = FLASHING ->
  handle rng w tr = step rng w tr.
Proof.
  intros R F F'. pose proof (reachable_invariant rng w R) as I.
  pose proof (inv_committed w I) as Hc. unfold committed in Hc.
  unfold step. symmetry. apply commit_id. unfold committed.
  assert (Fr : effectDeps (handle rng w tr) = effectDeps w /\
               numbersId (handle rng w tr) = numbersId w /\
               config (handle rng w tr) = config w).
  { destruct tr;
      try (unfold handle; rewrite F; repeat split; reflexivity).
    - rewrite handle_timer_fires.
      destruct (next_timer (timers w)); [|repeat split; reflexivity].
      destruct (fire_effect_frame t w) as (En & Ed & _).
      destruct (fire_frame t w) as (Ec & _). auto.
    - rewrite handle_tone_fires.
      destruct (fire_tone_frame w)
        as (_ & Ec & _ & En & _ & _ & _ & _ & _ & _ & _ & Ed & _).
      auto. }
  destruct Fr as (Ed & En & Ec).
  unfold effect_deps. rewrite Ed, En, Ec, F', Hc. unfold effect_deps.
  rewrite F. reflexivity.
Qed.

(** A render of the FLASHING screen shows a state between two events, or
    the state the click on GO leaves, which the effect has not seen yet. *)
Lemma rendered_flashing (w : World) :
  rendered rng w -> gameState w = FLASHING ->
  reachable rng w
  \/ exists w0,
       reachable rng w0 /\ gameState w0 = READY /\
       w = setGameState FLASHING w0.
Proof.
  intros Rn F. destruct Rn as [w R | w0 tr R]; [left; exact R|].
  destruct (GameState_eqb (gameState w0) FLASHING) eqn:G.
  - apply GameState_eqb_eq in G. left.
    rewrite (handle_in_flashing w0 tr R G F). constructor. exact R.
  - assert (G' : gameState w0 <> FLASHING)
      by (intro E; rewrite E in G; discriminate).
    destruct (enters_flashing w0 tr R F G') as (Gr & _ & E).
    right. exists w0. auto.
Qed.

(** Off the FLASHING screen no index is on display, in any render. *)
Lemma rendered_idle_index (w : World) :
  rendered rng w -> gameState w <> FLASHING -> currentIndex w = -1.
Proof.
  intros Rn F. destruct Rn as [w R | w0 tr R].
  - apply (pi_index_idle rng w (reachable_play_invariant rng w R) F).
  - destruct (commit_not_flashing (handle rng w0 tr) F) as [Ec _].
    destruct (commit_frame (handle rng w0 tr)) as (Eg & _).
    rewrite <- Ec.
    apply (pi_index_idle rng (step rng w0 tr)
             (reachable_play_invariant rng _ (reach_step rng w0 tr R))).
    unfold step. rewrite Eg. exact F.
Qed.

End Rendering.

(** ** Pending tones *)

Lemma next_tone_in (ts : list Tone) (t : Tone) :
  next_tone ts = Some t -> In t ts.
Proof.
  revert t; induction ts as [|u us IH]; intros t N; [discriminate N|].
  simpl in N. destruct (next_tone us) as [v|].
  - destruct (tone_due v <? tone_due u); inversion N; subst.
    + right. apply IH. reflexivity.
    + left. reflexivity.
  - inversion N. left. reflexivity.
Qed.

Lemma remove_tone_shrinks (ts : list Tone) (t : Tone) :
  In t ts ->
  (List.length
     (filter (fun u => negb (Pos.eqb (tone_id u) (tone_id t))) ts)
   < List.length ts)%nat.
Proof.
  induction ts as [|u us IH]; intro H; [contradiction|].
  simpl. destruct H as [->|H].
  - rewrite Pos.eqb_refl. simpl.
    pose proof (filter_length_le
                  (fun u => negb (Pos.eqb (tone_id u) (tone_id t))) us).
    lia.
  - specialize (IH H).
    destruct (negb (Pos.eqb (tone_id u) (tone_id t))); simpl; lia.
Qed.

(** A tone that fires is one pending tone less, at least. *)
Lemma fire_tone_shrinks (w : World) :
  toneTimers (fire_tone w) = toneTimers w
  \/ (List.length (toneTimers (fire_tone w))
      < List.length (toneTimers w))%nat.
Proof.
  unfold fire_tone.
  destruct (next_tone (toneTimers w)) as [t|] eqn:N; [|left; reflexivity].
  right. simpl. apply remove_tone_shrinks, next_tone_in, N.
Qed.

Section PendingTones.

Variable rng : nat -> Double.

(** Tones are scheduled by a submit only. *)
Lemma handle_tone_timers (w : World) (tr : Trigger) :
  toneTimers (handle rng w tr) = toneTimers w
  \/ (tr = ClickOk /\ gameState w = ANSWERING /\
      is_empty (userAnswer w) = false)
  \/ tr = ToneFires.
Proof.
  destruct tr; auto;
    unfold handle; destruct (gameState w) eqn:G; auto.
  - destruct (nth_error DIFFICULTY_LEVELS i); left; reflexivity.
  - destruct (on_click_startGame_cases rng w) as [[_ E]|[_ E]];
      rewrite E; left; reflexivity.
  - left. unfold handleNumClick.
    destruct (existsb (String.eqb val) NUM_BUTTONS), (String.eqb val "C"),
      (Z.of_nat (String.length (userAnswer w)) <? 3); reflexivity.
  - destruct (is_empty (userAnswer w)) eqn:E; auto.
  - destruct (on_click_startGame_cases rng w) as [[_ E]|[_ E]];
      rewrite E; left; reflexivity.
  - left. destruct (next_timer (timers w)); [apply fire_effect_frame | reflexivity].
  - left. destruct (next_timer (timers w)); [apply fire_effect_frame | reflexivity].
  - left. destruct (next_timer (timers w)); [apply fire_effect_frame | reflexivity].
  - left. destruct (next_timer (timers w)); [apply fire_effect_frame | reflexivity].
  - left. destruct (next_timer (timers w)); [apply fire_effect_frame | reflexivity].
Qed.

End PendingTones.


(** * The claims of the specification *)

Section FlashSequenceClaim.

Variable rng : nat -> Double.

(** C1 — From READY with a round of [N >= 1] values and a positive
    interval [I], the click on GO at time [t0] starts the flash sequence:
    after [k] callbacks of the timer of the effect, for every [k < N], the
    time is [t0 + k * I] and index [k] is displayed, so the indices 0, 1,
    ..., N-1 appear in increasing order, one per tick of [I], none skipped
    or repeated.  (The hypotheses on [w] hold in every reachable READY
    state.)  The next callback, at [t0 + N * I], leaves the last index on
    the screen, cancels the repeating timer and leaves one one-shot timer
    pending, due one further [I] later; when that one fires, at
    [t0 + (N + 1) * I], the phase is ANSWERING, the displayed index is -1
    and no timer of the effect is left. *)
Theorem flash_sequence_in_order (w : World) (N : nat) :
  committed w ->
  gameState w = READY ->
  timers w = [] ->
  List.length (numbers w) = N ->
  (1 <= N)%nat ->
  0 < interval (config w) ->
  let I := interval (config w) in
  let t0 := clock w in
  let at_tick k := ticks rng k (step rng w ClickGo) in
  (forall k, (k < N)%nat ->
     gameState (at_tick k) = FLASHING /\
     currentIndex (at_tick k) = Z.of_nat k /\
     clock (at_tick k) = t0 + Z.of_nat k * I /\
     exists id cb,
       timers (at_tick k) =
       [mkTimer id (t0 + (Z.of_nat k + 1) * I) (Some I) cb]) /\
  map (fun k => currentIndex (at_tick k)) (seq 0 N)
  = map Z.of_nat (seq 0 N) /\
  (gameState (at_tick N) = FLASHING /\
   currentIndex (at_tick N) = Z.of_nat N - 1 /\
   clock (at_tick N) = t0 + Z.of_nat N * I /\
   exists id,
     timers (at_tick N) =
     [mkTimer id (t0 + (Z.of_nat N + 1) * I) None ToAnswering]) /\
  (gameState (at_tick (S N)) = ANSWERING /\
   currentIndex (at_tick (S N)) = -1 /\
   clock (at_tick (S N)) = t0 + (Z.of_nat N + 1) * I /\
   timers (at_tick (S N)) = []).
Proof.
  intros Hc G T HN H1 Hi I t0 at_tick.
  pose proof (go_showing rng w Hc G T Hi) as S0. fold I t0 in S0.
  assert (Sk : forall k, (k < N)%nat ->
            showing (nextTimerId w) t0 I (numbers w) (Z.of_nat k) (at_tick k)).
  { intros k Hk. apply (ticks_showing rng); [exact S0 | lia]. }
  destruct N as [|n]; [lia|].
  assert (Slast := Sk n ltac:(lia)).
  assert (EN : at_tick (S n) = step rng (at_tick n) TimerFires) by reflexivity.
  destruct (tick_after_last rng _ _ _ _ _ _ Slast Hi ltac:(lia))
    as (G1 & C1 & K1 & T1 & _).
  rewrite <- EN in G1, C1, K1, T1.
  split; [|split; [|split]].
  - intros k Hk. destruct (Sk k Hk) as (Gk & Ck & Kk & Tk & _).
    repeat split; try assumption. eauto.
  - apply map_ext_in. intros k Hk. apply in_seq in Hk.
    destruct (Sk k ltac:(lia)) as (_ & Ck & _). exact Ck.
  - repeat split; try assumption.
    + rewrite C1. lia.
    + rewrite K1. f_equal. lia.
    + eexists. rewrite T1. f_equal. f_equal. lia.
  - assert (ES : at_tick (S (S n)) = step rng (at_tick (S n)) TimerFires)
      by reflexivity.
    destruct (tick_to_answering rng _ _ _ T1) as (G2 & C2 & K2 & T2).
    rewrite <- ES in G2, C2, K2, T2.
    repeat split; try assumption. rewrite K2. lia.
Qed.

End FlashSequenceClaim.

Section AnswerClaims.

Variable rng : nat -> Double.

(** C2 — A submit in ANSWERING whose parsed input equals the stored sum adds
    [count * 10 + streak * 5] to the score, with the streak as it was before
    the submit, then raises the streak by one, and takes the praise from the
    non-empty list [PRAISE_MESSAGES]; with [count = 3] and [streak = 2] the
    score grows by 40. *)
Theorem checkAnswer_correct_scoring (w : World) :
  valid_source rng ->
  gameState w = ANSWERING ->
  parseInt_equals (userAnswer w) (correctAnswer w) = true ->
  let w' := step rng w ClickOk in
  gameState w' = RESULT /\
  score w' = score w + count (config w) * 10 + streak w * 5 /\
  streak w' = streak w + 1 /\
  (exists m, praise w' = Some m /\ In m PRAISE_MESSAGES) /\
  PRAISE_MESSAGES <> [] /\
  (count (config w) = 3 -> streak w = 2 -> score w' = score w + 40).
Proof.
  intros V G C w'.
  destruct (submit_correct_ledger rng w G C) as (Hg & Hs & Hk & Hp).
  fold w' in Hg, Hs, Hk, Hp.
  repeat split; try assumption.
  - rewrite Hp. apply praise_drawn_from_set, V.
  - discriminate.
  - intros E1 E2. rewrite Hs, E1, E2. lia.
Qed.

(** C4 — A submit in ANSWERING whose parsed input differs from the stored
    sum resets the streak to 0, leaves the score as it is, and sets the
    praise to the one fixed consolation message, which is not a member of
    [PRAISE_MESSAGES] and is set without a call to [Math.random]. *)
Theorem checkAnswer_wrong_resets_streak (w : World) :
  gameState w = ANSWERING ->
  is_empty (userAnswer w) = false ->
  parseInt_equals (userAnswer w) (correctAnswer w) = false ->
  let w' := step rng w ClickOk in
  gameState w' = RESULT /\
  streak w' = 0 /\
  score w' = score w /\
  praise w' = Some CONSOLATION /\
  ~ In CONSOLATION PRAISE_MESSAGES /\
  randomCalls w' = randomCalls w.
Proof.
  intros G E C w'. subst w'.
  rewrite (step_ok_checks rng) by assumption.
  destruct (commit_frame (checkAnswer rng w))
    as (Hg & _ & _ & _ & _ & Hs & _ & Hk & Hp & _ & Hr).
  rewrite Hg, Hs, Hk, Hp, Hr. unfold checkAnswer. rewrite C. simpl.
  repeat split; try reflexivity.
  unfold CONSOLATION. intros [H|[H|[H|[H|[H|[H|[]]]]]]]; discriminate H.
Qed.

End AnswerClaims.

Section RoundGeneratorClaim.

Variable rng : nat -> Double.


End RoundGeneratorClaim.


Section NoValidation.

Variable rng : nat -> Double.


End NoValidation.

Section InputClaims.

Variable rng : nat -> Double.

(** C7 — In ANSWERING with an empty [userAnswer] the OK button is disabled:
    the submit changes nothing at all, and [checkAnswer] is not run.  An
    empty answer is never evaluated: in every reachable RESULT state, which
    only an evaluation leads to, [userAnswer] is not empty. *)
Theorem submit_empty_is_ignored (w : World) :
  reachable rng w ->
  gameState w = ANSWERING ->
  userAnswer w = "" ->
  step rng w ClickOk = w /\
  handle rng w ClickOk = w /\
  (forall v, reachable rng v -> gameState v = RESULT -> userAnswer v <> "").
Proof.
  intros R G E. unfold step, handle. rewrite G, E. simpl.
  split; [|split; [reflexivity|]].
  - apply commit_id, (inv_committed w), reachable_invariant with (rng := rng), R.
  - intros v Rv Gv Ev.
    pose proof (inv_result v (reachable_invariant rng v Rv) Gv) as A.
    rewrite Ev in A. discriminate A.
Qed.

(** C9 — Between two events [userAnswer] is a string of at most three
    decimal digits.  In ANSWERING a digit button appends its digit when the
    length is below 3 and changes nothing otherwise, and the button C
    empties [userAnswer]. *)
Theorem pending_input_at_most_three_digits (w : World) :
  reachable rng w ->
  (all_digits (userAnswer w) = true /\
   (String.length (userAnswer w) <= 3)%nat) /\
  (forall d, In d NUM_BUTTONS -> d <> "C" -> gameState w = ANSWERING ->
     ((String.length (userAnswer w) < 3)%nat ->
        step rng w (ClickNum d)
        = setUserAnswer (String.append (userAnswer w) d) w) /\
     ((3 <= String.length (userAnswer w))%nat ->
        step rng w (ClickNum d) = w)) /\
  (gameState w = ANSWERING ->
     step rng w (ClickNum "C") = setUserAnswer "" w).
Proof.
  intro R. pose proof (reachable_invariant rng w R) as I.
  split; [split; apply I|]. split.
  - intros d B C G.
    rewrite (step_num_click rng w d (inv_committed w I) G B).
    unfold handleNumClick.
    replace (String.eqb d "C") with false
      by (symmetry; apply String.eqb_neq; exact C).
    split; intro L.
    + replace (Z.of_nat (String.length (userAnswer w)) <? 3) with true
        by (symmetry; apply Z.ltb_lt; lia).
      reflexivity.
    + replace (Z.of_nat (String.length (userAnswer w)) <? 3) with false
        by (symmetry; apply Z.ltb_ge; lia).
      reflexivity.
  - intro G. rewrite (step_num_click rng w "C" (inv_committed w I) G).
    + reflexivity.
    + unfold NUM_BUTTONS. simpl. tauto.
Qed.

End InputClaims.

(** ** Going home *)

(** C8, as stated, fails — After the right answer 6 to the round [3; 3] the
    click on the home button leads to START with the round and the typed
    answer still in place: neither is cleared. *)
Lemma go_home_round_and_input_survive :
  reachable rng_half sample_right /\
  gameState sample_right = RESULT /\
  gameState (step rng_half sample_right ClickHome) = START /\
  numbers (step rng_half sample_right ClickHome) = [3; 3] /\
  correctAnswer (step rng_half sample_right ClickHome) = 6 /\
  userAnswer (step rng_half sample_right ClickHome) = "6" /\
  numbers (step rng_half sample_right ClickHome) <> [] /\
  userAnswer (step rng_half sample_right ClickHome) <> "".
Proof.
  split.
  - unfold sample_right, sample_answering.
    apply reachable_run, reachable_run, reach_initial.
  - repeat conj_split; try (vm_compute; reflexivity); vm_compute; discriminate.
Qed.

Section GoHome.

Variable rng : nat -> Double.

(** C8, amended — The home button of RESULT sets the phase to START and
    changes nothing else: the round ([numbers], [correctAnswer]), the typed
    answer, the score, the streak, the praise and the preset all persist,
    so in START after a game the round is still present and the answer
    still non-empty.  The next start empties the answer and replaces the
    round.  The round is absent exactly before the first game: on the START
    screen, as long as no round has been started, no value drawn and
    nothing scored or typed. *)
Theorem go_home_changes_phase_only (w : World) :
  reachable rng w ->
  (gameState w = RESULT ->
   let w' := step rng w ClickHome in
   gameState w' = START /\
   numbers w' = numbers w /\
   correctAnswer w' = correctAnswer w /\
   userAnswer w' = userAnswer w /\
   score w' = score w /\
   streak w' = streak w /\
   praise w' = praise w /\
   config w' = config w /\
   numbers w' <> [] /\
   userAnswer w' <> "" /\
   userAnswer (step rng w' ClickStart) = "" /\
   numbers (step rng w' ClickStart) = newNumbers rng w') /\
  (numbers w = [] <-> before_first_game w).
Proof.
  intro R. pose proof (reachable_invariant rng w R) as I.
  pose proof (reachable_play_invariant rng w R) as P. split.
  - intros G w'.
    assert (E : w' = commit (setGameState START w))
      by (subst w'; unfold step, handle; rewrite G; reflexivity).
    destruct (commit_frame (setGameState START w))
      as (Hg & Hcf & Hn & _ & Hu & Hs & Hca & Hst & Hp & _).
    rewrite <- E in Hg, Hcf, Hn, Hu, Hs, Hca, Hst, Hp. simpl in *.
    assert (C' : In (config w') DIFFICULTY_LEVELS)
      by (rewrite Hcf; apply I).
    assert (S1 : step rng w' ClickStart = commit (started rng w')).
    { unfold step, handle. rewrite Hg.
      rewrite (proj2 (on_click_startGame rng w' C')). reflexivity. }
    destruct (commit_frame (started rng w'))
      as (_ & _ & Hn' & _ & Hu' & _).
    rewrite <- S1 in Hn', Hu'. unfold started in Hn', Hu'.
    simpl in Hn', Hu'.
    repeat split; try assumption.
    + rewrite Hn. apply I. congruence.
    + rewrite Hu. pose proof (inv_result w I G) as A.
      destruct (userAnswer w); [discriminate A | discriminate].
  - split.
    + intro E. destruct (Nat.eq_dec (numbersId w) 0) as [Z|N].
      * apply (pi_fresh rng w P Z).
      * exfalso. apply (pi_played rng w P N E).
    + intros (_ & Z & _). apply (pi_fresh rng w P Z).
Qed.

End GoHome.

(** ** Timers and new rounds *)

Section Cancellation.

Variable rng : nat -> Double.


End Cancellation.

(** ** The catalog and the three-character answer *)

Section CatalogAnswer.

Variable rng : nat -> Double.

(** C10 — Every preset of the catalog has [count * maxValue <= 999]; the
    largest product is 10 * 15 = 150.  So, for a source of doubles of
    [0, 1), the sum of every round generated from a catalog preset lies
    between 1 and 150 and has at most three decimal digits: in ANSWERING it
    can be typed in full within the three-character limit (button C, then
    its digits), it parses back to the sum, and the submit that follows
    takes the correct branch. *)
Theorem catalog_sum_fits_three_digits (w : World) :
  valid_source rng ->
  reachable rng w ->
  gameState w = ANSWERING ->
  Forall (fun c => count c * maxValue c <= 999) DIFFICULTY_LEVELS /\
  Forall (fun c => count c * maxValue c <= 150) DIFFICULTY_LEVELS /\
  Exists (fun c => count c = 10 /\ maxValue c = 15) DIFFICULTY_LEVELS /\
  (forall w0, In (config w0) DIFFICULTY_LEVELS ->
     exists w1,
       startGame rng w0 = Returned w1 /\ 1 <= correctAnswer w1 <= 150) /\
  1 <= correctAnswer w <= 150 /\
  let typed :=
    run rng w (ClickNum "C" :: map ClickNum (decimal_keys (correctAnswer w))) in
  gameState typed = ANSWERING /\
  (String.length (userAnswer typed) <= 3)%nat /\
  parseInt (userAnswer typed) = Some (correctAnswer w) /\
  gameState (step rng typed ClickOk) = RESULT /\
  streak (step rng typed ClickOk) = streak w + 1 /\
  score (step rng typed ClickOk)
  = score w + count (config w) * 10 + streak w * 5.
Proof.
  intros V R G.
  pose proof (reachable_invariant rng w R) as I.
  destruct catalog_products as [P150 Pmax].
  assert (B : 1 <= correctAnswer w <= 150).
  { apply round_sum_bounds.
    - apply reachable_round_within_catalog with (rng := rng); assumption.
    - apply I. congruence. }
  split; [|split; [exact P150|split; [exact Pmax|split; [|split; [exact B|]]]]].
  - eapply Forall_impl; [|exact P150]. simpl. intros; lia.
  - intros w0 C. exists (started rng w0).
    split; [apply (on_click_startGame rng w0 C)|].
    pose proof (startGame_round_within_catalog rng V w0 C) as Rw.
    apply round_sum_bounds; [exact Rw|].
    unfold started. simpl. apply newNumbers_nonempty, C.
  - intro typed.
    pose proof (keys_spell_all (correctAnswer w) ltac:(lia)) as K.
    unfold keys_spell in K. rewrite !andb_true_iff in K.
    destruct K as [[Kd Kl] Kp]. apply Nat.leb_le in Kl.
    assert (E : typed
                = setUserAnswer (typed_text (decimal_keys (correctAnswer w))) w).
    { subst typed. simpl run. fold (run rng).
      change (fold_left (step rng) (map ClickNum (decimal_keys (correctAnswer w)))
                (step rng w (ClickNum "C")))
        with (run rng (step rng w (ClickNum "C"))
                (map ClickNum (decimal_keys (correctAnswer w)))).
      rewrite (step_num_click rng w "C" (inv_committed w I) G)
        by (unfold NUM_BUTTONS; simpl; tauto).
      change (handleNumClick "C" w) with (setUserAnswer "" w).
      rewrite run_digit_keys; try assumption.
      - reflexivity.
      - exact (inv_committed w I). }
    assert (Lt : (String.length (typed_text (decimal_keys (correctAnswer w)))
                  <= 3)%nat).
    { clear - Kd Kl. revert Kd Kl.
      generalize (decimal_keys (correctAnswer w)) as ks.
      assert (H : forall ks, forallb is_digit_button ks = true ->
                  String.length (typed_text ks) = List.length ks).
      { induction ks as [|k ks IH]; simpl; [reflexivity|].
        rewrite andb_true_iff. intros [Dk D].
        destruct (digit_button_facts k Dk) as (_ & _ & Lk).
        rewrite length_append, Lk, IH by exact D. reflexivity. }
      intros ks Kd Kl. rewrite H by exact Kd. exact Kl. }
    assert (Gt : gameState typed = ANSWERING) by (rewrite E; exact G).
    assert (Pt : parseInt_equals (userAnswer typed) (correctAnswer typed) = true)
      by (rewrite E; exact Kp).
    destruct (submit_correct_ledger rng typed Gt Pt) as (Hg & Hs & Hk & _).
    rewrite Hg, Hs, Hk. rewrite E. simpl.
    repeat conj_split; try reflexivity; try assumption.
    unfold parseInt_equals in Kp.
    destruct (parseInt (typed_text (decimal_keys (correctAnswer w))));
      [|discriminate Kp].
    apply Z.eqb_eq in Kp. congruence.
Qed.

End CatalogAnswer.

(** * Further properties of the game *)

(** ** The ledger: score and streak *)

Section Ledger.

Variable rng : nat -> Double.

(** X1 — Between two events the score and the streak are never negative; no
    event lowers the score; and a right answer submitted in ANSWERING raises
    it by at least 20. *)
Theorem score_never_decreases (w : World) (tr : Trigger) :
  reachable rng w ->
  0 <= streak w /\
  0 <= score w /\
  score w <= score (step rng w tr) /\
  (gameState w = ANSWERING -> shows_trophy w = true ->
   score w + 20 <= score (step rng w ClickOk)).
Proof.
  intro R.
  pose proof (reachable_invariant rng w R) as I.
  pose proof (reachable_play_invariant rng w R) as P.
  pose proof (catalog_count_positive _ (inv_config w I)) as (Hc & _).
  pose proof (pi_streak rng w P) as Hk. pose proof (pi_score rng w P) as Hs.
  split; [exact Hk|]. split; [exact Hs|]. split.
  - unfold step.
    destruct (commit_frame (handle rng w tr)) as (_ & _ & _ & _ & _ & E & _).
    rewrite E.
    destruct (handle_ledger rng w tr) as [[Es _]|(_ & _ & _ & Eh)]; [lia|].
    rewrite Eh. destruct (checkAnswer_ledger rng w) as [(_ & Es & _)|(_ & Es & _)];
      rewrite Es; nia.
  - intros G T.
    destruct (submit_correct_ledger rng w G T) as (_ & Es & _).
    rewrite Es. nia.
Qed.

(** X2 — Score and streak change at one place only: a submit in ANSWERING
    with a non-empty answer.  Start, restart, going home, the choice of a
    level, digit input and the timers all leave both as they are. *)
Theorem ledger_changes_only_on_submit (w : World) (tr : Trigger) :
  score (step rng w tr) <> score w \/ streak (step rng w tr) <> streak w ->
  tr = ClickOk /\ gameState w = ANSWERING /\ userAnswer w <> "".
Proof.
  unfold step.
  destruct (commit_frame (handle rng w tr))
    as (_ & _ & _ & _ & _ & Es & _ & Ek & _).
  rewrite Es, Ek.
  destruct (handle_ledger rng w tr) as [[Hs Hk]|(Et & G & E & _)].
  - rewrite Hs, Hk. intros [H|H]; congruence.
  - intros _. repeat split; try assumption.
    intro U. rewrite U in E. discriminate.
Qed.

End Ledger.

(** ** What the screens show *)

Section Screens.

Variable rng : nat -> Double.

(** X3 — On the RESULT screen the test the page repeats at each render,
    [parseInt(userAnswer) === correctAnswer], agrees with the branch
    [checkAnswer] took: the trophy is shown exactly when the streak is at
    least 1, with a praise from [PRAISE_MESSAGES]; otherwise the streak is 0
    and the praise is the consolation.  The streak banner is shown exactly
    when the streak exceeds 1. *)
Theorem result_screen_matches_ledger (w : World) :
  valid_source rng ->
  reachable rng w ->
  gameState w = RESULT ->
  (shows_trophy w = true <-> 1 <= streak w) /\
  (shows_trophy w = true ->
   exists m, praise w = Some m /\ In m PRAISE_MESSAGES) /\
  (shows_trophy w = false ->
   streak w = 0 /\ praise w = Some CONSOLATION) /\
  shows_streak_banner w = (1 <? streak w).
Proof.
  intros V R G.
  pose proof (reachable_play_invariant rng w R) as P.
  unfold shows_streak_banner. fold (shows_trophy w).
  destruct (pi_result rng w P G) as [(T & K)|(T & K & Pr)].
  - rewrite T. repeat split; try assumption; try congruence.
    + intros _. apply (pi_praise rng w P V G T).
    + apply andb_true_r.
  - rewrite T, K. repeat split; try assumption; try congruence; try lia.
Qed.

End Screens.

(** ** The moves between screens, continued *)

Section PhaseTheorems.

Variable rng : nat -> Double.

(** X13 — The screens follow one cycle.  Every event keeps the screen or
    moves it along START -> READY -> FLASHING -> ANSWERING -> RESULT ->
    READY or START; no screen is skipped.  ANSWERING is entered from
    FLASHING only, and only by a timer; FLASHING only from READY by GO. *)
Theorem screens_follow_the_cycle (w : World) (tr : Trigger) :
  reachable rng w ->
  phase_edge (gameState w) (gameState (step rng w tr)) = true /\
  (gameState (step rng w tr) = ANSWERING -> gameState w <> ANSWERING ->
   gameState w = FLASHING /\ tr = TimerFires) /\
  (gameState (step rng w tr) = FLASHING -> gameState w <> FLASHING ->
   gameState w = READY /\ tr = ClickGo).
Proof.
  intro R. pose proof (step_phase_edge rng w tr R) as E.
  pose proof (reachable_invariant rng w R) as I.
  split; [exact E|]. split.
  - intros G' G. rewrite G' in E.
    assert (F : gameState w = FLASHING)
      by (destruct (gameState w); try discriminate; congruence).
    split; [exact F|].
    destruct tr; try reflexivity; exfalso;
      match goal with
      | H : gameState (step rng w ?t) = ANSWERING |- _ =>
          pose proof (flashing_kept rng w t R F ltac:(discriminate))
      end; congruence.
  - intros G' G. rewrite G' in E.
    assert (F : gameState w = READY)
      by (destruct (gameState w); try discriminate; congruence).
    split; [exact F|].
    unfold step in G'.
    destruct (commit_frame (handle rng w tr)) as (Eg & _). rewrite Eg in G'.
    pose proof (invariant_idle_timers w I G) as T.
    destruct tr; try reflexivity; exfalso;
      rewrite ?handle_timer_fires, ?T, ?handle_tone_fires,
        ?(proj1 (fire_tone_frame w)) in G';
      unfold handle in G'; rewrite ?F in G'; simpl in G'; congruence.
Qed.

(** X4 — From the start of a round to the end of its flash sequence
    [userAnswer] is empty, so the ANSWERING screen always opens with an
    empty answer and a disabled OK button. *)
Theorem answer_empty_on_entry (w : World) (tr : Trigger) :
  reachable rng w ->
  (gameState w = READY \/ gameState w = FLASHING -> userAnswer w = "") /\
  (gameState w <> ANSWERING -> gameState (step rng w tr) = ANSWERING ->
   userAnswer (step rng w tr) = "" /\
   step rng (step rng w tr) ClickOk = step rng w tr).
Proof.
  intro R. pose proof (reachable_play_invariant rng w R) as P.
  split; [apply P|].
  intros G G'.
  pose proof (step_phase_edge rng w tr R) as E. rewrite G' in E.
  assert (F : gameState w = FLASHING)
    by (destruct (gameState w); try discriminate; congruence).
  assert (Et : tr = TimerFires).
  { destruct tr; try reflexivity; exfalso;
      match goal with
      | H : gameState (step rng w ?t) = ANSWERING |- _ =>
          pose proof (flashing_kept rng w t R F ltac:(discriminate))
      end; congruence. }
  subst tr.
  destruct (flashing_tick_cases rng w R F) as (U & _).
  assert (U' : userAnswer (step rng w TimerFires) = "")
    by (rewrite U; apply P; auto).
  split; [exact U'|].
  assert (R' : reachable rng (step rng w TimerFires)) by (constructor; exact R).
  unfold step at 1. unfold handle. rewrite G', U'. simpl.
  apply commit_id, (inv_committed _ (reachable_invariant rng _ R')).
Qed.

Lemma ticks_succ_l (k : nat) (w : World) :
  ticks rng (S k) w = ticks rng k (step rng w TimerFires).
Proof. unfold ticks. apply Nat.iter_succ_r. Qed.

Lemma flashing_runs_out (n : nat) :
  forall w, reachable rng w -> gameState w = FLASHING ->
  remaining_ticks w = n ->
  gameState (ticks rng n w) = ANSWERING /\
  currentIndex (ticks rng n w) = -1 /\
  timers (ticks rng n w) = [] /\
  userAnswer (ticks rng n w) = "" /\
  (forall j, (j < n)%nat -> gameState (ticks rng j w) = FLASHING).
Proof.
  induction n as [|n IH]; intros w R F E.
  - destruct (flashing_tick_cases rng w R F)
      as (_ & [(_ & _ & H)|[(_ & _ & H & _)|(_ & _ & _ & H)]]);
      rewrite E in H; discriminate H.
  - assert (R' : reachable rng (step rng w TimerFires)) by (constructor; exact R).
    pose proof (pi_input rng w (reachable_play_invariant rng w R)
                  (or_intror F)) as U0.
    destruct (flashing_tick_cases rng w R F)
      as (U & [(G' & _ & H)|[(G' & _ & H & H')|(G' & C' & T' & H)]]).
    + assert (En : remaining_ticks (step rng w TimerFires) = n) by lia.
      destruct (IH _ R' G' En) as (Ha & Hb & Hc & Hd & He).
      rewrite ticks_succ_l. repeat split; try assumption.
      intros [|j] Hj; [exact F|]. rewrite ticks_succ_l. apply He. lia.
    + assert (En : remaining_ticks (step rng w TimerFires) = n) by lia.
      destruct (IH _ R' G' En) as (Ha & Hb & Hc & Hd & He).
      rewrite ticks_succ_l. repeat split; try assumption.
      intros [|j] Hj; [exact F|]. rewrite ticks_succ_l. apply He. lia.
    + assert (n = 0)%nat by lia. subst n.
      change (ticks rng 1 w) with (step rng w TimerFires).
      repeat split; try assumption.
      * rewrite U. exact U0.
      * intros j Hj. assert (j = 0)%nat by lia. subst j. exact F.
Qed.

(** X7 — The flash sequence always ends.  From every reachable FLASHING
    state a known number of callbacks of the timers of the effect, at least
    1 and at most the number of values plus 1, leads to ANSWERING with
    nothing displayed, no timer of the effect pending and an empty answer;
    until then the screen stays FLASHING. *)
Theorem flashing_always_reaches_answering (w : World) :
  reachable rng w ->
  gameState w = FLASHING ->
  (1 <= remaining_ticks w <= List.length (numbers w) + 1)%nat /\
  gameState (ticks rng (remaining_ticks w) w) = ANSWERING /\
  currentIndex (ticks rng (remaining_ticks w) w) = -1 /\
  timers (ticks rng (remaining_ticks w) w) = [] /\
  userAnswer (ticks rng (remaining_ticks w) w) = "" /\
  (forall j, (j < remaining_ticks w)%nat ->
     gameState (ticks rng j w) = FLASHING).
Proof.
  intros R F.
  pose proof (reachable_invariant rng w R) as I.
  pose proof (reachable_play_invariant rng w R) as P.
  split; [|apply flashing_runs_out; auto].
  pose proof (inv_timers w I) as T. unfold flash_timers in T. rewrite F in T.
  pose proof (pi_index rng w P F) as B.
  unfold remaining_ticks.
  destruct T as [(id & d & p & idx & nums & ivl & T & _) | (id & d & T & _)];
    rewrite T; simpl.
  - destruct (pi_closure rng w P _ _ _ _ _ _ T) as [Ei En]. subst. lia.
  - lia.
Qed.

End PhaseTheorems.

(** ** The round on display *)

Section Display.

Variable rng : nat -> Double.

(** X5 — The big number of the FLASHING screen is never [undefined].  In
    every render of that screen it is a value of the round, between 1 and
    [maxValue], or it is blank; it is blank in one render only, the one
    between the click on GO and the effect, when [currentIndex] is still
    -1.  Between two events it is a value of the round throughout FLASHING,
    and [currentIndex] is -1 on every other screen. *)
Theorem flashing_shows_a_round_value (w : World) :
  valid_source rng ->
  rendered rng w ->
  (gameState w = FLASHING ->
   flash_text w <> Undefined /\
   ((flash_text w = Blank /\ currentIndex w = -1 /\ ~ committed w)
    \/ (exists v,
          flash_text w = Number v /\
          nth_error (numbers w) (Z.to_nat (currentIndex w)) = Some v /\
          1 <= v <= maxValue (config w)))) /\
  (reachable rng w ->
   (gameState w = FLASHING -> exists v, flash_text w = Number v) /\
   (gameState w <> FLASHING -> currentIndex w = -1 /\ flash_text w = Blank)).
Proof.
  intros V Rn.
  assert (Settled : forall s, reachable rng s -> gameState s = FLASHING ->
            exists v,
              flash_text s = Number v /\
              nth_error (numbers s) (Z.to_nat (currentIndex s)) = Some v /\
              1 <= v <= maxValue (config s)).
  { intros s R F. pose proof (reachable_play_invariant rng s R) as P.
    pose proof (pi_index rng s P F) as B.
    destruct (nth_error (numbers s) (Z.to_nat (currentIndex s))) as [v|] eqn:N.
    - exists v. unfold flash_text. rewrite N.
      replace (0 <=? currentIndex s) with true by (symmetry; apply Z.leb_le; lia).
      pose proof (pi_range rng s P V ltac:(congruence)) as Rg.
      rewrite Forall_forall in Rg.
      split; [reflexivity|]. split; [reflexivity|].
      apply Rg. eapply nth_error_In, N.
    - apply nth_error_None in N. lia. }
  split.
  - intro F.
    destruct (rendered_flashing rng w Rn F) as [R|(w0 & R0 & G0 & E)].
    + destruct (Settled w R F) as (v & Ht & Hn & Hv).
      split; [rewrite Ht; discriminate|]. right. exists v. auto.
    + pose proof (reachable_play_invariant rng w0 R0) as P0.
      pose proof (inv_committed w0 (reachable_invariant rng w0 R0)) as Hc.
      assert (C : currentIndex w = -1)
        by (rewrite E; apply (pi_index_idle rng w0 P0); congruence).
      assert (B : flash_text w = Blank)
        by (unfold flash_text; rewrite C; reflexivity).
      split; [rewrite B; discriminate|]. left.
      split; [exact B|]. split; [exact C|].
      unfold committed in *. rewrite E. simpl. rewrite Hc.
      unfold effect_deps. simpl. rewrite G0. discriminate.
  - intro R. pose proof (reachable_play_invariant rng w R) as P. split.
    + intro F. destruct (Settled w R F) as (v & Ht & _). eauto.
    + intro F. pose proof (pi_index_idle rng w P F) as C.
      split; [exact C|]. unfold flash_text. rewrite C. reflexivity.
Qed.

(** X8 — The stored round stays consistent with the preset in use: in every
    reachable state [correctAnswer] is the sum of [numbers]; off the START
    screen [numbers] has exactly [config.count] values, each between 1 and
    [config.maxValue], so the sum lies between [count] and
    [count * maxValue]. *)
Theorem round_matches_preset (w : World) :
  reachable rng w ->
  correctAnswer w = sum_of (numbers w) /\
  (gameState w <> START ->
   Z.of_nat (List.length (numbers w)) = count (config w) /\
   (valid_source rng ->
    Forall (fun v => 1 <= v <= maxValue (config w)) (numbers w) /\
    count (config w) <= correctAnswer w
    <= count (config w) * maxValue (config w))).
Proof.
  intro R. pose proof (reachable_play_invariant rng w R) as P.
  split; [apply P|]. intro G.
  pose proof (pi_round rng w P G) as L. split; [exact L|].
  intro V. pose proof (pi_range rng w P V G) as F. split; [exact F|].
  rewrite (pi_sum rng w P), <- L. apply sum_of_bounds, F.
Qed.

(** X11 — Of the timers the FLASHING effect creates at most one is
    pending, and one is pending exactly while the FLASHING screen is up;
    when it is the repeating timer, [flashTimerRef] holds its handle.  The
    other timers of the page are the delayed tones of [sounds]: a submit
    schedules three of them after a right answer and one after a wrong
    one, no other event schedules any, and a tone that fires is one
    pending tone less and changes nothing else but the clock. *)
Theorem at_most_one_flash_timer (w : World) (tr : Trigger) :
  reachable rng w ->
  (List.length (timers w) <= 1)%nat /\
  (timers w <> [] <-> gameState w = FLASHING) /\
  (forall id d p cb,
     timers w = [mkTimer id d (Some p) cb] -> flashTimerRef w = Some id) /\
  (gameState w = ANSWERING -> userAnswer w <> "" ->
   List.length (toneTimers (step rng w ClickOk))
   = (List.length (toneTimers w) + (if shows_trophy w then 3 else 1))%nat) /\
  (toneTimers (step rng w tr) <> toneTimers w ->
   (tr = ClickOk /\ gameState w = ANSWERING /\ userAnswer w <> "")
   \/ (tr = ToneFires /\
       (List.length (toneTimers (step rng w tr))
        < List.length (toneTimers w))%nat)) /\
  setToneTimers (toneTimers w) (setClock (clock w) (step rng w ToneFires)) = w.
Proof.
  intro R. pose proof (reachable_invariant rng w R) as I.
  pose proof (inv_timers w I) as T. unfold flash_timers in T.
  split; [|split; [|split; [|split; [|split]]]].
  - destruct (gameState w); try (rewrite T; simpl; lia).
    destruct T as [(id & d & p & idx & nums & ivl & T & _) | (id & d & T & _)];
      rewrite T; simpl; lia.
  - destruct (gameState w) eqn:G;
      try (rewrite T; split; intro H; congruence).
    destruct T as [(id & d & p & idx & nums & ivl & T & _) | (id & d & T & _)];
      rewrite T; split; intro H; congruence.
  - intros id d p cb E.
    destruct (gameState w) eqn:G; try (rewrite T in E; discriminate E).
    destruct T as [(id' & d' & p' & idx & nums & ivl & T & Rf & _)
                  | (id' & d' & T & _)];
      rewrite T in E; inversion E; subst; exact Rf.
  - intros G U.
    assert (E : is_empty (userAnswer w) = false)
      by (destruct (userAnswer w); [congruence | reflexivity]).
    rewrite (step_ok_checks rng w G E), commit_tone_frame.
    unfold checkAnswer, shows_trophy, random_below, sounds_correct,
      sounds_wrong, setToneTimeout.
    destruct (parseInt_equals (userAnswer w) (correctAnswer w)); simpl;
      rewrite !length_app; simpl; lia.
  - unfold step. rewrite commit_tone_frame. intro H.
    destruct (handle_tone_timers rng w tr) as [E|[(Et & G & E)|Et]].
    + congruence.
    + left. split; [exact Et|]. split; [exact G|].
      intro U. rewrite U in E. discriminate E.
    + right. split; [exact Et|]. subst tr.
      rewrite handle_tone_fires in *.
      destruct (fire_tone_shrinks w) as [E|E]; [congruence | exact E].
  - rewrite (step_tone_fires rng w (inv_committed w I)).
    destruct (fire_tone_cases w) as [E|(ts & c & E)]; rewrite E;
      destruct w; reflexivity.
Qed.

(** X12 — On the START screen exactly one level button carries the ring:
    the test [config.name === level.name] holds for the preset in use and
    for no other level of the catalog. *)
Theorem one_level_is_selected (w : World) :
  reachable rng w ->
  filter (is_selected w) DIFFICULTY_LEVELS = [config w].
Proof.
  intro R. pose proof (inv_config w (reachable_invariant rng w R)) as C.
  unfold is_selected. unfold DIFFICULTY_LEVELS in C. simpl in C.
  destruct C as [<-|[<-|[<-|[<-|[<-|[]]]]]]; vm_compute; reflexivity.
Qed.

(** X14 — The preset is chosen on the START screen and nowhere else: off
    START no event changes [config]; on START the click on the [i]-th level
    makes it the preset, and the round the start button then generates has
    that level's number of values. *)
Theorem preset_fixed_during_a_game (w : World) (tr : Trigger) :
  reachable rng w ->
  (gameState w <> START -> config (step rng w tr) = config w) /\
  (gameState w = START ->
   forall i level,
     nth_error DIFFICULTY_LEVELS i = Some level ->
     config (step rng w (SelectLevel i)) = level /\
     numbers (step rng w (SelectLevel i)) = numbers w /\
     score (step rng w (SelectLevel i)) = score w /\
     Z.of_nat
       (List.length
          (numbers (step rng (step rng w (SelectLevel i)) ClickStart)))
     = count level).
Proof.
  intro R. pose proof (reachable_invariant rng w R) as I. split.
  - intro G. unfold step.
    destruct (commit_frame (handle rng w tr)) as (_ & E & _). rewrite E.
    destruct tr; unfold handle; destruct (gameState w) eqn:G';
      try reflexivity; try congruence;
      try (rewrite (proj2 (on_click_startGame rng w (inv_config w I)));
           reflexivity);
      try apply (fire_tone_frame w).
    + unfold handleNumClick.
      destruct (existsb (String.eqb val) NUM_BUTTONS), (String.eqb val "C"),
        (Z.of_nat (String.length (userAnswer w)) <? 3); reflexivity.
    + unfold checkAnswer, random_below.
      destruct (is_empty (userAnswer w)),
        (parseInt_equals (userAnswer w) (correctAnswer w)); reflexivity.
    + destruct (next_timer (timers w)); [apply fire_frame | reflexivity].
    + destruct (next_timer (timers w)); [apply fire_frame | reflexivity].
    + destruct (next_timer (timers w)); [apply fire_frame | reflexivity].
    + destruct (next_timer (timers w)); [apply fire_frame | reflexivity].
  - intros G i level N.
    assert (E : step rng w (SelectLevel i) = commit (setConfig level w))
      by (unfold step, handle; rewrite G, N; reflexivity).
    destruct (commit_frame (setConfig level w))
      as (Hg & Hc & Hn & _ & _ & Hs & _).
    rewrite <- E in Hg, Hc, Hn, Hs. simpl in Hg, Hc, Hn, Hs.
    repeat split; try assumption.
    assert (E2 : step rng (step rng w (SelectLevel i)) ClickStart
                 = commit (started rng (step rng w (SelectLevel i)))).
    { unfold step at 1, handle. rewrite Hg, G.
      rewrite (proj2 (on_click_startGame rng _
                        (inv_config _ (reachable_invariant rng _
                                         (reach_step rng w (SelectLevel i) R))))).
      reflexivity. }
    destruct (commit_frame (started rng (step rng w (SelectLevel i))))
      as (_ & _ & Hn2 & _).
    rewrite E2, Hn2. unfold started. simpl.
    rewrite newNumbers_length. unfold round_length. rewrite Hc.
    apply nth_error_In, catalog_count_positive in N. lia.
Qed.

End Display.

(** ** Colour, progress and the parsed answer *)

Lemma flash_color_changes (w w' : World) :
  0 <= currentIndex w -> currentIndex w' = currentIndex w + 1 ->
  flash_color w' <> flash_color w.
Proof.
  intros H0 E. unfold flash_color. rewrite E.
  rewrite !Z.rem_mod_nonneg by lia.
  pose proof (Z.mod_pos_bound (currentIndex w) 3 ltac:(lia)) as B.
  assert (C : currentIndex w mod 3 = 0 \/ currentIndex w mod 3 = 1
              \/ currentIndex w mod 3 = 2) by lia.
  rewrite Zplus_mod.
  destruct C as [C|[C|C]]; rewrite C; simpl; discriminate.
Qed.

Section Colour.

Variable rng : nat -> Double.

(** X10 — While the FLASHING screen stays up, a callback of a timer of the
    effect either
    keeps the index on display (the final delay after the last value) or
    moves it to the next one, never further; and each move changes the
    colour of the big number, so a value flashed twice in a row is still
    seen to change. *)
Theorem flash_moves_one_index_and_changes_colour (w : World) :
  reachable rng w ->
  gameState w = FLASHING ->
  gameState (step rng w TimerFires) = FLASHING ->
  currentIndex (step rng w TimerFires) = currentIndex w
  \/ (currentIndex (step rng w TimerFires) = currentIndex w + 1 /\
      flash_color (step rng w TimerFires) <> flash_color w).
Proof.
  intros R F F'.
  pose proof (pi_index rng w (reachable_play_invariant rng w R) F) as B.
  destruct (flashing_tick_cases rng w R F)
    as (_ & [(_ & C & _)|[(_ & C & _)|(G & _)]]).
  - right. split; [exact C|]. apply flash_color_changes; [lia | exact C].
  - left. exact C.
  - congruence.
Qed.

End Colour.



Section Progress.

Variable rng : nat -> Double.

(** X6 — The progress bar is always a percentage.  In every render
    [progress] is a finite double between 0 and 100, never the result of a
    division by zero; it is positive exactly when an index is on display,
    and 0 when [currentIndex] is -1, as in the render between the click on
    GO and the effect.  Between two events it is 0 on every screen but
    FLASHING; in FLASHING it is positive, and it is 100 exactly when the
    last value of the round is on display. *)
Theorem progress_is_a_percentage (w : World) :
  rendered rng w ->
  exists p,
    progress w = Some p /\
    (0 <= value_of p)%Q /\ (value_of p <= 100)%Q /\
    ((0 < value_of p)%Q <-> 0 <= currentIndex w) /\
    (currentIndex w = -1 -> (value_of p == 0)%Q) /\
    (reachable rng w ->
     (gameState w <> FLASHING -> (value_of p == 0)%Q) /\
     (gameState w = FLASHING ->
      (0 < value_of p)%Q /\
      ((value_of p < 100)%Q <->
       currentIndex w + 1 < Z.of_nat (List.length (numbers w))))).
Proof.
  intro Rn.
  assert (Zero : currentIndex w = -1 ->
            exists p,
              progress w = Some p /\
              (0 <= value_of p)%Q /\ (value_of p <= 100)%Q /\
              ((0 < value_of p)%Q <-> 0 <= currentIndex w) /\
              (value_of p == 0)%Q).
  { intro C. exists (mkDouble 0 0). unfold progress. rewrite C. simpl.
    split; [reflexivity|]. split; [discriminate|]. split; [discriminate|].
    split; [|reflexivity]. split; intro H; [discriminate H | lia]. }
  assert (Shown : reachable rng w -> gameState w = FLASHING ->
            exists p,
              progress w = Some p /\
              (0 <= value_of p)%Q /\ (value_of p <= 100)%Q /\
              ((0 < value_of p)%Q <-> 0 <= currentIndex w) /\
              (0 < value_of p)%Q /\
              ((value_of p < 100)%Q <->
               currentIndex w + 1 < Z.of_nat (List.length (numbers w)))).
  { intros R F.
    pose proof (reachable_invariant rng w R) as I.
    pose proof (reachable_play_invariant rng w R) as P.
    pose proof (pi_index rng w P F) as B.
    pose proof (pi_round rng w P ltac:(congruence)) as L.
    pose proof (catalog_count_positive _ (inv_config w I)) as ((_ & Hc) & _).
    assert (L53 : Z.of_nat (List.length (numbers w)) < 2 ^ 53).
    { rewrite L. apply Z.le_lt_trans with (m := 10); [exact Hc | reflexivity]. }
    unfold progress.
    replace (0 <=? currentIndex w) with true by (symmetry; apply Z.leb_le; lia).
    replace (Nat.eqb (List.length (numbers w)) 0) with false
      by (symmetry; apply Nat.eqb_neq; lia).
    eexists. split; [reflexivity|].
    destruct (percent_bounds (currentIndex w + 1)
                (Z.of_nat (List.length (numbers w))) ltac:(lia) L53)
      as (Hs & (Hpos & Hle) & Heq & Hlt).
    set (p := times _ 100) in *.
    destruct (value_of_compare p 0 Hs) as (_ & V0 & Vpos & _).
    destruct (value_of_compare p 100 Hs) as (V100 & _ & _ & Vlt & _).
    change (inject_Z 0) with 0%Q in *. change (inject_Z 100) with 100%Q in *.
    assert (Pos : (0 < value_of p)%Q) by (apply Vpos; lia).
    split; [apply V0; lia|]. split; [apply V100; exact Hle|].
    split; [split; intro; [lia | exact Pos]|]. split; [exact Pos|].
    split.
    - intro H. apply Vlt in H.
      destruct (Z.eq_dec (currentIndex w + 1)
                  (Z.of_nat (List.length (numbers w)))) as [E|E]; [|lia].
      rewrite (Heq E) in H. lia.
    - intro H. apply Vlt, Hlt, H. }
  destruct (GameState_eqb (gameState w) FLASHING) eqn:G.
  - apply GameState_eqb_eq in G.
    destruct (rendered_flashing rng w Rn G) as [R|(w0 & R0 & G0 & E)].
    + destruct (Shown R G) as (p & Ep & H0 & H100 & Hi & Hpos & Hlt).
      pose proof (pi_index rng w (reachable_play_invariant rng w R) G) as B.
      exists p. split; [exact Ep|]. split; [exact H0|]. split; [exact H100|].
      split; [exact Hi|]. split; [intro C; lia|].
      intros _. split; [congruence|]. intros _. split; [exact Hpos | exact Hlt].
    + assert (C : currentIndex w = -1).
      { rewrite E.
        apply (pi_index_idle rng w0 (reachable_play_invariant rng w0 R0)).
        congruence. }
      destruct (Zero C) as (p & Ep & H0 & H100 & Hi & Hz).
      exists p. split; [exact Ep|]. split; [exact H0|]. split; [exact H100|].
      split; [exact Hi|]. split; [intros _; exact Hz|].
      intros R. split; [intros _; exact Hz|]. intros _.
      pose proof (pi_index rng w (reachable_play_invariant rng w R) G). lia.
  - assert (G' : gameState w <> FLASHING)
      by (intro E; rewrite E in G; discriminate).
    destruct (Zero (rendered_idle_index rng w Rn G'))
      as (p & Ep & H0 & H100 & Hi & Hz).
    exists p. split; [exact Ep|]. split; [exact H0|]. split; [exact H100|].
    split; [exact Hi|]. split; [intros _; exact Hz|].
    intros _. split; [intros _; exact Hz|]. intro F. congruence.
Qed.

End Progress.

Lemma digit_char_cases (c : ascii) :
  is_digit c = true ->
  In c ["0"; "1"; "2"; "3"; "4"; "5"; "6"; "7"; "8"; "9"]%char.
Proof.
  destruct c as [[] [] [] [] [] [] [] []]; intro H;
    try discriminate H; simpl; tauto.
Qed.

Lemma digit_value_of_digit (c : ascii) :
  is_digit c = true ->
  exists d, digit_value 10 c = Some d /\ 0 <= d <= 9.
Proof.
  intro H. apply digit_char_cases in H. simpl in H.
  repeat (destruct H as [<-|H];
          [eexists; split; [vm_compute; reflexivity | lia]|]).
  contradiction.
Qed.

Lemma parse_digits_all (s : string) :
  all_digits s = true ->
  forall a, 0 <= a ->
  exists n,
    parse_digits 10 (Some a) s = Some n /\
    a * 10 ^ Z.of_nat (String.length s) <= n
    < (a + 1) * 10 ^ Z.of_nat (String.length s).
Proof.
  induction s as [|c s IH]; intros D a Ha.
  - exists a. simpl. split; [reflexivity | lia].
  - simpl in D. apply andb_true_iff in D. destruct D as [Dc Ds].
    destruct (digit_value_of_digit c Dc) as (d & Ed & Hd).
    cbn [parse_digits]. rewrite Ed.
    destruct (IH Ds (a * 10 + d) ltac:(lia)) as (n & En & Hn).
    exists n. split; [exact En|].
    cbn [String.length]. rewrite Nat2Z.inj_succ, Z.pow_succ_r by lia.
    pose proof (Z.pow_pos_nonneg 10 (Z.of_nat (String.length s))
                  ltac:(lia) ltac:(lia)).
    nia.
Qed.

Lemma option_map_mul_1 (x : option Z) : option_map (Z.mul 1) x = x.
Proof. destruct x as [v|]; simpl; [destruct v|]; reflexivity. Qed.

Lemma parseInt_digit_string (c : ascii) (rest : string) :
  is_digit c = true -> all_digits rest = true ->
  parseInt (String c rest) = parse_digits 10 None (String c rest).
Proof.
  intros Dc Dr. apply digit_char_cases in Dc. simpl in Dc.
  destruct Dc as [<-|Dc].
  - destruct rest as [|c2 rest].
    + reflexivity.
    + simpl in Dr. apply andb_true_iff in Dr. destruct Dr as [D2 _].
      apply digit_char_cases in D2. simpl in D2.
      repeat (destruct D2 as [<-|D2];
              [unfold parseInt; cbn -[parse_digits Z.mul];
               apply option_map_mul_1|]).
      contradiction.
  - repeat (destruct Dc as [<-|Dc];
            [unfold parseInt; cbn -[parse_digits Z.mul];
             apply option_map_mul_1|]).
    contradiction.
Qed.

(** A non-empty string of digits parses to a number below ten to the power
    of its length. *)
Lemma parseInt_digits (s : string) :
  all_digits s = true -> s <> "" ->
  exists n,
    parseInt s = Some n /\ 0 <= n < 10 ^ Z.of_nat (String.length s).
Proof.
  intros D N. destruct s as [|c rest]; [congruence|].
  simpl in D. apply andb_true_iff in D. destruct D as [Dc Dr].
  rewrite (parseInt_digit_string c rest Dc Dr).
  destruct (digit_value_of_digit c Dc) as (d & Ed & Hd).
  cbn [parse_digits]. rewrite Ed.
  destruct (parse_digits_all rest Dr d ltac:(lia)) as (n & En & Hn).
  exists n. split; [exact En|].
  cbn [String.length]. rewrite Nat2Z.inj_succ, Z.pow_succ_r by lia.
  pose proof (Z.pow_pos_nonneg 10 (Z.of_nat (String.length rest))
                ltac:(lia) ltac:(lia)).
  nia.
Qed.

Section ParsedAnswer.

Variable rng : nat -> Double.

(** X9 — A typed answer always parses: in every reachable state a
    non-empty [userAnswer] is read by [parseInt] as an integer between 0
    and 999, never as [NaN], and the answer counts as right exactly when
    that integer is [correctAnswer]; leading zeros do not matter. *)
Theorem typed_answer_always_parses (w : World) :
  reachable rng w ->
  userAnswer w <> "" ->
  exists n,
    parseInt (userAnswer w) = Some n /\
    0 <= n <= 999 /\
    (shows_trophy w = true <-> n = correctAnswer w) /\
    parseInt (String "0" (userAnswer w)) = Some n.
Proof.
  intros R N. pose proof (reachable_invariant rng w R) as I.
  pose proof (inv_digits w I) as D. pose proof (inv_length w I) as L.
  destruct (parseInt_digits (userAnswer w) D N) as (n & En & Hn).
  exists n. split; [exact En|]. split; [|split].
  - assert (10 ^ Z.of_nat (String.length (userAnswer w)) <= 10 ^ 3)
      by (apply Z.pow_le_mono_r; lia).
    lia.
  - unfold shows_trophy, parseInt_equals. rewrite En.
    split; intro H; [apply Z.eqb_eq in H | apply Z.eqb_eq]; exact H.
  - rewrite parseInt_digit_string by (try reflexivity; exact D).
    destruct (userAnswer w) as [|c rest] eqn:U; [congruence|].
    simpl in D. apply andb_true_iff in D. destruct D as [Dc Dr].
    rewrite (parseInt_digit_string c rest Dc Dr) in En.
    destruct (digit_value_of_digit c Dc) as (d & Ed & Hd).
    cbn [parse_digits] in *. rewrite Ed in *.
    change (digit_value 10 "0") with (Some 0). cbn iota.
    replace (0 * 10 + d) with d by lia. exact En.
Qed.

End ParsedAnswer.

(** ** Feedback sounds *)

Lemma effect_sounds_committed (h : World) :
  committed h -> effect_sounds h = [].
Proof.
  unfold committed, effect_sounds. intros ->. rewrite deps_eqb_refl.
  reflexivity.
Qed.

Lemma effect_sounds_flash_only (h : World) (x : sounds.t) :
  In x (effect_sounds h) -> x = sounds.flash /\ gameState h = FLASHING.
Proof.
  unfold effect_sounds.
  destruct (deps_eqb (effect_deps h) (effectDeps h)); [contradiction|].
  destruct (gameState h); simpl; try contradiction.
  intros [<-|[]]. split; reflexivity.
Qed.

Lemma callback_sounds_flash_only (cb : Callback) (x : sounds.t) :
  In x (callback_sounds cb) -> x = sounds.flash.
Proof.
  destruct cb as [idx nums ivl|]; simpl; [|contradiction].
  destruct (idx + 1 <? Z.of_nat (List.length nums)); simpl;
    [intros [<-|[]]; reflexivity | contradiction].
Qed.

Lemma handler_sounds_timer (w : World) :
  handler_sounds w TimerFires =
  match next_timer (timers w) with
  | Some t => callback_sounds (callback t)
  | None => []
  end.
Proof. unfold handler_sounds. destruct (gameState w); reflexivity. Qed.

Section Sounds.

Variable rng : nat -> Double.

Lemma flash_sounds_from (id : positive) (t0 ivl : Z) (nums : list Z)
    (m : nat) :
  0 < ivl ->
  forall k s,
    showing id t0 ivl nums k s ->
    Z.of_nat (List.length nums) = k + 1 + Z.of_nat m ->
    run_sounds rng s (repeat TimerFires (m + 2)) = repeat sounds.flash m.
Proof.
  intro Hi. induction m as [|m IH]; intros k s S L.
  - destruct (tick_after_last rng id t0 ivl nums k s S Hi ltac:(lia))
      as (G1 & _ & _ & T1 & Hc1).
    destruct S as (G & _ & _ & T & Rf & F & Hc).
    simpl repeat. cbn [run_sounds]. unfold step_sounds.
    rewrite !app_nil_r.
    assert (E1 : handler_sounds s TimerFires = []).
    { rewrite handler_sounds_timer, T. simpl.
      replace (k + 1 <? Z.of_nat (List.length nums)) with false
        by (symmetry; apply Z.ltb_ge; lia).
      reflexivity. }
    assert (E2 : effect_sounds (handle rng s TimerFires) = []).
    { rewrite handle_timer_fires, T. cbn [next_timer].
      rewrite (fire_flash_last s _ _ _ _ _ _ T Rf F) by (apply Z.ltb_ge; lia).
      apply effect_sounds_committed. exact Hc. }
    assert (E3 : handler_sounds (step rng s TimerFires) TimerFires = []).
    { rewrite handler_sounds_timer, T1. reflexivity. }
    assert (E4 : effect_sounds (handle rng (step rng s TimerFires) TimerFires)
                 = []).
    { rewrite handle_timer_fires, T1. cbn [next_timer].
      rewrite (fire_to_answering _ _ _ T1).
      unfold effect_sounds.
      destruct (deps_eqb _ _); reflexivity. }
    rewrite E1, E2, E3, E4. reflexivity.
  - pose proof (tick_showing rng id t0 ivl nums k s S ltac:(lia)) as S'.
    destruct S as (G & _ & _ & T & Rf & F & Hc).
    simpl repeat. cbn [run_sounds]. unfold step_sounds at 1.
    assert (E1 : handler_sounds s TimerFires = [sounds.flash]).
    { rewrite handler_sounds_timer, T. simpl.
      replace (k + 1 <? Z.of_nat (List.length nums)) with true
        by (symmetry; apply Z.ltb_lt; lia).
      reflexivity. }
    assert (E2 : effect_sounds (handle rng s TimerFires) = []).
    { rewrite handle_timer_fires, T. cbn [next_timer].
      rewrite (fire_flash_next s _ _ _ _ _ _ T) by (apply Z.ltb_lt; lia).
      apply effect_sounds_committed. exact Hc. }
    rewrite E1, E2. cbn [app].
    change (TimerFires :: TimerFires :: repeat TimerFires m)
      with (repeat TimerFires (S (S m))).
    replace (S (S m)) with (m + 2)%nat by lia.
    rewrite (IH (k + 1) _ S') by lia. reflexivity.
Qed.

(** X15 — One flash sound per value.  From the click on GO to the opening
    of the ANSWERING screen the page plays the click of the button and then
    [sounds.flash] exactly once for each value of the round, and nothing
    else: the last two callbacks of the timers of the effect are silent. *)
Theorem one_flash_sound_per_value (w : World) :
  reachable rng w ->
  gameState w = READY ->
  run_sounds rng w
    (ClickGo :: repeat TimerFires (S (List.length (numbers w))))
  = sounds.click :: repeat sounds.flash (List.length (numbers w)).
Proof.
  intros R G.
  destruct (reachable_ready_quiescent rng w R G) as (Hc & T & N & Hi).
  pose proof (go_showing rng w Hc G T Hi) as S0.
  cbn [run_sounds]. unfold step_sounds at 1.
  assert (E1 : handler_sounds w ClickGo = [sounds.click])
    by (unfold handler_sounds; rewrite G; reflexivity).
  assert (E2 : effect_sounds (handle rng w ClickGo) = [sounds.flash]).
  { unfold handle. rewrite G. unfold effect_sounds.
    replace (deps_eqb (effect_deps (setGameState FLASHING w))
               (effectDeps (setGameState FLASHING w))) with false.
    - reflexivity.
    - simpl. rewrite Hc. unfold effect_deps. rewrite G. reflexivity. }
  rewrite E1, E2. cbn [app]. f_equal.
  destruct (List.length (numbers w)) as [|n] eqn:L; [lia|].
  replace (S (S n)) with (n + 2)%nat by lia.
  rewrite (flash_sounds_from _ _ _ _ n Hi 0 _ S0) by (rewrite L; lia).
  reflexivity.
Qed.

Lemma handler_sounds_verdict (w : World) (tr : Trigger) (x : sounds.t) :
  x = sounds.correct \/ x = sounds.wrong ->
  In x (handler_sounds w tr) <->
  (tr = ClickOk /\ gameState w = ANSWERING /\
   is_empty (userAnswer w) = false /\
   shows_trophy w = (match x with sounds.correct => true | _ => false end)).
Proof.
  intro X. unfold shows_trophy. split.
  - unfold handler_sounds. intro H.
    destruct tr; destruct (gameState w) eqn:G; try contradiction;
      try (destruct (next_timer (timers w));
           [apply callback_sounds_flash_only in H; destruct X; congruence
           | contradiction]);
      try (destruct H as [<-|[]]; destruct X; discriminate).
    + destruct (nth_error DIFFICULTY_LEVELS i); [|contradiction].
      destruct H as [<-|[]]; destruct X; discriminate.
    + destruct (existsb (String.eqb val) NUM_BUTTONS); [|contradiction].
      destruct H as [<-|[]]; destruct X; discriminate.
    + destruct (is_empty (userAnswer w)); [contradiction|].
      destruct (parseInt_equals (userAnswer w) (correctAnswer w));
        destruct H as [<-|[<-|[]]]; destruct X; try discriminate; auto.
  - intros (-> & G & E & T). unfold handler_sounds. rewrite G, E, T.
    destruct X as [-> | ->]; simpl; auto.
Qed.

(** X16 — The verdict sounds follow the ledger.  An event plays
    [sounds.correct] exactly when it raises the score; when it plays
    [sounds.wrong] the streak is reset to 0 and the score is kept; and it
    plays [sounds.start] exactly when it opens the READY screen, that is,
    when it starts a round. *)
Theorem sounds_match_the_ledger (w : World) (tr : Trigger) :
  reachable rng w ->
  (In sounds.correct (step_sounds rng w tr)
   <-> score w < score (step rng w tr)) /\
  (In sounds.wrong (step_sounds rng w tr) ->
   streak (step rng w tr) = 0 /\ score (step rng w tr) = score w) /\
  (In sounds.start (step_sounds rng w tr)
   <-> gameState w <> READY /\ gameState (step rng w tr) = READY).
Proof.
  intro R.
  pose proof (reachable_invariant rng w R) as I.
  pose proof (reachable_play_invariant rng w R) as P.
  pose proof (catalog_count_positive _ (inv_config w I)) as (Hc & _).
  pose proof (pi_streak rng w P) as Hk.
  assert (Hv : forall x, x = sounds.correct \/ x = sounds.wrong ->
            In x (step_sounds rng w tr) <-> In x (handler_sounds w tr)).
  { intros x X. unfold step_sounds. rewrite in_app_iff. split; [|auto].
    intros [H|H]; [exact H|].
    apply effect_sounds_flash_only in H. destruct H as [-> _].
    destruct X; discriminate. }
  unfold step.
  destruct (commit_frame (handle rng w tr))
    as (Eg0 & _ & _ & _ & _ & Es & _ & Ek & _).
  rewrite Es, Ek, Eg0.
  split; [|split].
  - rewrite (Hv _ (or_introl eq_refl)),
      (handler_sounds_verdict w tr _ (or_introl eq_refl)).
    split.
    + intros (-> & G & E & T).
      unfold handle. rewrite G, E.
      destruct (checkAnswer_ledger rng w) as [(_ & S & _)|(T' & _)];
        [rewrite S; nia | congruence].
    + intro L.
      destruct (handle_ledger rng w tr) as [[S _]|(Et & G & E & Eh)]; [lia|].
      rewrite Eh in L.
      destruct (checkAnswer_ledger rng w) as [(T & _)|(_ & S & _)];
        [auto | lia].
  - rewrite (Hv _ (or_intror eq_refl)),
      (handler_sounds_verdict w tr _ (or_intror eq_refl)).
    intros (-> & G & E & T). unfold handle. rewrite G, E.
    destruct (checkAnswer_ledger rng w) as [(T' & _)|(_ & S & K)];
      [congruence | auto].
  - unfold step_sounds. rewrite in_app_iff. split.
    + intros [H|H].
      * unfold handler_sounds in H. unfold handle.
        destruct tr; destruct (gameState w) eqn:G; try contradiction;
          try (destruct (next_timer (timers w));
               [apply callback_sounds_flash_only in H; discriminate H
               | contradiction]);
          try (destruct H as [H|[]]; discriminate H);
          try (rewrite (proj2 (on_click_startGame rng w (inv_config w I)));
               split; [discriminate | reflexivity]).
        -- destruct (nth_error DIFFICULTY_LEVELS i); [|contradiction].
           destruct H as [H|[]]; discriminate H.
        -- destruct (existsb (String.eqb val) NUM_BUTTONS); [|contradiction].
           destruct H as [H|[]]; discriminate H.
        -- destruct (is_empty (userAnswer w)); [contradiction|].
           destruct (parseInt_equals (userAnswer w) (correctAnswer w));
             destruct H as [H|[H|[]]]; discriminate H.
      * apply effect_sounds_flash_only in H. destruct H as [H _].
        discriminate H.
    + intros [G Gs]. left. unfold handler_sounds.
      unfold handle in Gs.
      destruct tr; destruct (gameState w) eqn:G'; try congruence;
        try (left; reflexivity); exfalso.
      all: try (destruct (nth_error DIFFICULTY_LEVELS i); simpl in Gs; congruence).
      all: try (unfold handleNumClick in Gs;
                destruct (existsb (String.eqb val) NUM_BUTTONS),
                  (String.eqb val "C"),
                  (Z.of_nat (String.length (userAnswer w)) <? 3);
                simpl in Gs; congruence).
      all: try (unfold checkAnswer, random_below in Gs;
                destruct (is_empty (userAnswer w)),
                  (parseInt_equals (userAnswer w) (correctAnswer w));
                simpl in Gs; congruence).
      all: try (simpl in Gs; congruence).
      all: try (rewrite (proj1 (fire_tone_frame w)) in Gs; congruence).
      all: first
        [ rewrite (invariant_idle_timers w I ltac:(congruence)) in Gs;
          simpl in Gs; congruence
        | pose proof (step_phase_edge rng w TimerFires R) as Pe;
          unfold step in Pe;
          destruct (commit_frame (handle rng w TimerFires)) as (Eg & _);
          rewrite Eg, handle_timer_fires, G' in Pe;
          rewrite Gs in Pe; discriminate Pe ].
Qed.

End Sounds.

(** * Concrete runs

    Each statement above that has hypotheses is applied here to a sample
    state, where its hypotheses are checked by evaluation. *)

Lemma rng_half_valid : valid_source rng_half.
Proof.
  intro k. unfold rng_half, is_unit_double. simpl.
  split; split; [discriminate | reflexivity | discriminate | discriminate].
Defined.

Lemma reachable_sample (trs : list Trigger) :
  reachable rng_half (run rng_half initial trs).
Proof. apply reachable_run, reach_initial. Defined.

Lemma flash_sequence_in_order_witness :
  gameState sample_ready = READY /\
  numbers sample_ready = [3; 3] /\
  map (fun k => currentIndex (ticks rng_half k (step rng_half sample_ready ClickGo)))
    [0; 1]%nat = [0; 1] /\
  map (fun k => clock (ticks rng_half k (step rng_half sample_ready ClickGo)))
    [0; 1; 2; 3]%nat = [0; 1200; 2400; 3600] /\
  gameState (ticks rng_half 2 (step rng_half sample_ready ClickGo)) = FLASHING /\
  gameState (ticks rng_half 3 (step rng_half sample_ready ClickGo)) = ANSWERING /\
  currentIndex (ticks rng_half 3 (step rng_half sample_ready ClickGo)) = -1.
Proof.
  assert (Hc : committed sample_ready) by (vm_compute; reflexivity).
  assert (G : gameState sample_ready = READY) by (vm_compute; reflexivity).
  assert (T : timers sample_ready = []) by (vm_compute; reflexivity).
  assert (L : List.length (numbers sample_ready) = 2%nat)
    by (vm_compute; reflexivity).
  assert (Hi : 0 < interval (config sample_ready)) by (vm_compute; reflexivity).
  destruct (flash_sequence_in_order rng_half sample_ready 2 Hc G T L
              (le_S 1 1 (le_n 1)) Hi)
    as (Hk & _ & (GN & _ & KN & _) & (GS & CS & KS & _)).
  destruct (Hk 0%nat (le_S 1 1 (le_n 1))) as (_ & C0 & K0 & _).
  destruct (Hk 1%nat (le_n 2)) as (_ & C1 & K1 & _).
  repeat conj_split; try assumption.
  - vm_compute; reflexivity.
  - cbn [map]. rewrite C0, C1. reflexivity.
  - cbn [map]. rewrite K0, K1, KN, KS. vm_compute. reflexivity.
Defined.

Lemma checkAnswer_correct_scoring_witness :
  gameState sample_streak_two = ANSWERING /\
  count (config sample_streak_two) = 3 /\
  streak sample_streak_two = 2 /\
  score sample_streak_two = 65 /\
  score (step rng_half sample_streak_two ClickOk) = 65 + 40 /\
  streak (step rng_half sample_streak_two ClickOk) = 3 /\
  exists m,
    praise (step rng_half sample_streak_two ClickOk) = Some m /\
    In m PRAISE_MESSAGES.
Proof.
  assert (G : gameState sample_streak_two = ANSWERING)
    by (vm_compute; reflexivity).
  assert (P : parseInt_equals (userAnswer sample_streak_two)
                (correctAnswer sample_streak_two) = true)
    by (vm_compute; reflexivity).
  assert (C : count (config sample_streak_two) = 3) by (vm_compute; reflexivity).
  assert (S : streak sample_streak_two = 2) by (vm_compute; reflexivity).
  assert (Sc : score sample_streak_two = 65) by (vm_compute; reflexivity).
  destruct (checkAnswer_correct_scoring rng_half sample_streak_two
              rng_half_valid G P) as (_ & _ & Hk & Hp & _ & H40).
  repeat conj_split; try assumption.
  rewrite (H40 C S), Sc. reflexivity.
Defined.


Lemma checkAnswer_wrong_resets_streak_witness :
  gameState sample_typed_wrong = ANSWERING /\
  gameState (step rng_half sample_typed_wrong ClickOk) = RESULT /\
  streak (step rng_half sample_typed_wrong ClickOk) = 0 /\
  score (step rng_half sample_typed_wrong ClickOk) = score sample_typed_wrong /\
  praise (step rng_half sample_typed_wrong ClickOk) = Some CONSOLATION.
Proof.
  assert (G : gameState sample_typed_wrong = ANSWERING)
    by (vm_compute; reflexivity).
  assert (E : is_empty (userAnswer sample_typed_wrong) = false)
    by (vm_compute; reflexivity).
  assert (P : parseInt_equals (userAnswer sample_typed_wrong)
                (correctAnswer sample_typed_wrong) = false)
    by (vm_compute; reflexivity).
  destruct (checkAnswer_wrong_resets_streak rng_half sample_typed_wrong G E P)
    as (Hg & Hk & Hs & Hp & _).
  repeat conj_split; assumption.
Defined.



Lemma submit_empty_is_ignored_witness :
  gameState sample_answering = ANSWERING /\
  userAnswer sample_answering = "" /\
  step rng_half sample_answering ClickOk = sample_answering.
Proof.
  assert (G : gameState sample_answering = ANSWERING)
    by (vm_compute; reflexivity).
  assert (E : userAnswer sample_answering = "") by (vm_compute; reflexivity).
  repeat conj_split; try assumption.
  exact (proj1 (submit_empty_is_ignored rng_half sample_answering
                  (reachable_sample _) G E)).
Defined.

Lemma go_home_changes_phase_only_witness :
  gameState sample_wrong = RESULT /\
  gameState (step rng_half sample_wrong ClickHome) = START /\
  numbers (step rng_half sample_wrong ClickHome) = numbers sample_wrong /\
  userAnswer (step rng_half sample_wrong ClickHome) = userAnswer sample_wrong /\
  numbers (step rng_half sample_wrong ClickHome) <> [] /\
  numbers initial = [] /\
  before_first_game initial.
Proof.
  assert (G : gameState sample_wrong = RESULT) by (vm_compute; reflexivity).
  assert (N : numbers initial = []) by reflexivity.
  destruct (go_home_changes_phase_only rng_half sample_wrong
              (reachable_run rng_half sample_answering _ (reachable_sample _)))
    as (H & _).
  destruct (H G) as (Hg & Hn & _ & Hu & _ & _ & _ & _ & Hne & _).
  destruct (go_home_changes_phase_only rng_half initial
              (reach_initial rng_half)) as (_ & B).
  repeat conj_split; try assumption.
  apply B, N.
Defined.

Lemma pending_input_at_most_three_digits_witness :
  all_digits (userAnswer sample_typed_right) = true /\
  (String.length (userAnswer sample_typed_right) <= 3)%nat /\
  step rng_half sample_typed_right (ClickNum "4")
  = setUserAnswer "64" sample_typed_right /\
  step rng_half sample_typed_right (ClickNum "C")
  = setUserAnswer "" sample_typed_right.
Proof.
  assert (G : gameState sample_typed_right = ANSWERING)
    by (vm_compute; reflexivity).
  destruct (pending_input_at_most_three_digits rng_half sample_typed_right
              (reachable_run rng_half sample_answering _ (reachable_sample _)))
    as ((D & L) & Hd & Hc).
  repeat conj_split; try assumption.
  - refine (proj1 (Hd "4" _ _ G) _).
    + vm_compute. tauto.
    + discriminate.
    + vm_compute. lia.
  - exact (Hc G).
Defined.

Lemma catalog_sum_fits_three_digits_witness :
  gameState sample_answering = ANSWERING /\
  correctAnswer sample_answering = 6 /\
  1 <= correctAnswer sample_answering <= 150 /\
  gameState
    (step rng_half
       (run rng_half sample_answering
          (ClickNum "C"
           :: map ClickNum (decimal_keys (correctAnswer sample_answering))))
       ClickOk) = RESULT.
Proof.
  assert (G : gameState sample_answering = ANSWERING)
    by (vm_compute; reflexivity).
  destruct (catalog_sum_fits_three_digits rng_half sample_answering
              rng_half_valid (reachable_sample _) G)
    as (_ & _ & _ & _ & B & _ & _ & _ & Hr & _).
  repeat conj_split; try assumption; try apply B.
  vm_compute; reflexivity.
Defined.

(** ** Concrete runs for the further properties *)

Lemma score_never_decreases_witness :
  score sample_typed_right = 0 /\
  score sample_typed_right <= score (step rng_half sample_typed_right ClickOk) /\
  score sample_typed_right + 20
  <= score (step rng_half sample_typed_right ClickOk).
Proof.
  destruct (score_never_decreases rng_half sample_typed_right ClickOk
              (reachable_run rng_half sample_answering _ (reachable_sample _)))
    as (_ & _ & H & H20).
  repeat conj_split.
  - vm_compute; reflexivity.
  - exact H.
  - apply H20; vm_compute; reflexivity.
Defined.

Lemma ledger_changes_only_on_submit_witness :
  score (step rng_half sample_typed_right ClickOk) <> score sample_typed_right /\
  gameState sample_typed_right = ANSWERING /\
  userAnswer sample_typed_right <> "".
Proof.
  assert (H : score (step rng_half sample_typed_right ClickOk)
              <> score sample_typed_right) by (vm_compute; discriminate).
  destruct (ledger_changes_only_on_submit rng_half sample_typed_right ClickOk
              (or_introl H)) as (_ & G & U).
  repeat conj_split; assumption.
Defined.

Lemma result_screen_matches_ledger_witness :
  gameState sample_right = RESULT /\
  shows_trophy sample_right = true /\
  1 <= streak sample_right /\
  shows_streak_banner sample_right = false.
Proof.
  assert (G : gameState sample_right = RESULT) by (vm_compute; reflexivity).
  destruct (result_screen_matches_ledger rng_half sample_right rng_half_valid
              (reachable_run rng_half sample_answering _ (reachable_sample _)) G)
    as (Ht & _ & _ & Hb).
  assert (T : shows_trophy sample_right = true) by (vm_compute; reflexivity).
  repeat conj_split; try assumption;
    first [apply Ht, T | rewrite Hb; vm_compute; reflexivity].
Defined.

Lemma answer_empty_on_entry_witness :
  gameState sample_final_delay = FLASHING /\
  gameState (step rng_half sample_final_delay TimerFires) = ANSWERING /\
  userAnswer (step rng_half sample_final_delay TimerFires) = "".
Proof.
  assert (G : gameState sample_final_delay <> ANSWERING)
    by (vm_compute; discriminate).
  assert (G' : gameState (step rng_half sample_final_delay TimerFires)
               = ANSWERING) by (vm_compute; reflexivity).
  destruct (answer_empty_on_entry rng_half sample_final_delay TimerFires
              (reachable_sample _)) as (_ & H).
  destruct (H G G') as (U & _).
  repeat conj_split; try assumption. vm_compute; reflexivity.
Defined.

Lemma flashing_shows_a_round_value_witness :
  gameState sample_flashing = FLASHING /\
  flash_text sample_flashing = Number 3 /\
  gameState (handle rng_half sample_ready ClickGo) = FLASHING /\
  flash_text (handle rng_half sample_ready ClickGo) = Blank /\
  flash_text sample_flashing <> Undefined /\
  flash_text (handle rng_half sample_ready ClickGo) <> Undefined.
Proof.
  assert (G : gameState sample_flashing = FLASHING) by (vm_compute; reflexivity).
  assert (G' : gameState (handle rng_half sample_ready ClickGo) = FLASHING)
    by (vm_compute; reflexivity).
  destruct (flashing_shows_a_round_value rng_half sample_flashing
              rng_half_valid (render_settled _ _ (reachable_sample _)))
    as (H & _).
  destruct (flashing_shows_a_round_value rng_half
              (handle rng_half sample_ready ClickGo)
              rng_half_valid
              (render_event _ sample_ready ClickGo (reachable_sample _)))
    as (H' & _).
  destruct (H G) as (U & _). destruct (H' G') as (U' & _).
  repeat conj_split; try assumption; vm_compute; reflexivity.
Defined.

Lemma progress_is_a_percentage_witness :
  (exists p,
     progress sample_flashing = Some p /\
     (value_of p == 50)%Q /\ (0 < value_of p)%Q /\ (value_of p <= 100)%Q) /\
  (exists p,
     progress (handle rng_half sample_ready ClickGo) = Some p /\
     (value_of p == 0)%Q /\ (value_of p <= 100)%Q).
Proof.
  assert (G : gameState sample_flashing = FLASHING) by (vm_compute; reflexivity).
  destruct (progress_is_a_percentage rng_half sample_flashing
              (render_settled _ _ (reachable_sample _)))
    as (p & E & H0 & H100 & _ & _ & Hf).
  destruct (Hf (reachable_sample _)) as (_ & Hf').
  destruct (Hf' G) as (Hpos & _).
  destruct (progress_is_a_percentage rng_half
              (handle rng_half sample_ready ClickGo)
              (render_event _ sample_ready ClickGo (reachable_sample _)))
    as (q & E' & _ & H100' & Hi & _).
  split.
  - exists p. repeat conj_split; try assumption.
    assert (Ev : progress sample_flashing
                 = Some (mkDouble (50 * 2 ^ 53) 53)) by (vm_compute; reflexivity).
    rewrite Ev in E. inversion E. vm_compute. reflexivity.
  - exists q. repeat conj_split; try assumption.
    assert (Ev : progress (handle rng_half sample_ready ClickGo)
                 = Some (mkDouble 0 0)) by (vm_compute; reflexivity).
    rewrite Ev in E'. inversion E'. vm_compute. reflexivity.
Defined.

Lemma flashing_always_reaches_answering_witness :
  gameState sample_flashing = FLASHING /\
  remaining_ticks sample_flashing = 3%nat /\
  gameState (ticks rng_half (remaining_ticks sample_flashing) sample_flashing)
  = ANSWERING.
Proof.
  assert (G : gameState sample_flashing = FLASHING) by (vm_compute; reflexivity).
  destruct (flashing_always_reaches_answering rng_half sample_flashing
              (reachable_sample _) G) as (_ & H & _).
  repeat conj_split; try assumption. vm_compute; reflexivity.
Defined.

Lemma round_matches_preset_witness :
  gameState sample_answering <> START /\
  correctAnswer sample_answering = sum_of (numbers sample_answering) /\
  Z.of_nat (List.length (numbers sample_answering))
  = count (config sample_answering) /\
  count (config sample_answering) <= correctAnswer sample_answering
  <= count (config sample_answering) * maxValue (config sample_answering).
Proof.
  assert (G : gameState sample_answering <> START) by (vm_compute; discriminate).
  destruct (round_matches_preset rng_half sample_answering (reachable_sample _))
    as (S & H).
  destruct (H G) as (L & HV). destruct (HV rng_half_valid) as (_ & B).
  repeat conj_split; try assumption; apply B.
Defined.

Lemma typed_answer_always_parses_witness :
  userAnswer sample_typed_right = "6" /\
  exists n, parseInt (userAnswer sample_typed_right) = Some n /\ 0 <= n <= 999.
Proof.
  assert (U : userAnswer sample_typed_right <> "") by (vm_compute; discriminate).
  destruct (typed_answer_always_parses rng_half sample_typed_right
              (reachable_run rng_half sample_answering _ (reachable_sample _)) U)
    as (n & E & B & _).
  split; [vm_compute; reflexivity|].
  exists n. split; assumption.
Defined.

Lemma flash_moves_one_index_and_changes_colour_witness :
  gameState sample_flashing = FLASHING /\
  currentIndex (step rng_half sample_flashing TimerFires) = 1 /\
  flash_color sample_flashing = "text-orange-400" /\
  flash_color (step rng_half sample_flashing TimerFires) = "text-green-400" /\
  (currentIndex (step rng_half sample_flashing TimerFires)
   = currentIndex sample_flashing
   \/ flash_color (step rng_half sample_flashing TimerFires)
      <> flash_color sample_flashing).
Proof.
  assert (G : gameState sample_flashing = FLASHING) by (vm_compute; reflexivity).
  assert (G' : gameState (step rng_half sample_flashing TimerFires) = FLASHING)
    by (vm_compute; reflexivity).
  destruct (flash_moves_one_index_and_changes_colour rng_half sample_flashing
              (reachable_sample _) G G') as [H|(_ & H)].
  - repeat conj_split; try assumption; try (vm_compute; reflexivity).
    left. exact H.
  - repeat conj_split; try assumption; try (vm_compute; reflexivity).
    right. exact H.
Defined.

Lemma at_most_one_flash_timer_witness :
  gameState sample_flashing = FLASHING /\
  (List.length (timers sample_flashing) <= 1)%nat /\
  timers sample_flashing <> [] /\
  gameState sample_typed_right = ANSWERING /\
  List.length (toneTimers sample_typed_right) = 0%nat /\
  List.length (toneTimers (step rng_half sample_typed_right ClickOk)) = 3%nat /\
  List.length (toneTimers (step rng_half sample_typed_wrong ClickOk)) = 1%nat.
Proof.
  assert (G : gameState sample_flashing = FLASHING) by (vm_compute; reflexivity).
  assert (Ga : gameState sample_typed_right = ANSWERING)
    by (vm_compute; reflexivity).
  assert (Gw : gameState sample_typed_wrong = ANSWERING)
    by (vm_compute; reflexivity).
  assert (U : userAnswer sample_typed_right <> "") by (vm_compute; discriminate).
  assert (Uw : userAnswer sample_typed_wrong <> "")
    by (vm_compute; discriminate).
  destruct (at_most_one_flash_timer rng_half sample_flashing ClickGo
              (reachable_sample _)) as (L & (_ & H) & _).
  destruct (at_most_one_flash_timer rng_half sample_typed_right ClickOk
              (reachable_run rng_half sample_answering _ (reachable_sample _)))
    as (_ & _ & _ & Hr & _).
  destruct (at_most_one_flash_timer rng_half sample_typed_wrong ClickOk
              (reachable_run rng_half sample_answering _ (reachable_sample _)))
    as (_ & _ & _ & Hw & _).
  repeat conj_split; try assumption.
  - apply H, G.
  - vm_compute; reflexivity.
  - rewrite (Hr Ga U). vm_compute; reflexivity.
  - rewrite (Hw Gw Uw). vm_compute; reflexivity.
Defined.

Lemma one_level_is_selected_witness :
  filter (is_selected sample_streak_two) DIFFICULTY_LEVELS
  = [config sample_streak_two].
Proof.
  apply (one_level_is_selected rng_half). apply reachable_sample.
Defined.

Lemma screens_follow_the_cycle_witness :
  phase_edge (gameState sample_final_delay)
    (gameState (step rng_half sample_final_delay TimerFires)) = true /\
  gameState sample_final_delay = FLASHING.
Proof.
  assert (G : gameState sample_final_delay <> ANSWERING)
    by (vm_compute; discriminate).
  assert (G' : gameState (step rng_half sample_final_delay TimerFires)
               = ANSWERING) by (vm_compute; reflexivity).
  destruct (screens_follow_the_cycle rng_half sample_final_delay TimerFires
              (reachable_sample _)) as (E & H & _).
  destruct (H G' G) as (F & _).
  split; assumption.
Defined.

Lemma preset_fixed_during_a_game_witness :
  gameState sample_answering <> START /\
  config (step rng_half sample_answering (SelectLevel 4))
  = config sample_answering /\
  count (config (step rng_half initial (SelectLevel 4))) = 10 /\
  Z.of_nat
    (List.length
       (numbers (step rng_half (step rng_half initial (SelectLevel 4))
                   ClickStart))) = 10.
Proof.
  assert (G : gameState sample_answering <> START) by (vm_compute; discriminate).
  destruct (preset_fixed_during_a_game rng_half sample_answering (SelectLevel 4)
              (reachable_sample _)) as (H & _).
  destruct (preset_fixed_during_a_game rng_half initial ClickGo
              (reach_initial rng_half)) as (_ & H').
  destruct (H' eq_refl 4%nat _ eq_refl) as (Hc & _ & _ & Hl).
  repeat conj_split; try assumption;
    first [apply H, G | rewrite Hc; reflexivity].
Defined.

Lemma one_flash_sound_per_value_witness :
  gameState sample_ready = READY /\
  run_sounds rng_half sample_ready
    (ClickGo :: repeat TimerFires (S (List.length (numbers sample_ready))))
  = sounds.click :: repeat sounds.flash (List.length (numbers sample_ready)) /\
  List.length (numbers sample_ready) = 2%nat.
Proof.
  assert (G : gameState sample_ready = READY) by (vm_compute; reflexivity).
  repeat conj_split.
  - exact G.
  - exact (one_flash_sound_per_value rng_half sample_ready
             (reachable_sample _) G).
  - vm_compute; reflexivity.
Defined.

Lemma sounds_match_the_ledger_witness :
  step_sounds rng_half sample_typed_right ClickOk
  = [sounds.click; sounds.correct] /\
  score sample_typed_right
  < score (step rng_half sample_typed_right ClickOk) /\
  step_sounds rng_half sample_typed_wrong ClickOk
  = [sounds.click; sounds.wrong] /\
  streak (step rng_half sample_typed_wrong ClickOk) = 0.
Proof.
  destruct (sounds_match_the_ledger rng_half sample_typed_right ClickOk
              (reachable_run rng_half sample_answering _ (reachable_sample _)))
    as (Hc & _).
  destruct (sounds_match_the_ledger rng_half sample_typed_wrong ClickOk
              (reachable_run rng_half sample_answering _ (reachable_sample _)))
    as (_ & Hw & _).
  assert (S1 : step_sounds rng_half sample_typed_right ClickOk
               = [sounds.click; sounds.correct]) by (vm_compute; reflexivity).
  assert (S2 : step_sounds rng_half sample_typed_wrong ClickOk
               = [sounds.click; sounds.wrong]) by (vm_compute; reflexivity).
  assert (I1 : In sounds.correct (step_sounds rng_half sample_typed_right ClickOk))
    by (rewrite S1; right; left; reflexivity).
  assert (I2 : In sounds.wrong (step_sounds rng_half sample_typed_wrong ClickOk))
    by (rewrite S2; right; left; reflexivity).
  exact (conj S1 (conj (proj1 Hc I1) (conj S2 (proj1 (Hw I2))))).
Defined.
